(** * HashADT: a linear-probing hash table with threshold-triggered growth

    A shallow embedding of [HashADT.c].  The table is a record holding the
    four counters of [struct hashtab_s] and the slot array as a list of
    [KeyValuePair]; pointers are addresses in [Z] with [NULL = 0]; the
    client callbacks [hash_fcn] and [equals_fcn] are section variables.
    Every operation returns a [result]: a value, or the reason why the C
    execution yields none (a failed [assert], undefined behaviour, or a
    loop that is still running when the fuel is spent). *)

From Stdlib Require Import ZArith List Bool Lia Znumtheory.
From Stdlib Require Import SpecFloat.
From Stdlib Require String Ascii.
Import ListNotations.
Import String.StringSyntax.
Local Open Scope string_scope.
Local Open Scope Z_scope.

(** ** Machine integers *)

(** [size_t] is an unsigned 64-bit integer: arithmetic wraps modulo [2^64]. *)
Definition SIZE_MODULUS : Z := 2 ^ 64.
Definition SIZE_MAX : Z := SIZE_MODULUS - 1.
Definition size_wrap (z : Z) : Z := z mod SIZE_MODULUS.

(** [int] is a signed 32-bit integer.  Overflow of [x++] is undefined in
    ISO C; the model takes the two's-complement wrap-around. *)
Definition INT_MIN : Z := - 2 ^ 31.
Definition INT_MAX : Z := 2 ^ 31 - 1.
Definition int_wrap (z : Z) : Z := (z + 2 ^ 31) mod 2 ^ 32 - 2 ^ 31.
Definition int_incr (z : Z) : Z := int_wrap (z + 1).

(** [x++] executed [d] times. *)
Definition int_incr_n (d : nat) (z : Z) : Z := Nat.iter d int_incr z.

(** ** Double-precision numbers *)

(** [double] is the IEEE-754 binary64 format: 53 bits of precision, results
    rounded to the nearest double with ties to even, and expressions
    evaluated in that format.  The operations are those of the standard
    library's specification of that arithmetic. *)
Definition double : Type := spec_float.
Definition DBL_MANT_DIG : Z := 53.
Definition DBL_MAX_EXP : Z := 1024.

(** [(double) z] for an integer [z]. *)
Definition double_of_size (z : Z) : double :=
  binary_normalize DBL_MANT_DIG DBL_MAX_EXP z 0 false.

(** [x / y] on doubles. *)
Definition double_div (x y : double) : double :=
  SFdiv DBL_MANT_DIG DBL_MAX_EXP x y.

(** [x >= y] on doubles; false when either side is NaN. *)
Definition double_ge (x y : double) : bool := SFleb y x.

(** ** Outcomes of a C execution *)

Inductive fault : Type :=
| AssertionFailed      (* an [assert] aborted the program *)
| UndefinedBehaviour   (* out-of-bounds access, [% 0], NULL dereference *)
| OutOfFuel.           (* the loop did not finish within the given fuel *)

Inductive result (A : Type) : Type :=
| Ok (a : A)
| Err (f : fault).

Arguments Ok {A} a.
Arguments Err {A} f.

Definition bind {A B : Type} (r : result A) (k : A -> result B) : result B :=
  match r with
  | Ok a => k a
  | Err f => Err f
  end.

Notation "x <- c ;; k" := (bind c (fun x => k))
  (at level 100, c at next level, right associativity).
Notation "' p <- c ;; k" := (bind c (fun x => let p := x in k))
  (at level 100, p pattern, c at next level, right associativity).

(** ** Data model *)

(** A [void *] is an address; [NULL] is the empty-sentinel. *)
Definition ptr : Type := Z.
Definition NULL : ptr := 0.
Definition is_null (p : ptr) : bool := p =? NULL.

Record KeyValuePair : Type := mkPair { key : ptr; value : ptr }.

(** A slot as [calloc] leaves it. *)
Definition empty_pair : KeyValuePair := mkPair NULL NULL.
Definition sizeof_KeyValuePair : Z := 16.

Record hashtab_s : Type := mkTable {
  capacity : Z;                  (* size_t *)
  occupancy : Z;                 (* size_t *)
  collisions : Z;                (* int *)
  rehashes : Z;                  (* int *)
  table : list KeyValuePair      (* KeyValuePair* *)
}.

Definition set_capacity (t : hashtab_s) (c : Z) : hashtab_s :=
  mkTable c (occupancy t) (collisions t) (rehashes t) (table t).
Definition set_occupancy (t : hashtab_s) (o : Z) : hashtab_s :=
  mkTable (capacity t) o (collisions t) (rehashes t) (table t).
Definition set_collisions (t : hashtab_s) (c : Z) : hashtab_s :=
  mkTable (capacity t) (occupancy t) c (rehashes t) (table t).
Definition set_rehashes (t : hashtab_s) (r : Z) : hashtab_s :=
  mkTable (capacity t) (occupancy t) (collisions t) r (table t).
Definition set_table (t : hashtab_s) (T : list KeyValuePair) : hashtab_s :=
  mkTable (capacity t) (occupancy t) (collisions t) (rehashes t) T.

(** Modelled from the spec: the macros [LOAD_THRESHOLD] and [RESIZE_FACTOR]
    of the absent header [HashADT.h]; the spec gives the threshold 0.75 and
    the growth factor 2.  The threshold is kept as the fraction 3/4. *)
Definition LOAD_THRESHOLD_NUM : Z := 3.
Definition LOAD_THRESHOLD_DEN : Z := 4.
Definition RESIZE_FACTOR : Z := 2.

(** The double 0.75, which the fraction 3/4 gives without rounding. *)
Definition LOAD_THRESHOLD : double :=
  double_div (double_of_size LOAD_THRESHOLD_NUM)
    (double_of_size LOAD_THRESHOLD_DEN).

(** ** Array accesses *)

(** [upd T i p] is the array [T] after [T[i] = p]. *)
Fixpoint upd {A : Type} (T : list A) (i : nat) (p : A) : list A :=
  match T, i with
  | [], _ => []
  | _ :: T', O => p :: T'
  | x :: T', S i' => x :: upd T' i' p
  end.

Definition in_bounds {A : Type} (T : list A) (i : Z) : bool :=
  (0 <=? i) && (i <? Z.of_nat (length T)).

(** The slot at index [i], for use in statements (total). *)
Definition slot (T : list KeyValuePair) (i : Z) : KeyValuePair :=
  nth (Z.to_nat i) T empty_pair.

(** [T[i]] as an rvalue; reading outside the array is undefined. *)
Definition slot_read (T : list KeyValuePair) (i : Z) : result KeyValuePair :=
  if in_bounds T i then Ok (slot T i) else Err UndefinedBehaviour.

(** [T[i] = p]; writing outside the array is undefined. *)
Definition slot_write (T : list KeyValuePair) (i : Z) (p : KeyValuePair)
  : result (list KeyValuePair) :=
  if in_bounds T i then Ok (upd T (Z.to_nat i) p) else Err UndefinedBehaviour.

(** [a % b] on [size_t]; a zero divisor is undefined. *)
Definition size_mod (a b : Z) : result Z :=
  if b =? 0 then Err UndefinedBehaviour else Ok (a mod b).

(** [calloc(n, sizeof(KeyValuePair))].  Memory is taken to be available,
    except that a request whose byte count overflows [size_t] returns NULL;
    [ht_put] does not check the pointer, so its first use is undefined. *)
Definition calloc_pairs (n : Z) : result (list KeyValuePair) :=
  if n * sizeof_KeyValuePair <=? SIZE_MAX
  then Ok (repeat empty_pair (Z.to_nat n))
  else Err UndefinedBehaviour.

(** [malloc(n * sizeof(void * ))], taken to succeed: [n] cells of
    indeterminate content ([None]). *)
Definition malloc_ptrs (n : Z) : list (option ptr) := repeat None (Z.to_nat n).

(** [a[i] = p] on a [void **] array. *)
Definition cell_write (a : list (option ptr)) (i : Z) (p : ptr)
  : result (list (option ptr)) :=
  if in_bounds a i then Ok (upd a (Z.to_nat i) (Some p)) else Err UndefinedBehaviour.

(** A slot is occupied iff its key is not the sentinel. *)
Definition occupiedb (p : KeyValuePair) : bool := negb (is_null (key p)).
Definition occupied (p : KeyValuePair) : Prop := key p <> NULL.

Definition count_occupied (T : list KeyValuePair) : Z :=
  Z.of_nat (length (filter occupiedb T)).

(** The [j]-th index of the linear probe sequence of hash [h]. *)
Definition probe (n h j : Z) : Z := (h + j) mod n.

(** The growth test of [ht_put]:
    [double current_threshold = (double) t->occupancy / t->capacity;]
    [if (current_threshold >= LOAD_THRESHOLD)].  Both counters are converted
    to [double], which rounds them once they need more than 53 bits, and the
    quotient is rounded again; a zero capacity gives NaN (test false) or
    infinity (test true). *)
Definition load_exceeded (t : hashtab_s) : bool :=
  let current_threshold :=
    double_div (double_of_size (occupancy t)) (double_of_size (capacity t)) in
  double_ge current_threshold LOAD_THRESHOLD.

(** ** Standard output *)

(** What [printf] and the client's [print_fcn] write, piece by piece. *)
Inductive output : Type :=
| Out_text (s : String.string)   (* the literal characters of a format *)
| Out_zu (n : Z)                 (* a [%zu] conversion of [n] *)
| Out_d (n : Z)                  (* a [%d] conversion of [n] *)
| Out_print (k v : ptr).         (* whatever [print_fcn(k, v)] writes *)

Definition newline : String.string :=
  String.String (Ascii.ascii_of_nat 10) String.EmptyString.

(** The [print_fcn] calls in an output, in order. *)
Fixpoint printed_pairs (out : list output) : list (ptr * ptr) :=
  match out with
  | [] => []
  | Out_print k v :: rest => (k, v) :: printed_pairs rest
  | _ :: rest => printed_pairs rest
  end.

(** The number of lines in an output. *)
Fixpoint count_lines (out : list output) : Z :=
  match out with
  | [] => 0
  | Out_text s :: rest =>
      (if String.eqb s newline then 1 else 0) + count_lines rest
  | _ :: rest => count_lines rest
  end.

(** ** Views of a slot array *)

Definition pair_of (p : KeyValuePair) : ptr * ptr := (key p, value p).

(** The pairs of the occupied slots, in slot order. *)
Definition stored_pairs (T : list KeyValuePair) : list (ptr * ptr) :=
  map pair_of (filter occupiedb T).

(** The values other than NULL, in slot order: what [ht_values] copies. *)
Definition nonnull_values (T : list KeyValuePair) : list ptr :=
  map value (filter (fun p => negb (is_null (value p))) T).

(** The occupied slots whose value is NULL. *)
Definition null_valued (T : list KeyValuePair) : list KeyValuePair :=
  filter (fun p => occupiedb p && is_null (value p)) T.

(** Every empty slot is as [calloc] left it. *)
Definition blank_when_empty (T : list KeyValuePair) : Prop :=
  forall i, 0 <= i < Z.of_nat (length T) ->
    ~ occupied (slot T i) -> value (slot T i) = NULL.

(** ** A sample client and sample tables *)

(** Keys are equal when they agree modulo 16 and hash to their residue
    modulo 4, so 5, 9 and 13 are distinct keys with one ideal slot, and 21
    is another pointer to the key 5. *)
Definition sample_hash (k : ptr) : Z := k mod 4.
Definition sample_equals (a b : ptr) : bool := a mod 16 =? b mod 16.

(** A fresh table of capacity 4. *)
Definition sample_empty : hashtab_s := mkTable 4 0 0 0 (repeat empty_pair 4).

(** The same after [ht_put] of 5, 9 and 13. *)
Definition sample_one : hashtab_s :=
  mkTable 4 1 0 0 [empty_pair; mkPair 5 100; empty_pair; empty_pair].
Definition sample_two : hashtab_s :=
  mkTable 4 2 1 0 [empty_pair; mkPair 5 100; mkPair 9 200; empty_pair].
Definition sample_table : hashtab_s :=
  mkTable 4 3 3 0 [empty_pair; mkPair 5 100; mkPair 9 200; mkPair 13 300].

(** [sample_table] after the growth block. *)
Definition sample_grown : hashtab_s :=
  mkTable 8 3 6 1
    [empty_pair; mkPair 5 100; mkPair 9 200; mkPair 13 300;
     empty_pair; empty_pair; empty_pair; empty_pair].

(** [sample_table] after [ht_put] of the new key 17. *)
Definition sample_after_insert : hashtab_s :=
  mkTable 8 4 9 1
    [empty_pair; mkPair 5 100; mkPair 9 200; mkPair 13 300;
     mkPair 17 400; empty_pair; empty_pair; empty_pair].

(** [sample_table] after [ht_put] of 21, which is the key 5. *)
Definition sample_after_update : hashtab_s :=
  mkTable 8 3 6 1
    [empty_pair; mkPair 5 500; mkPair 9 200; mkPair 13 300;
     empty_pair; empty_pair; empty_pair; empty_pair].

(** [sample_two] after [ht_put] of the sentinel NULL as key. *)
Definition sample_null_key : hashtab_s :=
  mkTable 4 3 1 0 [mkPair NULL 7; mkPair 5 100; mkPair 9 200; empty_pair].

(** [sample_null_key] after a second [ht_put] of NULL, which grows it. *)
Definition sample_null_twice : hashtab_s :=
  mkTable 8 4 2 1
    [mkPair NULL 8; mkPair 5 100; mkPair 9 200; empty_pair;
     empty_pair; empty_pair; empty_pair; empty_pair].

(** [sample_empty] after [ht_put] of the key 5 with the value NULL. *)
Definition sample_null_value : hashtab_s :=
  mkTable 4 1 0 0 [empty_pair; mkPair 5 NULL; empty_pair; empty_pair].

Section HashADT.

(** The client callbacks stored in the table by [ht_create]. *)
Variable hash_fcn : ptr -> Z.
Variable equals_fcn : ptr -> ptr -> bool.

(** The macro [INITIAL_CAPACITY] of the absent header [HashADT.h]. *)
Variable INITIAL_CAPACITY : Z.

(** [t->hash_fcn(key)], a [size_t]. *)
Definition hash_of (k : ptr) : Z := size_wrap (hash_fcn k).

(** *** ht_create *)

(** The callbacks are functions here, so the three [assert]s on them hold;
    [calloc] is [calloc_pairs], whose failure trips the last [assert]. *)
Definition ht_create : result hashtab_s :=
  match calloc_pairs INITIAL_CAPACITY with
  | Ok T => Ok (mkTable INITIAL_CAPACITY 0 0 0 T)
  | Err _ => Err AssertionFailed
  end.

(** *** ht_destroy *)

(** The calls [delete_fcn(pair.key, pair.value)] made by [ht_destroy] when a
    destructor was supplied, in order. *)
Fixpoint destroy_loop (t : hashtab_s) (i : Z) (n : nat)
  : result (list (ptr * ptr)) :=
  match n with
  | O => Ok []
  | S n' =>
      pair <- slot_read (table t) i ;;
      rest <- destroy_loop t (i + 1) n' ;;
      Ok (if is_null (key pair) then rest else (key pair, value pair) :: rest)
  end.

Definition ht_destroy (t : hashtab_s) : result (list (ptr * ptr)) :=
  destroy_loop t 0 (Z.to_nat (capacity t)).

(** *** ht_dump *)

(** The slot listing of [ht_dump]: one line per slot, from index [i]. *)
Fixpoint dump_loop (t : hashtab_s) (i : Z) (n : nat) : result (list output) :=
  match n with
  | O => Ok []
  | S n' =>
      pair <- slot_read (table t) i ;;
      rest <- dump_loop t (i + 1) n' ;;
      Ok ((if is_null (key pair)
           then [Out_zu i; Out_text ": null"; Out_text newline]
           else [Out_zu i; Out_text ": ("; Out_print (key pair) (value pair);
                 Out_text ")"; Out_text newline])
          ++ rest)
  end.

(** The four counters, one per line. *)
Definition dump_header (t : hashtab_s) : list output :=
  [Out_text "Size: "; Out_zu (occupancy t); Out_text newline;
   Out_text "Capacity: "; Out_zu (capacity t); Out_text newline;
   Out_text "Collisions: "; Out_d (collisions t); Out_text newline;
   Out_text "Rehashes: "; Out_d (rehashes t); Out_text newline].

Definition ht_dump (t : hashtab_s) (contents : bool) : result (list output) :=
  if contents then
    body <- dump_loop t 0 (Z.to_nat (capacity t)) ;;
    Ok (dump_header t ++ body)
  else Ok (dump_header t).

(** The keys handed to [delete_fcn], in order. *)
Definition ht_destroy_keys (t : hashtab_s) : result (list ptr) :=
  calls <- ht_destroy t ;;
  Ok (map fst calls).

(** *** ht_has *)

(** The [do ... while (index != orig_index)] loop; one unit of fuel per
    execution of the body. *)
Fixpoint ht_has_loop (fuel : nat) (t : hashtab_s) (k : ptr)
    (orig_index hash_value index : Z) : result (bool * hashtab_s) :=
  match fuel with
  | O => Err OutOfFuel
  | S fuel' =>
      pair <- slot_read (table t) index ;;
      if is_null (key pair) then Ok (false, t)
      else if equals_fcn k (key pair) then Ok (true, t)
      else
        let hash_value := size_wrap (hash_value + 1) in
        index <- size_mod hash_value (capacity t) ;;
        let t := set_collisions t (int_incr (collisions t)) in
        if index =? orig_index then Ok (false, t)
        else ht_has_loop fuel' t k orig_index hash_value index
  end.

Definition ht_has (fuel : nat) (t : hashtab_s) (k : ptr)
  : result (bool * hashtab_s) :=
  let hash_value := hash_of k in
  orig_index <- size_mod hash_value (capacity t) ;;
  ht_has_loop fuel t k orig_index hash_value orig_index.

(** *** ht_get *)

(** The [while (!equals_fcn(key, pair.key))] loop; one unit of fuel per
    evaluation of the condition. *)
Fixpoint ht_get_loop (fuel : nat) (t : hashtab_s) (k : ptr)
    (hashcode : Z) (pair : KeyValuePair) : result ptr :=
  match fuel with
  | O => Err OutOfFuel
  | S fuel' =>
      if equals_fcn k (key pair) then Ok (value pair)
      else
        let hashcode := size_wrap (hashcode + 1) in
        index <- size_mod hashcode (capacity t) ;;
        pair <- slot_read (table t) index ;;
        ht_get_loop fuel' t k hashcode pair
  end.

(** [assert(ht_has(t, key))] is evaluated (the build does not define
    [NDEBUG]), so the table that [ht_has] leaves behind is the table after
    the call. *)
Definition ht_get (fuel : nat) (t : hashtab_s) (k : ptr)
  : result (ptr * hashtab_s) :=
  '(present, t) <- ht_has fuel t k ;;
  if negb present then Err AssertionFailed
  else
    let hashcode := hash_of k in
    index <- size_mod hashcode (capacity t) ;;
    pair <- slot_read (table t) index ;;
    v <- ht_get_loop fuel t k hashcode pair ;;
    Ok (v, t).

(** *** ht_put: the growth block *)

(** The inner [do ... while (new_table[index].key != NULL)] loop. *)
Fixpoint rehash_probe (fuel : nat) (t : hashtab_s)
    (new_table : list KeyValuePair) (hash : Z) : result (Z * hashtab_s) :=
  match fuel with
  | O => Err OutOfFuel
  | S fuel' =>
      let hash := size_wrap (hash + 1) in
      index <- size_mod hash (capacity t) ;;
      let t := set_collisions t (int_incr (collisions t)) in
      s <- slot_read new_table index ;;
      if negb (is_null (key s)) then rehash_probe fuel' t new_table hash
      else Ok (index, t)
  end.

(** The body of [for (i = 0; i < old_capacity; i++)]. *)
Definition rehash_slot (fuel : nat) (old_table : list KeyValuePair)
    (st : hashtab_s * list KeyValuePair) (i : Z)
  : result (hashtab_s * list KeyValuePair) :=
  let '(t, new_table) := st in
  pair <- slot_read old_table i ;;
  if is_null (key pair) then Ok (t, new_table)
  else
    let hash := hash_of (key pair) in
    index <- size_mod hash (capacity t) ;;
    s <- slot_read new_table index ;;
    if negb (is_null (key s)) then
      '(index, t) <- rehash_probe fuel t new_table hash ;;
      new_table <- slot_write new_table index pair ;;
      Ok (t, new_table)
    else
      new_table <- slot_write new_table index pair ;;
      Ok (t, new_table).

(** The [for] loop from index [i], with [n] iterations left. *)
Fixpoint rehash_loop (fuel : nat) (old_table : list KeyValuePair)
    (st : hashtab_s * list KeyValuePair) (i : Z) (n : nat)
  : result (hashtab_s * list KeyValuePair) :=
  match n with
  | O => Ok st
  | S n' =>
      st <- rehash_slot fuel old_table st i ;;
      rehash_loop fuel old_table st (i + 1) n'
  end.

(** The block guarded by [current_threshold >= LOAD_THRESHOLD]. *)
Definition ht_rehash (fuel : nat) (t : hashtab_s) : result hashtab_s :=
  new_table <- calloc_pairs (size_wrap (capacity t * RESIZE_FACTOR)) ;;
  let old_table := table t in
  let old_capacity := capacity t in
  let t := set_capacity t (size_wrap (old_capacity * RESIZE_FACTOR)) in
  '(t, new_table) <-
     rehash_loop fuel old_table (t, new_table) 0 (Z.to_nat old_capacity) ;;
  let t := set_table t new_table in
  Ok (set_rehashes t (int_incr (rehashes t))).

(** *** ht_put: the placement *)

(** The [do ... while (t->table[new_index].key != NULL)] loop. *)
Fixpoint put_loop (fuel : nat) (t : hashtab_s) (k v : ptr)
    (new_hash new_index : Z) : result (ptr * hashtab_s) :=
  match fuel with
  | O => Err OutOfFuel
  | S fuel' =>
      collision_pair <- slot_read (table t) new_index ;;
      if equals_fcn k (key collision_pair) then
        T <- slot_write (table t) new_index (mkPair (key collision_pair) v) ;;
        Ok (value collision_pair, set_table t T)
      else
        let t := set_collisions t (int_incr (collisions t)) in
        let new_hash := size_wrap (new_hash + 1) in
        new_index <- size_mod new_hash (capacity t) ;;
        s <- slot_read (table t) new_index ;;
        if negb (is_null (key s)) then put_loop fuel' t k v new_hash new_index
        else
          T <- slot_write (table t) new_index (mkPair k v) ;;
          Ok (NULL, set_occupancy (set_table t T) (size_wrap (occupancy t + 1)))
  end.

(** Everything after the growth block. *)
Definition ht_place (fuel : nat) (t : hashtab_s) (k v : ptr)
  : result (ptr * hashtab_s) :=
  let new_hash := hash_of k in
  new_index <- size_mod new_hash (capacity t) ;;
  s <- slot_read (table t) new_index ;;
  if is_null (key s) then
    T <- slot_write (table t) new_index (mkPair k v) ;;
    Ok (NULL, set_occupancy (set_table t T) (size_wrap (occupancy t + 1)))
  else put_loop fuel t k v new_hash new_index.

Definition ht_grow (fuel : nat) (t : hashtab_s) : result hashtab_s :=
  if load_exceeded t then ht_rehash fuel t else Ok t.

Definition ht_put (fuel : nat) (t : hashtab_s) (k v : ptr)
  : result (ptr * hashtab_s) :=
  t <- ht_grow fuel t ;;
  ht_place fuel t k v.

(** *** ht_keys and ht_values *)

(** The copy loop of [ht_keys]: [keys] is the array, [key_index] the next
    free cell. *)
Fixpoint keys_loop (t : hashtab_s) (keys : list (option ptr))
    (key_index i : Z) (n : nat) : result (list (option ptr)) :=
  match n with
  | O => Ok keys
  | S n' =>
      pair <- slot_read (table t) i ;;
      if negb (is_null (key pair)) then
        keys <- cell_write keys key_index (key pair) ;;
        keys_loop t keys (size_wrap (key_index + 1)) (i + 1) n'
      else keys_loop t keys key_index (i + 1) n'
  end.

Definition ht_keys (t : hashtab_s) : result (list (option ptr)) :=
  keys_loop t (malloc_ptrs (occupancy t)) 0 0 (Z.to_nat (capacity t)).

(** The copy loop of [ht_values]; the test is on [pair.value]. *)
Fixpoint values_loop (t : hashtab_s) (values : list (option ptr))
    (value_index i : Z) (n : nat) : result (list (option ptr)) :=
  match n with
  | O => Ok values
  | S n' =>
      pair <- slot_read (table t) i ;;
      if negb (is_null (value pair)) then
        values <- cell_write values value_index (value pair) ;;
        values_loop t values (size_wrap (value_index + 1)) (i + 1) n'
      else values_loop t values value_index (i + 1) n'
  end.

Definition ht_values (t : hashtab_s) : result (list (option ptr)) :=
  values_loop t (malloc_ptrs (occupancy t)) 0 0 (Z.to_nat (capacity t)).

(** ** Specification vocabulary *)

(** The capacities that doubling produces from a power of two.  [hash++]
    wraps at [2^64]; for a capacity that divides [2^64] the slot visited
    after [j] increments is [(h + j) mod capacity] across the wrap too. *)
Definition is_pow2 (n : Z) : Prop := exists e, 0 <= e /\ n = 2 ^ e.

(** A slot array of [n] slots that [calloc] could have returned. *)
Definition wf_slots (n : Z) (T : list KeyValuePair) : Prop :=
  is_pow2 n /\ n * sizeof_KeyValuePair <= SIZE_MAX /\ Z.of_nat (length T) = n.

Definition WF (t : hashtab_s) : Prop := wf_slots (capacity t) (table t).

(** The first [d] slots of the probe sequence of [h] are occupied. *)
Definition run_occupied (T : list KeyValuePair) (n h d : Z) : Prop :=
  forall j, 0 <= j < d -> occupied (slot T (probe n h j)).

(** None of the first [d] slots of the probe sequence of [h] matches [k]. *)
Definition run_nomatch (T : list KeyValuePair) (n : Z) (k : ptr) (h d : Z)
  : Prop :=
  forall j, 0 <= j < d -> equals_fcn k (key (slot T (probe n h j))) = false.

(** The probe for [k] meets [d] occupied non-matching slots, then an
    occupied slot whose key matches. *)
Definition found_at (T : list KeyValuePair) (n : Z) (k : ptr) (h d : Z)
  : Prop :=
  0 <= d < n /\ run_occupied T n h (d + 1) /\ run_nomatch T n k h d /\
  equals_fcn k (key (slot T (probe n h d))) = true.

(** The probe for [k] meets [d] occupied non-matching slots, then an empty
    slot. *)
Definition vacant_at (T : list KeyValuePair) (n : Z) (k : ptr) (h d : Z)
  : Prop :=
  0 <= d < n /\ run_occupied T n h d /\ run_nomatch T n k h d /\
  ~ occupied (slot T (probe n h d)).

(** The probe for [k] meets [n] occupied non-matching slots: a full cycle. *)
Definition full_cycle (T : list KeyValuePair) (n : Z) (k : ptr) (h : Z)
  : Prop :=
  run_occupied T n h n /\ run_nomatch T n k h n.

(** The first empty slot of the probe sequence of [h] is the [d]-th. *)
Definition first_vacant (T : list KeyValuePair) (n h d : Z) : Prop :=
  0 <= d < n /\ run_occupied T n h d /\ ~ occupied (slot T (probe n h d)).

(** How far the key in slot [i] sits from its ideal slot. *)
Definition displacement (T : list KeyValuePair) (n i : Z) : Z :=
  (i - hash_of (key (slot T i))) mod n.

(** No hole between an occupied slot's ideal index and its index. *)
Definition probe_ok (n : Z) (T : list KeyValuePair) : Prop :=
  forall i, 0 <= i < n -> occupied (slot T i) ->
    run_occupied T n (hash_of (key (slot T i))) (displacement T n i).

(** No two occupied slots hold keys that the client calls equal. *)
Definition distinct_keys (n : Z) (T : list KeyValuePair) : Prop :=
  forall i j, 0 <= i < n -> 0 <= j < n ->
    occupied (slot T i) -> occupied (slot T j) ->
    equals_fcn (key (slot T i)) (key (slot T j)) = true -> i = j.

(** The invariant of a table built by [ht_create] and [ht_put]. *)
Definition Inv (t : hashtab_s) : Prop :=
  WF t /\
  occupancy t = count_occupied (table t) /\
  distinct_keys (capacity t) (table t) /\
  probe_ok (capacity t) (table t).

(** The doubled array can be requested from [calloc]. *)
Definition mem_available (t : hashtab_s) : Prop :=
  capacity t * RESIZE_FACTOR * sizeof_KeyValuePair <= SIZE_MAX.

(** Fuel that covers one probe cycle of the table grown once. *)
Definition enough_fuel (fuel : nat) (t : hashtab_s) : Prop :=
  (Z.to_nat (capacity t * RESIZE_FACTOR) <= fuel)%nat.

(** The key pointers stored in occupied slots, in slot order. *)
Definition stored_keys (T : list KeyValuePair) : list ptr :=
  map key (filter occupiedb T).

(** Tables reachable from [ht_create] by the operations of the interface,
    with keys other than the sentinel. *)
Inductive reachable : hashtab_s -> Prop :=
| reach_create : forall t, ht_create = Ok t -> reachable t
| reach_put : forall fuel t k v r t',
    reachable t -> k <> NULL -> ht_put fuel t k v = Ok (r, t') ->
    reachable t'
| reach_has : forall fuel t k b t',
    reachable t -> ht_has fuel t k = Ok (b, t') -> reachable t'
| reach_get : forall fuel t k v t',
    reachable t -> ht_get fuel t k = Ok (v, t') -> reachable t'.

(** The new array [N] of [n'] slots after the growth block has re-inserted
    the slots of [old] below index [i]. *)
Definition rehashed (old : list KeyValuePair) (i n' : Z)
    (N : list KeyValuePair) : Prop :=
  wf_slots n' N /\ probe_ok n' N /\
  count_occupied N + count_occupied (skipn (Z.to_nat i) old)
    = count_occupied old /\
  (forall a, 0 <= a < n' -> occupied (slot N a) ->
     exists j, 0 <= j < i /\ slot N a = slot old j) /\
  (forall j, 0 <= j < i -> occupied (slot old j) ->
     exists a, 0 <= a < n' /\ slot N a = slot old j) /\
  (distinct_keys (Z.of_nat (length old)) old -> distinct_keys n' N).

(** The hash value after [d] executions of [hash++]. *)
Definition hash_step (d : nat) (hv : Z) : Z :=
  Nat.iter d (fun x => size_wrap (x + 1)) hv.

(** ** The client contract *)

Definition equals_reflexive : Prop := forall a, equals_fcn a a = true.
Definition equals_symmetric : Prop :=
  forall a b, equals_fcn a b = true -> equals_fcn b a = true.
Definition equals_transitive : Prop :=
  forall a b c, equals_fcn a b = true -> equals_fcn b c = true ->
    equals_fcn a c = true.
Definition hash_respects_equals : Prop :=
  forall a b, equals_fcn a b = true -> hash_fcn a = hash_fcn b.

Definition client_contract : Prop :=
  equals_reflexive /\ equals_symmetric /\ equals_transitive /\
  hash_respects_equals.

(** ** Basic facts *)

Set Default Proof Using "Type".

(** Case analysis along the binds and tests of a run that returned. *)
Ltac crunch H :=
  repeat (cbn [bind] in H |- *;
    match type of H with
    | bind ?c _ = Ok _ =>
        destruct c eqn:?; cbn [bind] in H |- *; [|discriminate H]
    | (if ?b then _ else _) = Ok _ => destruct b eqn:?
    | match ?p with pair _ _ => _ end = Ok _ => destruct p
    end).

Lemma bind_Ok {A B : Type} (r : result A) (k : A -> result B) (b : B) :
  bind r k = Ok b -> exists a, r = Ok a /\ k a = Ok b.
Proof.
  destruct r as [a|f]; simpl; intros H.
  - exists a. split; [reflexivity | exact H].
  - discriminate.
Qed.

Lemma is_null_false (p : ptr) : is_null p = false <-> p <> NULL.
Proof. unfold is_null. apply Z.eqb_neq. Qed.

Lemma is_null_true (p : ptr) : is_null p = true <-> p = NULL.
Proof. unfold is_null. apply Z.eqb_eq. Qed.

Lemma occupiedb_true (p : KeyValuePair) : occupiedb p = true <-> occupied p.
Proof.
  unfold occupiedb, occupied. rewrite negb_true_iff. apply is_null_false.
Qed.

Lemma occupiedb_false (p : KeyValuePair) : occupiedb p = false <-> ~ occupied p.
Proof.
  rewrite <- occupiedb_true. destruct (occupiedb p); split; intros H;
    try reflexivity; try discriminate.
  exfalso. apply H. reflexivity.
Qed.

Lemma occupied_dec (p : KeyValuePair) : {occupied p} + {~ occupied p}.
Proof.
  destruct (occupiedb p) eqn:E.
  - left. apply occupiedb_true. exact E.
  - right. apply occupiedb_false. exact E.
Qed.

(** *** Arrays *)

Lemma length_upd {A : Type} (T : list A) (i : nat) (p : A) :
  length (upd T i p) = length T.
Proof.
  revert i. induction T as [|x T IH]; intros [|i]; simpl; auto.
Qed.

Lemma nth_upd_same {A : Type} (T : list A) (i : nat) (p d : A) :
  (i < length T)%nat -> nth i (upd T i p) d = p.
Proof.
  revert i. induction T as [|x T IH]; intros [|i] H; simpl in *; try lia; auto.
  apply IH. lia.
Qed.

Lemma nth_upd_other {A : Type} (T : list A) (i j : nat) (p d : A) :
  i <> j -> nth j (upd T i p) d = nth j T d.
Proof.
  revert i j. induction T as [|x T IH]; intros [|i] [|j] H; simpl; auto;
    try contradiction.
Qed.

Lemma in_bounds_true {A : Type} (T : list A) (i : Z) :
  in_bounds T i = true <-> 0 <= i < Z.of_nat (length T).
Proof.
  unfold in_bounds. rewrite andb_true_iff, Z.leb_le, Z.ltb_lt. reflexivity.
Qed.

Lemma slot_read_ok (T : list KeyValuePair) (i : Z) :
  0 <= i < Z.of_nat (length T) -> slot_read T i = Ok (slot T i).
Proof.
  intros H. unfold slot_read. apply in_bounds_true in H. rewrite H. reflexivity.
Qed.

Lemma slot_read_Ok_inv (T : list KeyValuePair) (i : Z) (p : KeyValuePair) :
  slot_read T i = Ok p -> 0 <= i < Z.of_nat (length T) /\ p = slot T i.
Proof.
  unfold slot_read. destruct (in_bounds T i) eqn:E; intros H; [|discriminate].
  apply in_bounds_true in E. inversion H. auto.
Qed.

Lemma slot_write_ok (T : list KeyValuePair) (i : Z) (p : KeyValuePair) :
  0 <= i < Z.of_nat (length T) ->
  slot_write T i p = Ok (upd T (Z.to_nat i) p).
Proof.
  intros H. unfold slot_write. apply in_bounds_true in H. rewrite H. reflexivity.
Qed.

Lemma slot_upd_same (T : list KeyValuePair) (i : Z) (p : KeyValuePair) :
  0 <= i < Z.of_nat (length T) -> slot (upd T (Z.to_nat i) p) i = p.
Proof.
  intros H. unfold slot. apply nth_upd_same. lia.
Qed.

Lemma slot_upd_other (T : list KeyValuePair) (i j : Z) (p : KeyValuePair) :
  0 <= i -> 0 <= j -> i <> j -> slot (upd T (Z.to_nat i) p) j = slot T j.
Proof.
  intros Hi Hj H. unfold slot. apply nth_upd_other. lia.
Qed.

Lemma size_mod_ok (a b : Z) : 0 < b -> size_mod a b = Ok (a mod b).
Proof.
  intros H. unfold size_mod. destruct (Z.eqb_spec b 0); [lia | reflexivity].
Qed.

Lemma slot_repeat_empty (n : nat) (i : Z) : slot (repeat empty_pair n) i = empty_pair.
Proof.
  unfold slot. generalize (Z.to_nat i) as m.
  induction n as [|n IH]; intros [|m]; simpl; auto.
Qed.

(** *** Counting occupied slots *)

Lemma count_occupied_cons (p : KeyValuePair) (T : list KeyValuePair) :
  count_occupied (p :: T) =
  (if occupiedb p then 1 else 0) + count_occupied T.
Proof.
  unfold count_occupied. cbn [filter].
  destruct (occupiedb p); cbn [length]; lia.
Qed.

Lemma count_occupied_bounds (T : list KeyValuePair) :
  0 <= count_occupied T <= Z.of_nat (length T).
Proof.
  induction T as [|p T IH].
  - unfold count_occupied. simpl. lia.
  - rewrite count_occupied_cons. simpl length. destruct (occupiedb p); lia.
Qed.

Lemma count_occupied_repeat_empty (n : nat) :
  count_occupied (repeat empty_pair n) = 0.
Proof.
  induction n as [|n IH]; [reflexivity|].
  simpl repeat. rewrite count_occupied_cons. simpl. exact IH.
Qed.

Lemma count_occupied_upd (T : list KeyValuePair) (i : nat) (p : KeyValuePair) :
  (i < length T)%nat ->
  count_occupied (upd T i p) =
  count_occupied T - (if occupiedb (nth i T empty_pair) then 1 else 0)
                   + (if occupiedb p then 1 else 0).
Proof.
  revert i. induction T as [|x T IH]; intros [|i] H; simpl in H; try lia.
  - simpl upd. rewrite !count_occupied_cons. simpl nth. lia.
  - simpl upd. rewrite !count_occupied_cons. simpl nth.
    rewrite IH by lia. lia.
Qed.

Lemma count_occupied_skipn (T : list KeyValuePair) (i : nat) :
  (i < length T)%nat ->
  count_occupied (skipn i T) =
  (if occupiedb (nth i T empty_pair) then 1 else 0)
  + count_occupied (skipn (S i) T).
Proof.
  revert i. induction T as [|x T IH]; intros [|i] H; simpl in H; try lia.
  - simpl. rewrite count_occupied_cons. reflexivity.
  - change (skipn (S i) (x :: T)) with (skipn i T).
    change (skipn (S (S i)) (x :: T)) with (skipn (S i) T).
    simpl nth. apply IH. lia.
Qed.

Lemma exists_vacant (T : list KeyValuePair) :
  count_occupied T < Z.of_nat (length T) ->
  exists i, 0 <= i < Z.of_nat (length T) /\ ~ occupied (slot T i).
Proof.
  induction T as [|p T IH]; intros H.
  - unfold count_occupied in H. simpl in H. lia.
  - rewrite count_occupied_cons in H. simpl length in H.
    destruct (occupiedb p) eqn:E.
    + destruct IH as [i [Hi Hv]]; [lia|].
      exists (i + 1). split; [simpl length; lia|].
      unfold slot in *. replace (Z.to_nat (i + 1)) with (S (Z.to_nat i)) by lia.
      exact Hv.
    + exists 0. split; [simpl length; lia|].
      apply occupiedb_false. exact E.
Qed.

(** *** Arithmetic of the probe sequence *)

Lemma is_pow2_pos (n : Z) : is_pow2 n -> 0 < n.
Proof.
  intros [e [He ->]]. apply Z.pow_pos_nonneg; lia.
Qed.

Lemma is_pow2_divides (n : Z) :
  is_pow2 n -> n <= SIZE_MODULUS -> (n | SIZE_MODULUS).
Proof.
  intros [e [He ->]] Hle. unfold SIZE_MODULUS in *.
  apply Z.pow_le_mono_r_iff in Hle; try lia.
  exists (2 ^ (64 - e)). rewrite <- Z.pow_add_r by lia. f_equal. lia.
Qed.

Lemma is_pow2_double (n : Z) : is_pow2 n -> is_pow2 (n * 2).
Proof.
  intros [e [He ->]]. exists (e + 1). split; [lia|].
  rewrite Z.pow_add_r by lia. reflexivity.
Qed.

Lemma SIZE_MODULUS_pos : 0 < SIZE_MODULUS.
Proof. reflexivity. Qed.

Lemma wf_slots_pos (n : Z) (T : list KeyValuePair) : wf_slots n T -> 0 < n.
Proof. intros [H _]. apply is_pow2_pos. exact H. Qed.

Lemma wf_slots_length (n : Z) (T : list KeyValuePair) :
  wf_slots n T -> Z.of_nat (length T) = n.
Proof. intros [_ [_ H]]. exact H. Qed.

Lemma wf_slots_divides (n : Z) (T : list KeyValuePair) :
  wf_slots n T -> (n | SIZE_MODULUS).
Proof.
  intros [H [Hm _]]. apply is_pow2_divides; [exact H|].
  unfold SIZE_MAX, sizeof_KeyValuePair in Hm. apply is_pow2_pos in H. lia.
Qed.

Lemma size_wrap_mod (n a : Z) :
  0 < n -> (n | SIZE_MODULUS) -> size_wrap a mod n = a mod n.
Proof.
  intros Hn Hd. unfold size_wrap. apply Z.mod_mod_divide. exact Hd.
Qed.

Lemma probe_range (n h j : Z) : 0 < n -> 0 <= probe n h j < n.
Proof. intros H. unfold probe. apply Z.mod_pos_bound. exact H. Qed.

Lemma probe_zero (n h : Z) : probe n h 0 = h mod n.
Proof. unfold probe. rewrite Z.add_0_r. reflexivity. Qed.

Lemma probe_cycle (n h : Z) : 0 < n -> probe n h n = probe n h 0.
Proof.
  intros H. unfold probe. rewrite Z.add_0_r.
  rewrite <- (Z.mul_1_l n) at 1. rewrite Z.mod_add by lia. reflexivity.
Qed.

(** Incrementing the hash with wrap-around advances the probe by one. *)
Lemma probe_next (n hv h j : Z) :
  0 < n -> (n | SIZE_MODULUS) ->
  hv mod n = probe n h j ->
  size_wrap (hv + 1) mod n = probe n h (j + 1).
Proof.
  intros Hn Hd E. rewrite size_wrap_mod by assumption.
  unfold probe in *. rewrite Z.add_assoc.
  rewrite (Z.add_mod hv 1), (Z.add_mod (h + j) 1) by lia.
  rewrite E. reflexivity.
Qed.

Lemma probe_inj (n h i j : Z) :
  0 < n -> 0 <= i < n -> 0 <= j < n -> probe n h i = probe n h j -> i = j.
Proof.
  intros Hn Hi Hj E. unfold probe in E.
  assert (D : (i - j) mod n = 0).
  { replace (i - j) with ((h + i) - (h + j)) by lia.
    rewrite Zminus_mod, E, Z.sub_diag. apply Z.mod_0_l. lia. }
  apply Z.mod_divide in D; [|lia]. destruct D as [q Hq].
  assert (q = 0) by nia. lia.
Qed.

Lemma probe_displacement (n h d : Z) :
  0 < n -> 0 <= d < n -> (probe n h d - h) mod n = d.
Proof.
  intros Hn Hd. unfold probe.
  rewrite Zminus_mod, Z.mod_mod by lia. rewrite <- Zminus_mod.
  replace (h + d - h) with d by lia. apply Z.mod_small. exact Hd.
Qed.

Lemma probe_reaches (n h i : Z) :
  0 < n -> 0 <= i < n -> probe n h ((i - h) mod n) = i.
Proof.
  intros Hn Hi. unfold probe.
  rewrite Zplus_mod, Z.mod_mod by lia. rewrite <- Zplus_mod.
  replace (h + (i - h)) with i by lia. apply Z.mod_small. exact Hi.
Qed.

Lemma probe_hash_mod (n h j : Z) :
  0 < n -> probe n (h mod n) j = probe n h j.
Proof.
  intros Hn. unfold probe. rewrite Zplus_mod_idemp_l. reflexivity.
Qed.

(** *** The collision counter *)

Lemma int_incr_n_succ (d : nat) (c : Z) :
  int_incr_n d (int_incr c) = int_incr_n (S d) c.
Proof. unfold int_incr_n. symmetry. apply Nat.iter_succ_r. Qed.

Lemma int_incr_exact (c : Z) : INT_MIN <= c < INT_MAX -> int_incr c = c + 1.
Proof.
  unfold INT_MIN, INT_MAX, int_incr, int_wrap. intros H.
  rewrite Z.mod_small by lia. lia.
Qed.

Lemma int_incr_n_exact (d : nat) (c : Z) :
  INT_MIN <= c -> c + Z.of_nat d <= INT_MAX ->
  int_incr_n d c = c + Z.of_nat d.
Proof.
  revert c. induction d as [|d IH]; intros c Hlo Hhi.
  - simpl. lia.
  - rewrite <- int_incr_n_succ. rewrite int_incr_exact by lia.
    rewrite IH by lia. lia.
Qed.

(** *** Record bookkeeping *)

Lemma set_collisions_same (t : hashtab_s) : set_collisions t (collisions t) = t.
Proof. destruct t. reflexivity. Qed.

Lemma set_collisions_twice (t : hashtab_s) (a b : Z) :
  set_collisions (set_collisions t a) b = set_collisions t b.
Proof. reflexivity. Qed.

Lemma hash_step_succ (d : nat) (hv : Z) :
  hash_step d (size_wrap (hv + 1)) = hash_step (S d) hv.
Proof.
  unfold hash_step. symmetry.
  exact (Nat.iter_succ_r d Z (fun x => size_wrap (x + 1)) hv).
Qed.

(** *** Searching along a probe sequence *)

Lemma least_failure (P : Z -> Prop) :
  (forall j, P j \/ ~ P j) ->
  forall m, 0 <= m ->
    (forall j, 0 <= j < m -> P j) \/
    (exists d, 0 <= d < m /\ (forall j, 0 <= j < d -> P j) /\ ~ P d).
Proof.
  intros Hdec m Hm. pattern m. apply natlike_ind; [| |exact Hm].
  - left. intros j Hj. lia.
  - intros x Hx [Hall | [d [Hd [Hlt Hnot]]]].
    + destruct (Hdec x) as [Hp | Hn].
      * left. intros j Hj. destruct (Z.eq_dec j x) as [->|Hne]; [exact Hp|].
        apply Hall. lia.
      * right. exists x. split; [lia|]. split; [exact Hall | exact Hn].
    + right. exists d. split; [lia|]. split; assumption.
Qed.

Lemma run_occupied_snoc (T : list KeyValuePair) (n h d : Z) :
  run_occupied T n h d -> occupied (slot T (probe n h d)) ->
  run_occupied T n h (d + 1).
Proof.
  intros Hrun Hd j Hj. destruct (Z.eq_dec j d) as [->|Hne]; [exact Hd|].
  apply Hrun. lia.
Qed.

Lemma run_occupied_shorter (T : list KeyValuePair) (n h d d' : Z) :
  run_occupied T n h d -> d' <= d -> run_occupied T n h d'.
Proof. intros Hrun Hle j Hj. apply Hrun. lia. Qed.

Lemma run_nomatch_shorter (T : list KeyValuePair) (n : Z) (k : ptr) (h d d' : Z) :
  run_nomatch T n k h d -> d' <= d -> run_nomatch T n k h d'.
Proof. intros Hrun Hle j Hj. apply Hrun. lia. Qed.

(** Every probe ends in exactly one of three ways. *)
Lemma probe_outcome (T : list KeyValuePair) (n : Z) (k : ptr) (h : Z) :
  0 < n ->
  (exists d, found_at T n k h d) \/ (exists d, vacant_at T n k h d) \/
  full_cycle T n k h.
Proof.
  intros Hn.
  destruct (least_failure
              (fun j => occupied (slot T (probe n h j)) /\
                        equals_fcn k (key (slot T (probe n h j))) = false))
    with (m := n) as [Hall | [d [Hd [Hlt Hnot]]]].
  - intros j. destruct (occupied_dec (slot T (probe n h j))) as [Ho|Ho];
      [|right; intros [Ho' _]; exact (Ho Ho')].
    destruct (equals_fcn k (key (slot T (probe n h j)))).
    + right. intros [_ E]. discriminate E.
    + left. split; [exact Ho | reflexivity].
  - lia.
  - right. right. split; intros j Hj; apply Hall; exact Hj.
  - assert (Hocc : run_occupied T n h d) by (intros j Hj; apply Hlt; exact Hj).
    assert (Hnom : run_nomatch T n k h d) by (intros j Hj; apply Hlt; exact Hj).
    destruct (occupied_dec (slot T (probe n h d))) as [Ho|Ho].
    + left. exists d. split; [exact Hd|]. split; [|split; [exact Hnom|]].
      * apply run_occupied_snoc; assumption.
      * destruct (equals_fcn k (key (slot T (probe n h d)))); [reflexivity|].
        exfalso. apply Hnot. split; [exact Ho | reflexivity].
    + right. left. exists d. repeat split; try assumption; lia.
Qed.

(** A table with an empty slot has one on every probe sequence. *)
Lemma first_vacant_exists (T : list KeyValuePair) (n h : Z) :
  0 < n -> Z.of_nat (length T) = n -> count_occupied T < n ->
  exists d, first_vacant T n h d.
Proof.
  intros Hn Hlen Hc. rewrite <- Hlen in Hc.
  destruct (exists_vacant T Hc) as [e [He Hv]]. rewrite Hlen in He.
  destruct (least_failure (fun j => occupied (slot T (probe n h j))))
    with (m := n) as [Hall | [d [Hd [Hlt Hnot]]]].
  - intros j. destruct (occupied_dec (slot T (probe n h j))) as [Ho|Ho];
      [left | right]; exact Ho.
  - lia.
  - exfalso. apply Hv. rewrite <- (probe_reaches n h e Hn He).
    apply Hall. apply Z.mod_pos_bound. exact Hn.
  - exists d. split; [exact Hd|]. split; [exact Hlt | exact Hnot].
Qed.

(** The three outcomes exclude one another. *)
Lemma found_at_unique (T : list KeyValuePair) (n : Z) (k : ptr) (h d d' : Z) :
  found_at T n k h d -> found_at T n k h d' -> d = d'.
Proof.
  intros [Hd [_ [Hn He]]] [Hd' [_ [Hn' He']]].
  destruct (Z.lt_trichotomy d d') as [Hlt | [Heq | Hgt]]; [|exact Heq|].
  - rewrite (Hn' d) in He by lia. discriminate.
  - rewrite (Hn d') in He' by lia. discriminate.
Qed.

Lemma found_not_vacant (T : list KeyValuePair) (n : Z) (k : ptr) (h d d' : Z) :
  found_at T n k h d -> vacant_at T n k h d' -> False.
Proof.
  intros [Hd [Ho [Hn He]]] [Hd' [Ho' [Hn' Hv]]].
  destruct (Z_lt_le_dec d d') as [Hlt | Hge].
  - rewrite (Hn' d) in He by lia. discriminate.
  - apply Hv. apply Ho. lia.
Qed.

Lemma found_not_full (T : list KeyValuePair) (n : Z) (k : ptr) (h d : Z) :
  found_at T n k h d -> full_cycle T n k h -> False.
Proof.
  intros [Hd [_ [_ He]]] [_ Hn]. rewrite (Hn d) in He by lia. discriminate.
Qed.

(** *** The probe loop of ht_has *)

Lemma WF_pos (t : hashtab_s) : WF t -> 0 < capacity t.
Proof. apply wf_slots_pos. Qed.

Lemma WF_length (t : hashtab_s) :
  WF t -> Z.of_nat (length (table t)) = capacity t.
Proof. apply wf_slots_length. Qed.

Lemma WF_divides (t : hashtab_s) : WF t -> (capacity t | SIZE_MODULUS).
Proof. apply wf_slots_divides. Qed.

Lemma WF_set_collisions (t : hashtab_s) (c : Z) :
  WF t -> WF (set_collisions t c).
Proof. intros H. exact H. Qed.

Lemma hash_step_probe (n h : Z) (d : nat) (hv j : Z) :
  0 < n -> (n | SIZE_MODULUS) -> hv mod n = probe n h j ->
  hash_step d hv mod n = probe n h (j + Z.of_nat d).
Proof.
  intros Hn Hd. revert hv j. induction d as [|d IH]; intros hv j E.
  - simpl. rewrite Z.add_0_r. exact E.
  - rewrite <- hash_step_succ.
    replace (j + Z.of_nat (S d)) with ((j + 1) + Z.of_nat d) by lia.
    apply IH. apply probe_next; assumption.
Qed.

(** One execution of the loop body on a non-matching occupied slot. *)
Lemma ht_has_loop_step (fuel : nat) (t : hashtab_s) (k : ptr)
    (orig hv idx : Z) :
  0 < capacity t -> 0 <= idx < Z.of_nat (length (table t)) ->
  occupied (slot (table t) idx) ->
  equals_fcn k (key (slot (table t) idx)) = false ->
  ht_has_loop (S fuel) t k orig hv idx =
  if size_wrap (hv + 1) mod capacity t =? orig
  then Ok (false, set_collisions t (int_incr (collisions t)))
  else ht_has_loop fuel (set_collisions t (int_incr (collisions t))) k orig
         (size_wrap (hv + 1)) (size_wrap (hv + 1) mod capacity t).
Proof.
  intros Hc Hi Ho He. cbn [ht_has_loop].
  rewrite slot_read_ok by exact Hi. cbn [bind].
  apply is_null_false in Ho. rewrite Ho, He.
  rewrite size_mod_ok by exact Hc. reflexivity.
Qed.

(** [rem] collisions in a row move the loop [rem] slots forward. *)
Lemma ht_has_loop_advance (k : ptr) (h : Z) (rem : nat) :
  forall (fuel : nat) (t : hashtab_s) (j hv : Z),
    WF t -> 0 <= j -> j + Z.of_nat rem < capacity t ->
    hv mod capacity t = probe (capacity t) h j ->
    run_occupied (table t) (capacity t) h (j + Z.of_nat rem) ->
    run_nomatch (table t) (capacity t) k h (j + Z.of_nat rem) ->
    ht_has_loop (rem + fuel) t k (probe (capacity t) h 0) hv
      (probe (capacity t) h j) =
    ht_has_loop fuel (set_collisions t (int_incr_n rem (collisions t))) k
      (probe (capacity t) h 0) (hash_step rem hv)
      (probe (capacity t) h (j + Z.of_nat rem)).
Proof.
  induction rem as [|rem IH]; intros fuel t j hv Hwf Hj Hlt Hhv Hocc Hnom.
  - cbn [Nat.add int_incr_n hash_step Nat.iter].
    rewrite set_collisions_same, Z.add_0_r. reflexivity.
  - pose proof (WF_pos t Hwf) as Hn. pose proof (WF_divides t Hwf) as Hdiv.
    pose proof (WF_length t Hwf) as Hlen.
    cbn [Nat.add]. rewrite ht_has_loop_step; try assumption.
    + rewrite (probe_next _ _ h j Hn Hdiv Hhv).
      destruct (Z.eqb_spec (probe (capacity t) h (j + 1)) (probe (capacity t) h 0))
        as [E|_].
      * apply probe_inj in E; lia.
      * replace (j + Z.of_nat (S rem)) with ((j + 1) + Z.of_nat rem) in * by lia.
        specialize (IH fuel (set_collisions t (int_incr (collisions t))) (j + 1)
                      (size_wrap (hv + 1))).
        unfold set_collisions in *.
        cbn [capacity table collisions occupancy rehashes] in *.
        rewrite IH; try assumption; try lia.
        -- rewrite int_incr_n_succ, hash_step_succ. reflexivity.
        -- apply probe_next; assumption.
    + rewrite Hlen. apply probe_range. exact Hn.
    + apply Hocc. lia.
    + apply Hnom. lia.
Qed.

Lemma ht_has_unfold (fuel : nat) (t : hashtab_s) (k : ptr) :
  0 < capacity t ->
  ht_has fuel t k =
  ht_has_loop fuel t k (probe (capacity t) (hash_of k) 0) (hash_of k)
    (probe (capacity t) (hash_of k) 0).
Proof.
  intros Hn. unfold ht_has. rewrite size_mod_ok by exact Hn. cbn [bind].
  rewrite probe_zero. reflexivity.
Qed.

(** The probe ends on a matching slot after [d] collisions. *)
Lemma ht_has_found (fuel : nat) (t : hashtab_s) (k : ptr) (d : Z) :
  WF t -> found_at (table t) (capacity t) k (hash_of k) d ->
  (Z.to_nat d < fuel)%nat ->
  ht_has fuel t k =
  Ok (true, set_collisions t (int_incr_n (Z.to_nat d) (collisions t))).
Proof.
  intros Hwf [Hd [Hocc [Hnom Heq]]] Hfuel.
  pose proof (WF_pos t Hwf) as Hn. pose proof (WF_length t Hwf) as Hlen.
  rewrite ht_has_unfold by exact Hn.
  replace fuel with (Z.to_nat d + S (fuel - Z.to_nat d - 1))%nat by lia.
  rewrite (ht_has_loop_advance k (hash_of k) (Z.to_nat d)); try assumption;
    try lia.
  - rewrite Z.add_0_l, Z2Nat.id by lia. cbn [ht_has_loop].
    rewrite slot_read_ok
      by (cbn [table set_collisions]; rewrite Hlen; apply probe_range; exact Hn).
    cbn [bind table set_collisions].
    assert (Ho : occupied (slot (table t) (probe (capacity t) (hash_of k) d)))
      by (apply Hocc; lia).
    apply is_null_false in Ho. rewrite Ho, Heq. reflexivity.
  - symmetry. apply probe_zero.
  - rewrite Z.add_0_l, Z2Nat.id by lia.
    apply run_occupied_shorter with (d := d + 1); [exact Hocc | lia].
  - rewrite Z.add_0_l, Z2Nat.id by lia. exact Hnom.
Qed.

(** The probe ends on an empty slot after [d] collisions. *)
Lemma ht_has_vacant (fuel : nat) (t : hashtab_s) (k : ptr) (d : Z) :
  WF t -> vacant_at (table t) (capacity t) k (hash_of k) d ->
  (Z.to_nat d < fuel)%nat ->
  ht_has fuel t k =
  Ok (false, set_collisions t (int_incr_n (Z.to_nat d) (collisions t))).
Proof.
  intros Hwf [Hd [Hocc [Hnom Hv]]] Hfuel.
  pose proof (WF_pos t Hwf) as Hn. pose proof (WF_length t Hwf) as Hlen.
  rewrite ht_has_unfold by exact Hn.
  replace fuel with (Z.to_nat d + S (fuel - Z.to_nat d - 1))%nat by lia.
  rewrite (ht_has_loop_advance k (hash_of k) (Z.to_nat d)); try assumption;
    try lia.
  - rewrite Z.add_0_l, Z2Nat.id by lia. cbn [ht_has_loop].
    rewrite slot_read_ok
      by (cbn [table set_collisions]; rewrite Hlen; apply probe_range; exact Hn).
    cbn [bind table set_collisions].
    apply occupiedb_false in Hv. unfold occupiedb in Hv.
    apply negb_false_iff in Hv. rewrite Hv. reflexivity.
  - symmetry. apply probe_zero.
  - rewrite Z.add_0_l, Z2Nat.id by lia. exact Hocc.
  - rewrite Z.add_0_l, Z2Nat.id by lia. exact Hnom.
Qed.

(** The probe comes back to its start after a collision on every slot. *)
Lemma ht_has_full (fuel : nat) (t : hashtab_s) (k : ptr) :
  WF t -> full_cycle (table t) (capacity t) k (hash_of k) ->
  (Z.to_nat (capacity t) <= fuel)%nat ->
  ht_has fuel t k =
  Ok (false,
      set_collisions t (int_incr_n (Z.to_nat (capacity t)) (collisions t))).
Proof.
  intros Hwf [Hocc Hnom] Hfuel.
  pose proof (WF_pos t Hwf) as Hn. pose proof (WF_length t Hwf) as Hlen.
  pose proof (WF_divides t Hwf) as Hdiv.
  rewrite ht_has_unfold by exact Hn.
  set (n := capacity t) in *. set (m := Z.to_nat (n - 1)).
  replace fuel with (m + S (fuel - m - 1))%nat by lia.
  assert (Hm : Z.of_nat m = n - 1) by lia.
  rewrite (ht_has_loop_advance k (hash_of k) m); fold n; try assumption;
    try lia.
  - rewrite Z.add_0_l, Hm.
    rewrite ht_has_loop_step.
    + cbn [set_collisions capacity collisions]. fold n.
      rewrite (probe_next n _ (hash_of k) (n - 1) Hn Hdiv).
      * replace (n - 1 + 1) with n by lia. rewrite probe_cycle by exact Hn.
        rewrite Z.eqb_refl.
        replace (Z.to_nat n) with (S m) by lia. reflexivity.
      * rewrite <- Hm. rewrite <- (Z.add_0_l (Z.of_nat m)).
        apply hash_step_probe; try assumption. symmetry. apply probe_zero.
    + exact Hn.
    + cbn [table set_collisions]. rewrite Hlen. apply probe_range. exact Hn.
    + cbn [table set_collisions]. apply Hocc. lia.
    + cbn [table set_collisions]. apply Hnom. lia.
  - symmetry. apply probe_zero.
  - rewrite Z.add_0_l, Hm. apply run_occupied_shorter with (d := n); [assumption|lia].
  - rewrite Z.add_0_l, Hm. apply run_nomatch_shorter with (d := n); [assumption|lia].
Qed.

(** *** The probe loop of ht_get *)

Lemma ht_get_loop_step (fuel : nat) (t : hashtab_s) (k : ptr) (hv : Z)
    (pair : KeyValuePair) :
  WF t -> equals_fcn k (key pair) = false ->
  ht_get_loop (S fuel) t k hv pair =
  ht_get_loop fuel t k (size_wrap (hv + 1))
    (slot (table t) (size_wrap (hv + 1) mod capacity t)).
Proof.
  intros Hwf He. pose proof (WF_pos t Hwf) as Hn.
  cbn [ht_get_loop]. rewrite He, size_mod_ok by exact Hn. cbn [bind].
  rewrite slot_read_ok; [reflexivity|].
  rewrite (WF_length t Hwf). apply Z.mod_pos_bound. exact Hn.
Qed.

Lemma ht_get_loop_advance (k : ptr) (h : Z) (rem : nat) :
  forall (fuel : nat) (t : hashtab_s) (j hv : Z),
    WF t -> 0 <= j ->
    hv mod capacity t = probe (capacity t) h j ->
    run_nomatch (table t) (capacity t) k h (j + Z.of_nat rem) ->
    ht_get_loop (rem + fuel) t k hv (slot (table t) (probe (capacity t) h j)) =
    ht_get_loop fuel t k (hash_step rem hv)
      (slot (table t) (probe (capacity t) h (j + Z.of_nat rem))).
Proof.
  induction rem as [|rem IH]; intros fuel t j hv Hwf Hj Hhv Hnom.
  - cbn [Nat.add hash_step Nat.iter]. rewrite Z.add_0_r. reflexivity.
  - pose proof (WF_pos t Hwf) as Hn. pose proof (WF_divides t Hwf) as Hdiv.
    cbn [Nat.add]. rewrite ht_get_loop_step; [|exact Hwf|apply Hnom; lia].
    rewrite (probe_next _ _ h j Hn Hdiv Hhv).
    replace (j + Z.of_nat (S rem)) with ((j + 1) + Z.of_nat rem) in * by lia.
    rewrite IH; try assumption; try lia.
    + rewrite hash_step_succ. reflexivity.
    + apply probe_next; assumption.
Qed.

Lemma ht_get_found (fuel : nat) (t : hashtab_s) (k : ptr) (d : Z) :
  WF t -> found_at (table t) (capacity t) k (hash_of k) d ->
  (Z.to_nat d < fuel)%nat ->
  ht_get fuel t k =
  Ok (value (slot (table t) (probe (capacity t) (hash_of k) d)),
      set_collisions t (int_incr_n (Z.to_nat d) (collisions t))).
Proof.
  intros Hwf Hf Hfuel. pose proof (WF_pos t Hwf) as Hn.
  pose proof (WF_length t Hwf) as Hlen.
  unfold ht_get. rewrite (ht_has_found fuel t k d Hwf Hf Hfuel).
  destruct Hf as [Hd [Hocc [Hnom Heq]]].
  cbn [bind negb]. cbn [capacity table set_collisions].
  rewrite size_mod_ok by exact Hn. cbn [bind].
  rewrite slot_read_ok by (rewrite Hlen; apply Z.mod_pos_bound; exact Hn).
  cbn [bind]. rewrite <- probe_zero.
  replace fuel with (Z.to_nat d + S (fuel - Z.to_nat d - 1))%nat by lia.
  pose proof (ht_get_loop_advance k (hash_of k) (Z.to_nat d)
                (S (fuel - Z.to_nat d - 1))
                (set_collisions t (int_incr_n (Z.to_nat d) (collisions t)))
                0 (hash_of k)) as Hadv.
  cbn [capacity table set_collisions] in Hadv.
  fold (set_collisions t (int_incr_n (Z.to_nat d) (collisions t))) in Hadv.
  rewrite Hadv.
  - rewrite Z.add_0_l, Z2Nat.id by lia. cbn [ht_get_loop]. rewrite Heq.
    reflexivity.
  - exact Hwf.
  - lia.
  - symmetry. apply probe_zero.
  - rewrite Z.add_0_l, Z2Nat.id by lia. exact Hnom.
Qed.

(** *** The placement loop of ht_put *)

Lemma put_loop_step_match (fuel : nat) (t : hashtab_s) (k v : ptr)
    (hv idx : Z) :
  0 <= idx < Z.of_nat (length (table t)) ->
  equals_fcn k (key (slot (table t) idx)) = true ->
  put_loop (S fuel) t k v hv idx =
  Ok (value (slot (table t) idx),
      set_table t (upd (table t) (Z.to_nat idx)
                     (mkPair (key (slot (table t) idx)) v))).
Proof.
  intros Hi He. cbn [put_loop]. rewrite slot_read_ok by exact Hi. cbn [bind].
  rewrite He, slot_write_ok by exact Hi. reflexivity.
Qed.

Lemma put_loop_step_continue (fuel : nat) (t : hashtab_s) (k v : ptr)
    (hv idx : Z) :
  WF t -> 0 <= idx < capacity t ->
  equals_fcn k (key (slot (table t) idx)) = false ->
  occupied (slot (table t) (size_wrap (hv + 1) mod capacity t)) ->
  put_loop (S fuel) t k v hv idx =
  put_loop fuel (set_collisions t (int_incr (collisions t))) k v
    (size_wrap (hv + 1)) (size_wrap (hv + 1) mod capacity t).
Proof.
  intros Hwf Hi He Ho. pose proof (WF_pos t Hwf) as Hn.
  pose proof (WF_length t Hwf) as Hlen.
  cbn [put_loop]. rewrite slot_read_ok by lia. cbn [bind]. rewrite He.
  cbn [capacity table set_collisions].
  rewrite size_mod_ok by exact Hn. cbn [bind].
  rewrite slot_read_ok by (rewrite Hlen; apply Z.mod_pos_bound; exact Hn).
  cbn [bind]. apply is_null_false in Ho. rewrite Ho. reflexivity.
Qed.

Lemma put_loop_step_place (fuel : nat) (t : hashtab_s) (k v : ptr)
    (hv idx : Z) :
  WF t -> 0 <= idx < capacity t ->
  equals_fcn k (key (slot (table t) idx)) = false ->
  ~ occupied (slot (table t) (size_wrap (hv + 1) mod capacity t)) ->
  put_loop (S fuel) t k v hv idx =
  Ok (NULL,
      mkTable (capacity t) (size_wrap (occupancy t + 1))
        (int_incr (collisions t)) (rehashes t)
        (upd (table t) (Z.to_nat (size_wrap (hv + 1) mod capacity t))
           (mkPair k v))).
Proof.
  intros Hwf Hi He Ho. pose proof (WF_pos t Hwf) as Hn.
  pose proof (WF_length t Hwf) as Hlen.
  cbn [put_loop]. rewrite slot_read_ok by lia. cbn [bind]. rewrite He.
  cbn [capacity table set_collisions].
  rewrite size_mod_ok by exact Hn. cbn [bind].
  rewrite slot_read_ok by (rewrite Hlen; apply Z.mod_pos_bound; exact Hn).
  cbn [bind]. apply occupiedb_false in Ho. unfold occupiedb in Ho.
  apply negb_false_iff in Ho. rewrite Ho. cbn [negb].
  rewrite slot_write_ok by (rewrite Hlen; apply Z.mod_pos_bound; exact Hn).
  reflexivity.
Qed.

Lemma put_loop_advance (k v : ptr) (h : Z) (rem : nat) :
  forall (fuel : nat) (t : hashtab_s) (j hv : Z),
    WF t -> 0 <= j ->
    hv mod capacity t = probe (capacity t) h j ->
    run_occupied (table t) (capacity t) h (j + Z.of_nat rem + 1) ->
    run_nomatch (table t) (capacity t) k h (j + Z.of_nat rem) ->
    put_loop (rem + fuel) t k v hv (probe (capacity t) h j) =
    put_loop fuel (set_collisions t (int_incr_n rem (collisions t))) k v
      (hash_step rem hv) (probe (capacity t) h (j + Z.of_nat rem)).
Proof.
  induction rem as [|rem IH]; intros fuel t j hv Hwf Hj Hhv Hocc Hnom.
  - cbn [Nat.add int_incr_n hash_step Nat.iter].
    rewrite set_collisions_same, Z.add_0_r. reflexivity.
  - pose proof (WF_pos t Hwf) as Hn. pose proof (WF_divides t Hwf) as Hdiv.
    cbn [Nat.add]. rewrite put_loop_step_continue.
    + rewrite (probe_next _ _ h j Hn Hdiv Hhv).
      replace (j + Z.of_nat (S rem)) with ((j + 1) + Z.of_nat rem) in * by lia.
      specialize (IH fuel (set_collisions t (int_incr (collisions t))) (j + 1)
                    (size_wrap (hv + 1))).
      unfold set_collisions in *.
      cbn [capacity table collisions occupancy rehashes] in *.
      rewrite IH; try assumption; try lia.
      * rewrite int_incr_n_succ, hash_step_succ. reflexivity.
      * apply probe_next; assumption.
    + exact Hwf.
    + apply probe_range. exact Hn.
    + apply Hnom. lia.
    + rewrite (probe_next _ _ h j Hn Hdiv Hhv). apply Hocc. lia.
Qed.

Lemma ht_place_found (fuel : nat) (t : hashtab_s) (k v : ptr) (d : Z) :
  WF t -> found_at (table t) (capacity t) k (hash_of k) d ->
  (Z.to_nat d < fuel)%nat ->
  ht_place fuel t k v =
  Ok (value (slot (table t) (probe (capacity t) (hash_of k) d)),
      mkTable (capacity t) (occupancy t)
        (int_incr_n (Z.to_nat d) (collisions t)) (rehashes t)
        (upd (table t) (Z.to_nat (probe (capacity t) (hash_of k) d))
           (mkPair (key (slot (table t) (probe (capacity t) (hash_of k) d)))
              v))).
Proof.
  intros Hwf [Hd [Hocc [Hnom Heq]]] Hfuel. pose proof (WF_pos t Hwf) as Hn.
  pose proof (WF_length t Hwf) as Hlen.
  unfold ht_place. rewrite size_mod_ok by exact Hn. cbn [bind].
  rewrite slot_read_ok by (rewrite Hlen; apply Z.mod_pos_bound; exact Hn).
  cbn [bind]. rewrite <- probe_zero.
  assert (H0 : occupied (slot (table t) (probe (capacity t) (hash_of k) 0)))
    by (apply Hocc; lia).
  apply is_null_false in H0. rewrite H0.
  replace fuel with (Z.to_nat d + S (fuel - Z.to_nat d - 1))%nat by lia.
  rewrite (put_loop_advance k v (hash_of k) (Z.to_nat d)); try assumption;
    try lia.
  - rewrite Z.add_0_l, Z2Nat.id by lia. rewrite put_loop_step_match.
    + reflexivity.
    + cbn [table set_collisions]. rewrite Hlen. apply probe_range. exact Hn.
    + exact Heq.
  - symmetry. apply probe_zero.
  - rewrite Z.add_0_l, Z2Nat.id by lia. exact Hocc.
  - rewrite Z.add_0_l, Z2Nat.id by lia. exact Hnom.
Qed.

Lemma ht_place_vacant (fuel : nat) (t : hashtab_s) (k v : ptr) (d : Z) :
  WF t -> vacant_at (table t) (capacity t) k (hash_of k) d ->
  (Z.to_nat d <= fuel)%nat ->
  ht_place fuel t k v =
  Ok (NULL,
      mkTable (capacity t) (size_wrap (occupancy t + 1))
        (int_incr_n (Z.to_nat d) (collisions t)) (rehashes t)
        (upd (table t) (Z.to_nat (probe (capacity t) (hash_of k) d))
           (mkPair k v))).
Proof.
  intros Hwf [Hd [Hocc [Hnom Hv]]] Hfuel. pose proof (WF_pos t Hwf) as Hn.
  pose proof (WF_length t Hwf) as Hlen. pose proof (WF_divides t Hwf) as Hdiv.
  unfold ht_place. rewrite size_mod_ok by exact Hn. cbn [bind].
  rewrite slot_read_ok by (rewrite Hlen; apply Z.mod_pos_bound; exact Hn).
  cbn [bind]. rewrite <- probe_zero.
  destruct (Z.eq_dec d 0) as [->|Hd0].
  - apply occupiedb_false in Hv. unfold occupiedb in Hv.
    apply negb_false_iff in Hv. rewrite Hv.
    rewrite slot_write_ok by (rewrite Hlen; apply probe_range; exact Hn).
    destruct t; reflexivity.
  - assert (H0 : occupied (slot (table t) (probe (capacity t) (hash_of k) 0)))
      by (apply Hocc; lia).
    apply is_null_false in H0. rewrite H0.
    set (m := Z.to_nat (d - 1)).
    assert (Hm : Z.of_nat m = d - 1) by lia.
    replace fuel with (m + S (fuel - m - 1))%nat by lia.
    rewrite (put_loop_advance k v (hash_of k) m); try assumption; try lia.
    + rewrite Z.add_0_l, Hm.
      assert (Hnext :
        size_wrap (hash_step m (hash_of k) + 1) mod capacity t =
        probe (capacity t) (hash_of k) d).
      { replace d with ((d - 1) + 1) at 1 by lia. apply probe_next; try assumption.
        rewrite <- Hm. rewrite <- (Z.add_0_l (Z.of_nat m)).
        apply hash_step_probe; try assumption. symmetry. apply probe_zero. }
      rewrite put_loop_step_place.
      * cbn [capacity table set_collisions collisions occupancy rehashes].
        rewrite Hnext. replace (Z.to_nat d) with (S m) by lia. reflexivity.
      * exact Hwf.
      * cbn [capacity set_collisions]. apply probe_range. exact Hn.
      * cbn [table set_collisions]. apply Hnom. lia.
      * cbn [capacity table set_collisions]. rewrite Hnext. exact Hv.
    + symmetry. apply probe_zero.
    + rewrite Z.add_0_l, Hm. replace (d - 1 + 1) with d by lia. exact Hocc.
    + rewrite Z.add_0_l, Hm. apply run_nomatch_shorter with (d := d);
        [exact Hnom | lia].
Qed.

(** *** The re-insertion loop of the growth block *)

Lemma rehash_probe_step_continue (fuel : nat) (t : hashtab_s)
    (N : list KeyValuePair) (hv : Z) :
  0 < capacity t -> Z.of_nat (length N) = capacity t ->
  occupied (slot N (size_wrap (hv + 1) mod capacity t)) ->
  rehash_probe (S fuel) t N hv =
  rehash_probe fuel (set_collisions t (int_incr (collisions t))) N
    (size_wrap (hv + 1)).
Proof.
  intros Hn Hlen Ho. cbn [rehash_probe].
  rewrite size_mod_ok by exact Hn. cbn [bind].
  rewrite slot_read_ok by (rewrite Hlen; apply Z.mod_pos_bound; exact Hn).
  cbn [bind]. apply is_null_false in Ho. rewrite Ho. reflexivity.
Qed.

Lemma rehash_probe_step_stop (fuel : nat) (t : hashtab_s)
    (N : list KeyValuePair) (hv : Z) :
  0 < capacity t -> Z.of_nat (length N) = capacity t ->
  ~ occupied (slot N (size_wrap (hv + 1) mod capacity t)) ->
  rehash_probe (S fuel) t N hv =
  Ok (size_wrap (hv + 1) mod capacity t,
      set_collisions t (int_incr (collisions t))).
Proof.
  intros Hn Hlen Ho. cbn [rehash_probe].
  rewrite size_mod_ok by exact Hn. cbn [bind].
  rewrite slot_read_ok by (rewrite Hlen; apply Z.mod_pos_bound; exact Hn).
  cbn [bind]. apply occupiedb_false in Ho. unfold occupiedb in Ho.
  apply negb_false_iff in Ho. rewrite Ho. reflexivity.
Qed.

Lemma rehash_probe_advance (N : list KeyValuePair) (h : Z) (rem : nat) :
  forall (fuel : nat) (t : hashtab_s) (j hv : Z),
    wf_slots (capacity t) N -> 0 <= j ->
    hv mod capacity t = probe (capacity t) h j ->
    run_occupied N (capacity t) h (j + Z.of_nat rem + 1) ->
    rehash_probe (rem + fuel) t N hv =
    rehash_probe fuel (set_collisions t (int_incr_n rem (collisions t))) N
      (hash_step rem hv).
Proof.
  induction rem as [|rem IH]; intros fuel t j hv Hwf Hj Hhv Hocc.
  - cbn [Nat.add int_incr_n hash_step Nat.iter].
    rewrite set_collisions_same. reflexivity.
  - pose proof (wf_slots_pos _ _ Hwf) as Hn.
    pose proof (wf_slots_divides _ _ Hwf) as Hdiv.
    pose proof (wf_slots_length _ _ Hwf) as Hlen.
    cbn [Nat.add]. rewrite rehash_probe_step_continue; try assumption.
    + replace (j + Z.of_nat (S rem)) with ((j + 1) + Z.of_nat rem) in * by lia.
      specialize (IH fuel (set_collisions t (int_incr (collisions t))) (j + 1)
                    (size_wrap (hv + 1))).
      unfold set_collisions in *.
      cbn [capacity table collisions occupancy rehashes] in *.
      rewrite IH; try assumption; try lia.
      * rewrite int_incr_n_succ, hash_step_succ. reflexivity.
      * apply probe_next; assumption.
    + rewrite (probe_next _ _ h j Hn Hdiv Hhv). apply Hocc. lia.
Qed.

(** An empty slot of the old array is skipped. *)
Lemma rehash_slot_skip (fuel : nat) (old : list KeyValuePair)
    (t : hashtab_s) (N : list KeyValuePair) (i : Z) :
  0 <= i < Z.of_nat (length old) -> ~ occupied (slot old i) ->
  rehash_slot fuel old (t, N) i = Ok (t, N).
Proof.
  intros Hi Ho. unfold rehash_slot. rewrite slot_read_ok by exact Hi.
  cbn [bind]. apply occupiedb_false in Ho. unfold occupiedb in Ho.
  apply negb_false_iff in Ho. rewrite Ho. reflexivity.
Qed.

(** An occupied slot of the old array goes to the first empty slot of its
    probe sequence in the new array, at the price of one collision per
    occupied slot passed. *)
Lemma rehash_slot_place (fuel : nat) (old : list KeyValuePair)
    (t : hashtab_s) (N : list KeyValuePair) (i d : Z) :
  wf_slots (capacity t) N ->
  0 <= i < Z.of_nat (length old) -> occupied (slot old i) ->
  first_vacant N (capacity t) (hash_of (key (slot old i))) d ->
  (Z.to_nat d <= fuel)%nat ->
  rehash_slot fuel old (t, N) i =
  Ok (set_collisions t (int_incr_n (Z.to_nat d) (collisions t)),
      upd N (Z.to_nat (probe (capacity t) (hash_of (key (slot old i))) d))
        (slot old i)).
Proof.
  intros Hwf Hi Ho [Hd [Hocc Hv]] Hfuel.
  pose proof (wf_slots_pos _ _ Hwf) as Hn.
  pose proof (wf_slots_divides _ _ Hwf) as Hdiv.
  pose proof (wf_slots_length _ _ Hwf) as Hlen.
  set (h := hash_of (key (slot old i))) in *.
  unfold rehash_slot. rewrite slot_read_ok by exact Hi. cbn [bind].
  pose proof Ho as Ho'. apply is_null_false in Ho'. rewrite Ho'. fold h.
  rewrite size_mod_ok by exact Hn. cbn [bind].
  rewrite slot_read_ok by (rewrite Hlen; apply Z.mod_pos_bound; exact Hn).
  cbn [bind]. rewrite <- probe_zero.
  destruct (Z.eq_dec d 0) as [->|Hd0].
  - apply occupiedb_false in Hv. unfold occupiedb in Hv. rewrite Hv.
    rewrite slot_write_ok by (rewrite Hlen; apply probe_range; exact Hn).
    cbn [bind Z.to_nat int_incr_n Nat.iter]. rewrite set_collisions_same.
    reflexivity.
  - assert (H0 : occupied (slot N (probe (capacity t) h 0))) by (apply Hocc; lia).
    apply occupiedb_true in H0. unfold occupiedb in H0. rewrite H0.
    set (m := Z.to_nat (d - 1)).
    assert (Hm : Z.of_nat m = d - 1) by lia.
    replace fuel with (m + S (fuel - m - 1))%nat by lia.
    rewrite (rehash_probe_advance N h m _ t 0 h); try assumption; try lia.
    + assert (Hnext :
        size_wrap (hash_step m h + 1) mod capacity t = probe (capacity t) h d).
      { replace d with ((d - 1) + 1) at 1 by lia. apply probe_next; try assumption.
        rewrite <- Hm. rewrite <- (Z.add_0_l (Z.of_nat m)).
        apply hash_step_probe; try assumption. symmetry. apply probe_zero. }
      rewrite rehash_probe_step_stop.
      * cbn [bind capacity set_collisions collisions]. rewrite Hnext.
        rewrite slot_write_ok by (rewrite Hlen; apply probe_range; exact Hn).
        cbn [bind]. replace (Z.to_nat d) with (S m) by lia. reflexivity.
      * exact Hn.
      * exact Hlen.
      * cbn [capacity set_collisions]. rewrite Hnext. exact Hv.
    + symmetry. apply probe_zero.
    + rewrite Z.add_0_l, Hm. replace (d - 1 + 1) with d by lia. exact Hocc.
Qed.

(** *** Facts that depend on the keys only *)

Lemma upd_value_keys (T : list KeyValuePair) (e : nat) (v : ptr) :
  map key (upd T e (mkPair (key (nth e T empty_pair)) v)) = map key T.
Proof.
  revert e. induction T as [|x T IH]; intros [|e]; simpl; try reflexivity.
  f_equal. apply IH.
Qed.

Lemma upd_vacant_keys (T : list KeyValuePair) (e : nat) (v : ptr) :
  key (nth e T empty_pair) = NULL ->
  map key (upd T e (mkPair NULL v)) = map key T.
Proof.
  revert e. induction T as [|x T IH]; intros [|e] H; simpl in *;
    try reflexivity.
  - rewrite H. reflexivity.
  - f_equal. apply IH. exact H.
Qed.

Lemma slot_key_ext (T T' : list KeyValuePair) (i : Z) :
  map key T' = map key T -> key (slot T' i) = key (slot T i).
Proof.
  intros H. unfold slot.
  change NULL with (key empty_pair).
  rewrite <- !(map_nth key). simpl key. rewrite H. reflexivity.
Qed.

Lemma occupied_ext (T T' : list KeyValuePair) (i : Z) :
  map key T' = map key T -> occupied (slot T' i) <-> occupied (slot T i).
Proof.
  intros H. unfold occupied. rewrite (slot_key_ext T T' i H). reflexivity.
Qed.

Lemma run_occupied_ext (T T' : list KeyValuePair) (n h d : Z) :
  map key T' = map key T -> run_occupied T n h d -> run_occupied T' n h d.
Proof.
  intros H Hrun j Hj. apply (occupied_ext T T' _ H). apply Hrun. exact Hj.
Qed.

Lemma probe_ok_ext (T T' : list KeyValuePair) (n : Z) :
  map key T' = map key T -> probe_ok n T -> probe_ok n T'.
Proof.
  intros H Hok i Hi Ho. unfold displacement.
  rewrite (slot_key_ext T T' i H).
  apply (run_occupied_ext T T' _ _ _ H). apply Hok; [exact Hi|].
  apply (occupied_ext T T' _ H). exact Ho.
Qed.

Lemma distinct_keys_ext (T T' : list KeyValuePair) (n : Z) :
  map key T' = map key T -> distinct_keys n T -> distinct_keys n T'.
Proof.
  intros H Hd i j Hi Hj Hoi Hoj He.
  rewrite !(slot_key_ext T T' _ H) in He.
  apply Hd; try assumption; apply (occupied_ext T T' _ H); assumption.
Qed.

Lemma filter_occupied_keys (T T' : list KeyValuePair) :
  map key T' = map key T ->
  map key (filter occupiedb T') = map key (filter occupiedb T).
Proof.
  revert T'. induction T as [|x T IH]; intros [|y T'] H; simpl in H;
    try discriminate; [reflexivity|].
  injection H as Hk Hrest. cbn [filter].
  assert (Ho : occupiedb y = occupiedb x)
    by (unfold occupiedb; rewrite Hk; reflexivity).
  rewrite Ho. destruct (occupiedb x); cbn [map].
  - rewrite Hk. f_equal. apply IH. exact Hrest.
  - apply IH. exact Hrest.
Qed.

Lemma count_occupied_ext (T T' : list KeyValuePair) :
  map key T' = map key T -> count_occupied T' = count_occupied T.
Proof.
  intros H. unfold count_occupied. f_equal.
  rewrite <- (length_map key (filter occupiedb T')).
  rewrite <- (length_map key (filter occupiedb T)).
  f_equal. apply filter_occupied_keys. exact H.
Qed.

(** *** Filling an empty slot *)

Lemma run_occupied_upd (T : list KeyValuePair) (n h d e : Z)
    (p : KeyValuePair) :
  0 <= e < Z.of_nat (length T) -> occupied p ->
  run_occupied T n h d -> run_occupied (upd T (Z.to_nat e) p) n h d.
Proof.
  intros He Hp Hrun j Hj.
  destruct (Z.eq_dec (probe n h j) e) as [E|E].
  - rewrite E, slot_upd_same by exact He. exact Hp.
  - destruct (Z_lt_le_dec (probe n h j) 0) as [Hneg|Hpos].
    + unfold slot. replace (Z.to_nat (probe n h j)) with 0%nat by lia.
      destruct (Z.eq_dec e 0) as [->|E0].
      * rewrite nth_upd_same by lia. exact Hp.
      * rewrite nth_upd_other by lia. specialize (Hrun j Hj).
        unfold slot in Hrun.
        replace (Z.to_nat (probe n h j)) with 0%nat in Hrun by lia. exact Hrun.
    + rewrite slot_upd_other by lia. apply Hrun. exact Hj.
Qed.

(** A pair placed at the first empty slot of its own probe sequence keeps
    the probe sequences free of holes. *)
Lemma probe_ok_place (T : list KeyValuePair) (n d : Z) (p : KeyValuePair) :
  0 < n -> Z.of_nat (length T) = n -> occupied p ->
  probe_ok n T -> first_vacant T n (hash_of (key p)) d ->
  probe_ok n (upd T (Z.to_nat (probe n (hash_of (key p)) d)) p).
Proof.
  intros Hn Hlen Hp Hok [Hd [Hocc Hv]].
  set (h := hash_of (key p)) in *. set (e := probe n h d) in *.
  assert (He : 0 <= e < n) by (apply probe_range; exact Hn).
  intros i Hi Ho. unfold displacement.
  destruct (Z.eq_dec i e) as [->|Hne].
  - rewrite slot_upd_same by lia. fold h. unfold e at 2.
    rewrite probe_displacement by assumption.
    apply run_occupied_upd; [lia | exact Hp | exact Hocc].
  - rewrite slot_upd_other in * by lia.
    apply run_occupied_upd; [lia | exact Hp |]. apply Hok; assumption.
Qed.

Lemma count_occupied_place (T : list KeyValuePair) (e : Z) (p : KeyValuePair) :
  0 <= e < Z.of_nat (length T) -> ~ occupied (slot T e) -> occupied p ->
  count_occupied (upd T (Z.to_nat e) p) = count_occupied T + 1.
Proof.
  intros He Hv Hp. rewrite count_occupied_upd by lia.
  apply occupiedb_false in Hv. unfold slot in Hv. rewrite Hv.
  apply occupiedb_true in Hp. rewrite Hp. lia.
Qed.

(** A key that no occupied slot matches stays apart from all of them. *)
Lemma distinct_keys_place (T : list KeyValuePair) (n e : Z) (p : KeyValuePair) :
  Z.of_nat (length T) = n -> 0 <= e < n ->
  distinct_keys n T ->
  (forall i, 0 <= i < n -> i <> e -> occupied (slot T i) ->
     equals_fcn (key p) (key (slot T i)) = false /\
     equals_fcn (key (slot T i)) (key p) = false) ->
  distinct_keys n (upd T (Z.to_nat e) p).
Proof.
  intros Hlen He Hd Hfresh i j Hi Hj Hoi Hoj Heq.
  destruct (Z.eq_dec i e) as [Ei|Ei]; destruct (Z.eq_dec j e) as [Ej|Ej];
    try congruence.
  - subst i. rewrite slot_upd_same in Heq by lia.
    rewrite slot_upd_other in Heq, Hoj by lia.
    destruct (Hfresh j Hj Ej Hoj) as [H1 _]. congruence.
  - subst j. rewrite slot_upd_same in Heq by lia.
    rewrite slot_upd_other in Heq, Hoi by lia.
    destruct (Hfresh i Hi Ei Hoi) as [_ H2]. congruence.
  - rewrite !slot_upd_other in * by lia. apply Hd; assumption.
Qed.

(** *** The growth block re-inserts every occupied slot *)

Lemma rehashed_start (old : list KeyValuePair) (n' : Z) :
  is_pow2 n' -> n' * sizeof_KeyValuePair <= SIZE_MAX ->
  rehashed old 0 n' (repeat empty_pair (Z.to_nat n')).
Proof.
  intros Hp Hm. pose proof (is_pow2_pos n' Hp) as Hn.
  assert (Hempty : forall a, ~ occupied (slot (repeat empty_pair (Z.to_nat n')) a)).
  { intros a Ho. rewrite slot_repeat_empty in Ho. apply Ho. reflexivity. }
  split; [|split; [|split; [|split; [|split]]]].
  - split; [exact Hp|]. split; [exact Hm|]. rewrite repeat_length. lia.
  - intros i _ Ho. exfalso. exact (Hempty i Ho).
  - rewrite count_occupied_repeat_empty. reflexivity.
  - intros a _ Ho. exfalso. exact (Hempty a Ho).
  - intros j Hj. lia.
  - intros _ i j _ _ Ho. exfalso. exact (Hempty i Ho).
Qed.

Lemma rehashed_skip (old : list KeyValuePair) (i n' : Z)
    (N : list KeyValuePair) :
  0 <= i < Z.of_nat (length old) -> ~ occupied (slot old i) ->
  rehashed old i n' N -> rehashed old (i + 1) n' N.
Proof.
  intros Hi Hv [Hwf [Hok [Hc [Hfrom [Hto Hdist]]]]].
  split; [exact Hwf|]. split; [exact Hok|].
  split; [|split; [|split; [|exact Hdist]]].
  - rewrite count_occupied_skipn in Hc by lia.
    apply occupiedb_false in Hv. unfold slot in Hv. rewrite Hv in Hc.
    replace (Z.to_nat (i + 1)) with (S (Z.to_nat i)) by lia. lia.
  - intros a Ha Ho. destruct (Hfrom a Ha Ho) as [j [Hj E]].
    exists j. split; [lia | exact E].
  - intros j Hj Ho. destruct (Z.eq_dec j i) as [->|Hne]; [contradiction|].
    apply Hto; [lia | exact Ho].
Qed.

Lemma rehashed_place (old : list KeyValuePair) (i n' d : Z)
    (N : list KeyValuePair) :
  0 <= i < Z.of_nat (length old) -> occupied (slot old i) ->
  rehashed old i n' N ->
  first_vacant N n' (hash_of (key (slot old i))) d ->
  rehashed old (i + 1) n'
    (upd N (Z.to_nat (probe n' (hash_of (key (slot old i))) d)) (slot old i)).
Proof.
  intros Hi Ho [Hwf [Hok [Hc [Hfrom [Hto Hdist]]]]] Hfv.
  pose proof (wf_slots_pos _ _ Hwf) as Hn.
  pose proof (wf_slots_length _ _ Hwf) as Hlen.
  pose proof Hfv as [Hd [Hocc Hv]].
  set (e := probe n' (hash_of (key (slot old i))) d) in *.
  assert (He : 0 <= e < n') by (apply probe_range; exact Hn).
  split; [|split; [|split; [|split; [|split]]]].
  - destruct Hwf as [Hp [Hm _]]. split; [exact Hp|]. split; [exact Hm|].
    rewrite length_upd. exact Hlen.
  - apply probe_ok_place; assumption.
  - rewrite count_occupied_place by (try lia; assumption).
    rewrite count_occupied_skipn in Hc by lia.
    pose proof Ho as Ho'. apply occupiedb_true in Ho'. unfold slot in Ho'.
    rewrite Ho' in Hc.
    replace (Z.to_nat (i + 1)) with (S (Z.to_nat i)) by lia. lia.
  - intros a Ha Hoa. destruct (Z.eq_dec a e) as [->|Hne].
    + exists i. split; [lia|]. apply slot_upd_same. lia.
    + rewrite slot_upd_other in * by lia.
      destruct (Hfrom a Ha Hoa) as [j [Hj E]]. exists j. split; [lia | exact E].
  - intros j Hj Hoj. destruct (Z.eq_dec j i) as [->|Hne].
    + exists e. split; [exact He|]. apply slot_upd_same. lia.
    + destruct (Hto j) as [a [Ha E]]; [lia | exact Hoj |].
      exists a. split; [exact Ha|].
      rewrite slot_upd_other; [exact E | lia | lia |].
      intros ->. apply Hv. rewrite E. exact Hoj.
  - intros Hdold. apply distinct_keys_place; try assumption.
    + apply Hdist. exact Hdold.
    + intros a Ha Hne Hoa. destruct (Hfrom a Ha Hoa) as [j [Hj E]].
      rewrite E in *.
      split.
      * destruct (equals_fcn (key (slot old i)) (key (slot old j))) eqn:Q;
          [|reflexivity].
        assert (i = j) by (apply Hdold; try assumption; lia). lia.
      * destruct (equals_fcn (key (slot old j)) (key (slot old i))) eqn:Q;
          [|reflexivity].
        assert (j = i) by (apply Hdold; try assumption; lia). lia.
Qed.

Lemma rehashed_count_bound (old : list KeyValuePair) (i n' : Z)
    (N : list KeyValuePair) :
  rehashed old i n' N -> count_occupied N <= Z.of_nat (length old).
Proof.
  intros [_ [_ [Hc _]]].
  pose proof (count_occupied_bounds (skipn (Z.to_nat i) old)).
  pose proof (count_occupied_bounds old). lia.
Qed.

Lemma rehash_loop_total (old : list KeyValuePair) (n' : Z) (rem : nat) :
  forall (fuel : nat) (t : hashtab_s) (N : list KeyValuePair) (i : Z),
    capacity t = n' -> rehashed old i n' N -> 0 <= i ->
    i + Z.of_nat rem = Z.of_nat (length old) ->
    Z.of_nat (length old) < n' -> (Z.to_nat n' <= fuel)%nat ->
    exists c N',
      rehash_loop fuel old (t, N) i rem = Ok (set_collisions t c, N') /\
      rehashed old (i + Z.of_nat rem) n' N'.
Proof.
  induction rem as [|rem IH]; intros fuel t N i Hcap Hre Hi Hrem Hlt Hfuel.
  - exists (collisions t), N. cbn [rehash_loop].
    rewrite set_collisions_same, Z.add_0_r. split; [reflexivity | exact Hre].
  - cbn [rehash_loop].
    replace (i + Z.of_nat (S rem)) with ((i + 1) + Z.of_nat rem) by lia.
    destruct (occupied_dec (slot old i)) as [Ho|Hv].
    + pose proof Hre as [Hwf _].
      pose proof (wf_slots_pos _ _ Hwf) as Hn.
      pose proof (wf_slots_length _ _ Hwf) as Hlen.
      pose proof (rehashed_count_bound _ _ _ _ Hre) as Hb.
      destruct (first_vacant_exists N n' (hash_of (key (slot old i))))
        as [d Hfv]; try assumption; try lia.
      rewrite (rehash_slot_place fuel old t N i d); try (rewrite Hcap);
        try assumption; try lia.
      * cbn [bind].
        destruct (IH fuel
                    (set_collisions t (int_incr_n (Z.to_nat d) (collisions t)))
                    (upd N (Z.to_nat (probe n' (hash_of (key (slot old i))) d))
                       (slot old i)) (i + 1))
          as [c [N' [Hrun Hre']]]; try assumption; try lia.
        -- apply rehashed_place; try assumption. lia.
        -- exists c, N'. split; [exact Hrun | exact Hre'].
      * destruct Hfv as [Hd _]. lia.
    + rewrite rehash_slot_skip by (try lia; assumption). cbn [bind].
      apply IH; try assumption; try lia.
      apply rehashed_skip; try assumption. lia.
Qed.

Lemma mem_available_no_wrap (t : hashtab_s) :
  WF t -> mem_available t ->
  size_wrap (capacity t * RESIZE_FACTOR) = capacity t * RESIZE_FACTOR.
Proof.
  intros Hwf Hm. pose proof (WF_pos t Hwf) as Hn.
  unfold mem_available, SIZE_MAX, sizeof_KeyValuePair, RESIZE_FACTOR in *.
  unfold size_wrap. apply Z.mod_small. lia.
Qed.

Lemma ht_rehash_total (fuel : nat) (t : hashtab_s) :
  WF t -> mem_available t -> enough_fuel fuel t ->
  exists c N',
    ht_rehash fuel t =
    Ok (mkTable (capacity t * RESIZE_FACTOR) (occupancy t) c
          (int_incr (rehashes t)) N') /\
    rehashed (table t) (capacity t) (capacity t * RESIZE_FACTOR) N'.
Proof.
  intros Hwf Hm Hfuel. pose proof (WF_pos t Hwf) as Hn.
  pose proof (WF_length t Hwf) as Hlen.
  unfold ht_rehash. rewrite mem_available_no_wrap by assumption.
  unfold calloc_pairs.
  destruct (Z.leb_spec (capacity t * RESIZE_FACTOR * sizeof_KeyValuePair)
              SIZE_MAX) as [_|Hbad]; [|unfold mem_available in Hm; lia].
  cbn [bind].
  destruct (rehash_loop_total (table t) (capacity t * RESIZE_FACTOR)
              (Z.to_nat (capacity t)) fuel
              (set_capacity t (capacity t * RESIZE_FACTOR))
              (repeat empty_pair (Z.to_nat (capacity t * RESIZE_FACTOR))) 0)
    as [c [N' [Hrun Hre]]].
  - reflexivity.
  - apply rehashed_start; [|exact Hm].
    destruct Hwf as [Hp _]. apply is_pow2_double. exact Hp.
  - lia.
  - lia.
  - unfold RESIZE_FACTOR. lia.
  - exact Hfuel.
  - rewrite Hrun. cbn [bind]. exists c, N'. split.
    + reflexivity.
    + replace (0 + Z.of_nat (Z.to_nat (capacity t))) with (capacity t) in Hre
        by lia.
      exact Hre.
Qed.

Lemma rehashed_all_count (old N : list KeyValuePair) (n' : Z) :
  rehashed old (Z.of_nat (length old)) n' N ->
  count_occupied N = count_occupied old.
Proof.
  intros [_ [_ [Hc _]]]. rewrite Nat2Z.id, skipn_all in Hc.
  unfold count_occupied at 2 in Hc. simpl in Hc. lia.
Qed.

(** The grown table satisfies the invariant again. *)
Lemma rehashed_Inv (t : hashtab_s) (c r : Z) (N : list KeyValuePair) (n' : Z) :
  Inv t -> rehashed (table t) (capacity t) n' N ->
  Inv (mkTable n' (occupancy t) c r N).
Proof.
  intros [Hwf [Hocc [Hdist Hok]]] Hre.
  pose proof (WF_length t Hwf) as Hlen. rewrite <- Hlen in Hre.
  pose proof (rehashed_all_count _ _ _ Hre) as Hc.
  destruct Hre as [Hwf' [Hok' [_ [_ [_ Hdist']]]]].
  split; [exact Hwf'|]. split; [cbn; lia|]. split; [|exact Hok'].
  cbn. apply Hdist'. rewrite Hlen. exact Hdist.
Qed.

(** *** Looking a key up under the invariant *)

Lemma hash_of_equal (a b : ptr) :
  hash_respects_equals -> equals_fcn a b = true -> hash_of a = hash_of b.
Proof. intros Hh E. unfold hash_of. rewrite (Hh a b E). reflexivity. Qed.

(** A key that an occupied slot matches is found there by the probe. *)
Lemma holds_found (T : list KeyValuePair) (n : Z) (k : ptr) (i : Z) :
  client_contract -> 0 < n ->
  distinct_keys n T -> probe_ok n T ->
  0 <= i < n -> occupied (slot T i) ->
  equals_fcn k (key (slot T i)) = true ->
  found_at T n k (hash_of k) (displacement T n i) /\
  probe n (hash_of k) (displacement T n i) = i.
Proof.
  intros [Hrefl [Hsym [Htrans Hhash]]] Hn Hdist Hok Hi Ho He.
  pose proof (hash_of_equal _ _ Hhash He) as Hh.
  unfold displacement in *. rewrite <- Hh in *.
  set (d := (i - hash_of k) mod n).
  assert (Hd : 0 <= d < n) by (apply Z.mod_pos_bound; exact Hn).
  assert (Hp : probe n (hash_of k) d = i) by (apply probe_reaches; assumption).
  split; [|exact Hp].
  assert (Hrun : run_occupied T n (hash_of k) d).
  { specialize (Hok i Hi Ho). unfold displacement in Hok.
    rewrite <- Hh in Hok. exact Hok. }
  split; [exact Hd|]. split; [|split].
  - apply run_occupied_snoc; [exact Hrun|]. rewrite Hp. exact Ho.
  - intros j Hj.
    destruct (equals_fcn k (key (slot T (probe n (hash_of k) j)))) eqn:Q;
      [|reflexivity].
    exfalso.
    assert (E : i = probe n (hash_of k) j).
    { apply Hdist; try assumption.
      - apply probe_range. exact Hn.
      - apply Hrun. exact Hj.
      - apply Htrans with (b := k); [apply Hsym; exact He | exact Q]. }
    rewrite <- Hp in E. apply probe_inj in E; try assumption; lia.
  - rewrite Hp. exact He.
Qed.

(** A key whose probe ends on an empty slot matches no occupied slot. *)
Lemma vacant_fresh (T : list KeyValuePair) (n : Z) (k : ptr) (d i : Z) :
  client_contract -> 0 < n ->
  distinct_keys n T -> probe_ok n T ->
  vacant_at T n k (hash_of k) d ->
  0 <= i < n -> occupied (slot T i) ->
  equals_fcn k (key (slot T i)) = false /\
  equals_fcn (key (slot T i)) k = false.
Proof.
  intros Hc Hn Hdist Hok Hv Hi Ho.
  assert (H1 : equals_fcn k (key (slot T i)) = false).
  { destruct (equals_fcn k (key (slot T i))) eqn:Q; [|reflexivity].
    exfalso. destruct (holds_found T n k i Hc Hn Hdist Hok Hi Ho Q) as [Hf _].
    exact (found_not_vacant _ _ _ _ _ _ Hf Hv). }
  split; [exact H1|].
  destruct (equals_fcn (key (slot T i)) k) eqn:Q; [|reflexivity].
  destruct Hc as [_ [Hsym _]]. rewrite (Hsym _ _ Q) in H1. discriminate.
Qed.

(** *** More fuel never changes a result *)

Lemma ht_has_loop_mono (fuel : nat) :
  forall fuel' t k orig hv idx r,
    ht_has_loop fuel t k orig hv idx = Ok r -> (fuel <= fuel')%nat ->
    ht_has_loop fuel' t k orig hv idx = Ok r.
Proof.
  induction fuel as [|fuel IH]; intros fuel' t k orig hv idx r H Hle;
    [discriminate|].
  destruct fuel' as [|fuel']; [lia|].
  cbn [ht_has_loop] in *. crunch H; try exact H.
  apply IH; [exact H | lia].
Qed.

Lemma ht_has_mono (fuel fuel' : nat) (t : hashtab_s) (k : ptr)
    (r : bool * hashtab_s) :
  ht_has fuel t k = Ok r -> (fuel <= fuel')%nat -> ht_has fuel' t k = Ok r.
Proof.
  unfold ht_has. intros H Hle. crunch H.
  apply ht_has_loop_mono with (fuel := fuel); assumption.
Qed.

Lemma ht_get_loop_mono (fuel : nat) :
  forall fuel' t k hv pair r,
    ht_get_loop fuel t k hv pair = Ok r -> (fuel <= fuel')%nat ->
    ht_get_loop fuel' t k hv pair = Ok r.
Proof.
  induction fuel as [|fuel IH]; intros fuel' t k hv pair r H Hle;
    [discriminate|].
  destruct fuel' as [|fuel']; [lia|].
  cbn [ht_get_loop] in *. crunch H; try exact H.
  apply IH; [exact H | lia].
Qed.

Lemma ht_get_mono (fuel fuel' : nat) (t : hashtab_s) (k : ptr)
    (r : ptr * hashtab_s) :
  ht_get fuel t k = Ok r -> (fuel <= fuel')%nat -> ht_get fuel' t k = Ok r.
Proof.
  unfold ht_get. intros H Hle.
  destruct (ht_has fuel t k) as [[b t1]|] eqn:Hhas; [|discriminate].
  rewrite (ht_has_mono _ _ _ _ _ Hhas Hle). cbn [bind] in *.
  destruct (negb b); [discriminate|].
  destruct (size_mod (hash_of k) (capacity t1)) as [idx|]; [|discriminate].
  cbn [bind] in *.
  destruct (slot_read (table t1) idx) as [pair|]; [|discriminate].
  cbn [bind] in *.
  destruct (ht_get_loop fuel t1 k (hash_of k) pair) as [v|] eqn:Hl;
    [|discriminate].
  rewrite (ht_get_loop_mono _ _ _ _ _ _ _ Hl Hle). exact H.
Qed.

Lemma rehash_probe_mono (fuel : nat) :
  forall fuel' t N hv r,
    rehash_probe fuel t N hv = Ok r -> (fuel <= fuel')%nat ->
    rehash_probe fuel' t N hv = Ok r.
Proof.
  induction fuel as [|fuel IH]; intros fuel' t N hv r H Hle; [discriminate|].
  destruct fuel' as [|fuel']; [lia|].
  cbn [rehash_probe] in *. crunch H; try exact H.
  apply IH; [exact H | lia].
Qed.

Lemma rehash_slot_mono (fuel fuel' : nat) (old : list KeyValuePair)
    (st st' : hashtab_s * list KeyValuePair) (i : Z) :
  rehash_slot fuel old st i = Ok st' -> (fuel <= fuel')%nat ->
  rehash_slot fuel' old st i = Ok st'.
Proof.
  unfold rehash_slot. destruct st as [t N]. intros H Hle.
  destruct (slot_read old i) as [pair|]; [|discriminate]. cbn [bind] in *.
  destruct (is_null (key pair)); [exact H|].
  destruct (size_mod (hash_of (key pair)) (capacity t)); [|discriminate].
  cbn [bind] in *.
  destruct (slot_read N a) as [s|]; [|discriminate]. cbn [bind] in *.
  destruct (negb (is_null (key s))); [|exact H].
  destruct (rehash_probe fuel t N (hash_of (key pair))) as [[idx t1]|] eqn:Hp;
    [|discriminate].
  rewrite (rehash_probe_mono _ _ _ _ _ _ Hp Hle). exact H.
Qed.

Lemma rehash_loop_mono (fuel fuel' : nat) (old : list KeyValuePair) (n : nat) :
  forall st i st',
    rehash_loop fuel old st i n = Ok st' -> (fuel <= fuel')%nat ->
    rehash_loop fuel' old st i n = Ok st'.
Proof.
  induction n as [|n IH]; intros st i st' H Hle; [exact H|].
  cbn [rehash_loop] in *.
  destruct (rehash_slot fuel old st i) as [st1|] eqn:Hs; [|discriminate].
  rewrite (rehash_slot_mono _ _ _ _ _ _ Hs Hle). cbn [bind] in *.
  apply IH; assumption.
Qed.

Lemma ht_rehash_mono (fuel fuel' : nat) (t t' : hashtab_s) :
  ht_rehash fuel t = Ok t' -> (fuel <= fuel')%nat -> ht_rehash fuel' t = Ok t'.
Proof.
  unfold ht_rehash. intros H Hle.
  destruct (calloc_pairs (size_wrap (capacity t * RESIZE_FACTOR))) as [N|];
    [|discriminate].
  cbn [bind] in *.
  match type of H with
  | bind ?c _ = _ => destruct c as [[t1 N1]|] eqn:Hl; [|discriminate]
  end.
  rewrite (rehash_loop_mono _ _ _ _ _ _ _ Hl Hle). exact H.
Qed.

Lemma ht_grow_mono (fuel fuel' : nat) (t t' : hashtab_s) :
  ht_grow fuel t = Ok t' -> (fuel <= fuel')%nat -> ht_grow fuel' t = Ok t'.
Proof.
  unfold ht_grow. destruct (load_exceeded t); [|auto].
  apply ht_rehash_mono.
Qed.

Lemma put_loop_mono (fuel : nat) :
  forall fuel' t k v hv idx r,
    put_loop fuel t k v hv idx = Ok r -> (fuel <= fuel')%nat ->
    put_loop fuel' t k v hv idx = Ok r.
Proof.
  induction fuel as [|fuel IH]; intros fuel' t k v hv idx r H Hle;
    [discriminate|].
  destruct fuel' as [|fuel']; [lia|].
  cbn [put_loop] in *. crunch H; try exact H.
  apply IH; [exact H | lia].
Qed.

Lemma ht_place_mono (fuel fuel' : nat) (t : hashtab_s) (k v : ptr)
    (r : ptr * hashtab_s) :
  ht_place fuel t k v = Ok r -> (fuel <= fuel')%nat ->
  ht_place fuel' t k v = Ok r.
Proof.
  unfold ht_place. intros H Hle. crunch H; try exact H.
  apply put_loop_mono with (fuel := fuel); assumption.
Qed.

Lemma ht_put_mono (fuel fuel' : nat) (t : hashtab_s) (k v : ptr)
    (r : ptr * hashtab_s) :
  ht_put fuel t k v = Ok r -> (fuel <= fuel')%nat -> ht_put fuel' t k v = Ok r.
Proof.
  unfold ht_put. intros H Hle.
  destruct (ht_grow fuel t) as [t1|] eqn:Hg; [|discriminate].
  rewrite (ht_grow_mono _ _ _ _ Hg Hle). cbn [bind] in *.
  apply ht_place_mono with (fuel := fuel); assumption.
Qed.

(** *** Reading an outcome back *)

Lemma probe_periodic (n h j : Z) : 0 < n -> probe n h j = probe n h (j mod n).
Proof.
  intros Hn. unfold probe. rewrite Zplus_mod_idemp_r. reflexivity.
Qed.

(** On a cycle of occupied non-matching slots the placement loop never
    leaves: it spends any fuel. *)
Lemma put_loop_full_cycle (k v : ptr) (h : Z) (fuel : nat) :
  forall (t : hashtab_s) (j hv : Z),
    WF t -> full_cycle (table t) (capacity t) k h -> 0 <= j ->
    hv mod capacity t = probe (capacity t) h j ->
    put_loop fuel t k v hv (probe (capacity t) h j) = Err OutOfFuel.
Proof.
  induction fuel as [|fuel IH]; intros t j hv Hwf Hfull Hj Hhv; [reflexivity|].
  pose proof (WF_pos t Hwf) as Hn. pose proof (WF_divides t Hwf) as Hdiv.
  destruct Hfull as [Hocc Hnom].
  rewrite put_loop_step_continue.
  - rewrite (probe_next _ _ h j Hn Hdiv Hhv).
    apply (IH (set_collisions t (int_incr (collisions t))) (j + 1)
             (size_wrap (hv + 1))).
    + exact Hwf.
    + split; assumption.
    + lia.
    + apply probe_next; assumption.
  - exact Hwf.
  - apply probe_range. exact Hn.
  - rewrite probe_periodic by exact Hn. apply Hnom. apply Z.mod_pos_bound.
    exact Hn.
  - rewrite (probe_next _ _ h j Hn Hdiv Hhv).
    rewrite probe_periodic by exact Hn. apply Hocc. apply Z.mod_pos_bound.
    exact Hn.
Qed.

Lemma ht_place_full_cycle (fuel : nat) (t : hashtab_s) (k v : ptr) :
  WF t -> full_cycle (table t) (capacity t) k (hash_of k) ->
  ht_place fuel t k v = Err OutOfFuel.
Proof.
  intros Hwf Hfull. pose proof (WF_pos t Hwf) as Hn.
  pose proof (WF_length t Hwf) as Hlen.
  unfold ht_place. rewrite size_mod_ok by exact Hn. cbn [bind].
  rewrite slot_read_ok by (rewrite Hlen; apply Z.mod_pos_bound; exact Hn).
  cbn [bind]. rewrite <- probe_zero.
  assert (H0 : occupied (slot (table t) (probe (capacity t) (hash_of k) 0)))
    by (apply Hfull; lia).
  apply is_null_false in H0. rewrite H0.
  apply put_loop_full_cycle; try assumption; try lia.
  symmetry. apply probe_zero.
Qed.

(** What a returning [ht_has] has seen. *)
Lemma ht_has_inv (fuel : nat) (t : hashtab_s) (k : ptr) (b : bool)
    (t' : hashtab_s) :
  WF t -> ht_has fuel t k = Ok (b, t') ->
  (exists d, found_at (table t) (capacity t) k (hash_of k) d /\ b = true /\
     t' = set_collisions t (int_incr_n (Z.to_nat d) (collisions t))) \/
  (exists d, vacant_at (table t) (capacity t) k (hash_of k) d /\ b = false /\
     t' = set_collisions t (int_incr_n (Z.to_nat d) (collisions t))) \/
  (full_cycle (table t) (capacity t) k (hash_of k) /\ b = false /\
     t' = set_collisions t
            (int_incr_n (Z.to_nat (capacity t)) (collisions t))).
Proof.
  intros Hwf H. pose proof (WF_pos t Hwf) as Hn.
  destruct (probe_outcome (table t) (capacity t) k (hash_of k) Hn)
    as [[d Hf] | [[d Hv] | Hfull]].
  - left. exists d. split; [exact Hf|].
    apply ht_has_mono with (fuel' := (fuel + S (Z.to_nat d))%nat) in H; [|lia].
    rewrite (ht_has_found _ t k d Hwf Hf) in H by lia.
    injection H as <- <-. split; reflexivity.
  - right. left. exists d. split; [exact Hv|].
    apply ht_has_mono with (fuel' := (fuel + S (Z.to_nat d))%nat) in H; [|lia].
    rewrite (ht_has_vacant _ t k d Hwf Hv) in H by lia.
    injection H as <- <-. split; reflexivity.
  - right. right. split; [exact Hfull|].
    apply ht_has_mono with (fuel' := (fuel + Z.to_nat (capacity t))%nat) in H;
      [|lia].
    rewrite (ht_has_full _ t k Hwf Hfull) in H by lia.
    injection H as <- <-. split; reflexivity.
Qed.

(** What a returning [ht_get] has seen. *)
Lemma ht_get_inv (fuel : nat) (t : hashtab_s) (k v : ptr) (t' : hashtab_s) :
  WF t -> ht_get fuel t k = Ok (v, t') ->
  exists d, found_at (table t) (capacity t) k (hash_of k) d /\
    v = value (slot (table t) (probe (capacity t) (hash_of k) d)) /\
    t' = set_collisions t (int_incr_n (Z.to_nat d) (collisions t)).
Proof.
  intros Hwf H.
  assert (Hhas : exists t1, ht_has fuel t k = Ok (true, t1)).
  { unfold ht_get in H. destruct (ht_has fuel t k) as [[b t1]|]; [|discriminate].
    cbn [bind] in H. destruct b; [|discriminate]. exists t1. reflexivity. }
  destruct Hhas as [t1 Hhas].
  destruct (ht_has_inv _ _ _ _ _ Hwf Hhas)
    as [[d [Hf _]] | [[d [_ [Hb _]]] | [_ [Hb _]]]]; try discriminate.
  exists d. split; [exact Hf|].
  apply ht_get_mono with (fuel' := (fuel + S (Z.to_nat d))%nat) in H; [|lia].
  rewrite (ht_get_found _ t k d Hwf Hf) in H by lia.
  injection H as <- <-. split; reflexivity.
Qed.

(** What a returning placement has done. *)
Lemma ht_place_inv (fuel : nat) (t : hashtab_s) (k v r : ptr)
    (t' : hashtab_s) :
  WF t -> ht_place fuel t k v = Ok (r, t') ->
  (exists d, found_at (table t) (capacity t) k (hash_of k) d /\
     r = value (slot (table t) (probe (capacity t) (hash_of k) d)) /\
     t' = mkTable (capacity t) (occupancy t)
            (int_incr_n (Z.to_nat d) (collisions t)) (rehashes t)
            (upd (table t) (Z.to_nat (probe (capacity t) (hash_of k) d))
               (mkPair
                  (key (slot (table t) (probe (capacity t) (hash_of k) d)))
                  v))) \/
  (exists d, vacant_at (table t) (capacity t) k (hash_of k) d /\
     r = NULL /\
     t' = mkTable (capacity t) (size_wrap (occupancy t + 1))
            (int_incr_n (Z.to_nat d) (collisions t)) (rehashes t)
            (upd (table t) (Z.to_nat (probe (capacity t) (hash_of k) d))
               (mkPair k v))).
Proof.
  intros Hwf H. pose proof (WF_pos t Hwf) as Hn.
  destruct (probe_outcome (table t) (capacity t) k (hash_of k) Hn)
    as [[d Hf] | [[d Hv] | Hfull]].
  - left. exists d. split; [exact Hf|].
    apply ht_place_mono with (fuel' := (fuel + S (Z.to_nat d))%nat) in H;
      [|lia].
    rewrite (ht_place_found _ t k v d Hwf Hf) in H by lia.
    injection H as <- <-. split; reflexivity.
  - right. exists d. split; [exact Hv|].
    apply ht_place_mono with (fuel' := (fuel + S (Z.to_nat d))%nat) in H;
      [|lia].
    rewrite (ht_place_vacant _ t k v d Hwf Hv) in H by lia.
    injection H as <- <-. split; reflexivity.
  - rewrite (ht_place_full_cycle fuel t k v Hwf Hfull) in H. discriminate.
Qed.

(** What a returning growth block has built. *)
Lemma ht_rehash_inv (fuel : nat) (t t' : hashtab_s) :
  WF t -> ht_rehash fuel t = Ok t' ->
  mem_available t /\
  exists c N',
    t' = mkTable (capacity t * RESIZE_FACTOR) (occupancy t) c
           (int_incr (rehashes t)) N' /\
    rehashed (table t) (capacity t) (capacity t * RESIZE_FACTOR) N'.
Proof.
  intros Hwf H. pose proof (WF_pos t Hwf) as Hn.
  assert (Hm : mem_available t).
  { unfold ht_rehash in H.
    destruct (calloc_pairs (size_wrap (capacity t * RESIZE_FACTOR))) as [N|]
      eqn:Hc; [|discriminate].
    unfold calloc_pairs in Hc.
    destruct (Z.leb_spec
                (size_wrap (capacity t * RESIZE_FACTOR) * sizeof_KeyValuePair)
                SIZE_MAX) as [Hle|]; [|discriminate].
    destruct Hwf as [_ [Hb _]].
    unfold mem_available.
    unfold size_wrap, SIZE_MAX, SIZE_MODULUS, sizeof_KeyValuePair,
      RESIZE_FACTOR in *.
    rewrite Z.mod_small in Hle by lia. exact Hle. }
  split; [exact Hm|].
  set (fuel' := (fuel + Z.to_nat (capacity t * RESIZE_FACTOR))%nat).
  destruct (ht_rehash_total fuel' t Hwf Hm) as [c [N' [Hrun Hre]]].
  { unfold enough_fuel, fuel'. lia. }
  apply ht_rehash_mono with (fuel' := fuel') in H; [|unfold fuel'; lia].
  rewrite Hrun in H. injection H as <-. exists c, N'. split; [reflexivity|exact Hre].
Qed.

(** *** The placement keeps the invariant *)

Lemma upd_value_keys_slot (T : list KeyValuePair) (p : Z) (v : ptr) :
  map key (upd T (Z.to_nat p) (mkPair (key (slot T p)) v)) = map key T.
Proof. unfold slot. apply upd_value_keys. Qed.

Lemma run_nomatch_ext (T T' : list KeyValuePair) (n : Z) (k : ptr) (h d : Z) :
  map key T' = map key T -> run_nomatch T n k h d -> run_nomatch T' n k h d.
Proof.
  intros H Hrun j Hj. rewrite (slot_key_ext T T' _ H). apply Hrun. exact Hj.
Qed.

Lemma wf_slots_upd (n : Z) (T : list KeyValuePair) (e : nat) (p : KeyValuePair) :
  wf_slots n T -> wf_slots n (upd T e p).
Proof.
  intros [Hp [Hm Hl]]. split; [exact Hp|]. split; [exact Hm|].
  rewrite length_upd. exact Hl.
Qed.

(** Overwriting the value of a slot. *)
Lemma update_Inv (t : hashtab_s) (c p v : Z) :
  Inv t ->
  Inv (mkTable (capacity t) (occupancy t) c (rehashes t)
         (upd (table t) (Z.to_nat p) (mkPair (key (slot (table t) p)) v))).
Proof.
  intros [Hwf [Hocc [Hdist Hok]]].
  pose proof (upd_value_keys_slot (table t) p v) as Hk.
  split; [|split; [|split]]; cbn [capacity occupancy table].
  - apply wf_slots_upd. exact Hwf.
  - rewrite (count_occupied_ext _ _ Hk). exact Hocc.
  - apply (distinct_keys_ext _ _ _ Hk). exact Hdist.
  - apply (probe_ok_ext _ _ _ Hk). exact Hok.
Qed.

Lemma found_after_update (t : hashtab_s) (k v : ptr) (d : Z) :
  WF t -> found_at (table t) (capacity t) k (hash_of k) d ->
  let p := probe (capacity t) (hash_of k) d in
  let T' := upd (table t) (Z.to_nat p) (mkPair (key (slot (table t) p)) v) in
  found_at T' (capacity t) k (hash_of k) d /\ value (slot T' p) = v.
Proof.
  intros Hwf [Hd [Hocc [Hnom Heq]]] p T'.
  pose proof (WF_pos t Hwf) as Hn. pose proof (WF_length t Hwf) as Hlen.
  pose proof (upd_value_keys_slot (table t) p v) as Hk. fold T' in Hk.
  assert (Hp : 0 <= p < capacity t) by (apply probe_range; exact Hn).
  split.
  - split; [exact Hd|]. split; [|split].
    + apply (run_occupied_ext _ _ _ _ _ Hk). exact Hocc.
    + apply (run_nomatch_ext _ _ _ _ _ _ Hk). exact Hnom.
    + fold p. rewrite (slot_key_ext _ _ p Hk). exact Heq.
  - unfold T'. rewrite slot_upd_same by lia. reflexivity.
Qed.

(** Filling the empty slot that ended the probe. *)
Lemma place_Inv (t : hashtab_s) (k v c : Z) (d : Z) :
  client_contract -> Inv t -> k <> NULL ->
  vacant_at (table t) (capacity t) k (hash_of k) d ->
  size_wrap (occupancy t + 1) = occupancy t + 1 /\
  Inv (mkTable (capacity t) (size_wrap (occupancy t + 1)) c (rehashes t)
         (upd (table t) (Z.to_nat (probe (capacity t) (hash_of k) d))
            (mkPair k v))).
Proof.
  intros Hc [Hwf [Hocc [Hdist Hok]]] Hk Hv.
  pose proof (WF_pos t Hwf) as Hn. pose proof (WF_length t Hwf) as Hlen.
  pose proof Hv as [Hd [Hrun [Hnom Hvac]]].
  set (p := probe (capacity t) (hash_of k) d) in *.
  assert (Hp : 0 <= p < capacity t) by (apply probe_range; exact Hn).
  assert (Hcount : count_occupied (table t) < capacity t).
  { pose proof (count_occupied_bounds (table t)) as Hb.
    destruct (Z.eq_dec (count_occupied (table t)) (capacity t)) as [E|E];
      [|lia].
    exfalso.
    assert (Hnv : forall T : list KeyValuePair,
               count_occupied T = Z.of_nat (length T) ->
               forall i, (i < length T)%nat ->
                 occupiedb (nth i T empty_pair) = true).
    { induction T as [|x T IH]; intros HT i Hi; simpl in Hi; [lia|].
      rewrite count_occupied_cons in HT. simpl length in HT.
      pose proof (count_occupied_bounds T) as HbT.
      destruct (occupiedb x) eqn:Q; [|lia].
      destruct i as [|i]; [exact Q|]. simpl. apply IH; lia. }
    apply Hvac. apply occupiedb_true. unfold slot. apply Hnv; lia. }
  assert (Hw : size_wrap (occupancy t + 1) = occupancy t + 1).
  { destruct Hwf as [_ [Hm _]].
    pose proof (count_occupied_bounds (table t)) as Hb.
    unfold size_wrap, SIZE_MAX, SIZE_MODULUS, sizeof_KeyValuePair in *.
    apply Z.mod_small. lia. }
  split; [exact Hw|].
  split; [|split; [|split]]; cbn [capacity occupancy table].
  - apply wf_slots_upd. exact Hwf.
  - rewrite Hw, count_occupied_place; try lia; try assumption.
  - apply distinct_keys_place; try assumption.
    intros i Hi Hne Ho. cbn [key].
    apply (vacant_fresh (table t) (capacity t) k d i); assumption.
  - apply (probe_ok_place (table t) (capacity t) d (mkPair k v));
      try assumption.
    split; [exact Hd|]. split; assumption.
Qed.

Lemma found_after_place (t : hashtab_s) (k v : ptr) (d : Z) :
  equals_reflexive -> WF t -> k <> NULL ->
  vacant_at (table t) (capacity t) k (hash_of k) d ->
  let p := probe (capacity t) (hash_of k) d in
  let T' := upd (table t) (Z.to_nat p) (mkPair k v) in
  found_at T' (capacity t) k (hash_of k) d /\ value (slot T' p) = v.
Proof.
  intros Hrefl Hwf Hk [Hd [Hocc [Hnom Hvac]]] p T'.
  pose proof (WF_pos t Hwf) as Hn. pose proof (WF_length t Hwf) as Hlen.
  assert (Hp : 0 <= p < capacity t) by (apply probe_range; exact Hn).
  assert (Hsame : slot T' p = mkPair k v)
    by (unfold T'; apply slot_upd_same; lia).
  split.
  - split; [exact Hd|]. split; [|split].
    + apply run_occupied_snoc.
      * apply run_occupied_upd; [lia | exact Hk | exact Hocc].
      * fold p. rewrite Hsame. exact Hk.
    + intros j Hj. unfold T'. rewrite slot_upd_other.
      * apply Hnom. exact Hj.
      * lia.
      * apply probe_range. exact Hn.
      * intros E. unfold p in E. apply probe_inj in E; lia.
    + fold p. rewrite Hsame. apply Hrefl.
  - rewrite Hsame. reflexivity.
Qed.

(** Without the sentinel as key, the placement keeps the probe sequences
    free of holes whatever else holds of the table. *)
Lemma place_probe_ok (t : hashtab_s) (k v : ptr) (d : Z) :
  WF t -> probe_ok (capacity t) (table t) ->
  vacant_at (table t) (capacity t) k (hash_of k) d ->
  probe_ok (capacity t)
    (upd (table t) (Z.to_nat (probe (capacity t) (hash_of k) d)) (mkPair k v)).
Proof.
  intros Hwf Hok [Hd [Hocc [_ Hvac]]].
  pose proof (WF_pos t Hwf) as Hn. pose proof (WF_length t Hwf) as Hlen.
  destruct (Z.eq_dec k NULL) as [->|Hk].
  - apply probe_ok_ext with (T := table t); [|exact Hok].
    apply upd_vacant_keys.
    destruct (Z.eq_dec
                (key (nth (Z.to_nat (probe (capacity t) (hash_of NULL) d))
                        (table t) empty_pair)) NULL) as [E|E]; [exact E|].
    exfalso. apply Hvac. exact E.
  - apply (probe_ok_place (table t) (capacity t) d (mkPair k v));
      try assumption.
    split; [exact Hd|]. split; assumption.
Qed.

(** *** The load test in double precision *)

(** The conversions and the division of [load_exceeded] are followed
    through the rounding functions, as far as the theorems on [ht_put] need
    them: on a capacity that is a power of two, occupancy at or above 3/4
    of it makes the test succeed, and for capacities up to [2^53], where no
    operand is rounded, occupancy below 3/4 makes it fail. *)

(** Binary digits. *)

Lemma digits2_pos_bounds (p : positive) :
  2 ^ (Z.pos (digits2_pos p) - 1) <= Z.pos p < 2 ^ Z.pos (digits2_pos p).
Proof.
  induction p as [p IH|p IH|]; cbn [digits2_pos].
  - rewrite Pos2Z.inj_succ. change (Z.pos p~1) with (2 * Z.pos p + 1).
    replace (Z.succ (Z.pos (digits2_pos p)) - 1)
      with (Z.succ (Z.pos (digits2_pos p) - 1)) by lia.
    rewrite !Z.pow_succ_r by lia.
    destruct IH as [Hlo Hhi]. revert Hlo Hhi.
    generalize (2 ^ (Z.pos (digits2_pos p) - 1)) (2 ^ Z.pos (digits2_pos p)).
    intros a b Hlo Hhi. lia.
  - rewrite Pos2Z.inj_succ. change (Z.pos p~0) with (2 * Z.pos p).
    replace (Z.succ (Z.pos (digits2_pos p)) - 1)
      with (Z.succ (Z.pos (digits2_pos p) - 1)) by lia.
    rewrite !Z.pow_succ_r by lia.
    destruct IH as [Hlo Hhi]. revert Hlo Hhi.
    generalize (2 ^ (Z.pos (digits2_pos p) - 1)) (2 ^ Z.pos (digits2_pos p)).
    intros a b Hlo Hhi. lia.
  - cbn. lia.
Qed.

Lemma digits2_pos_unique (p : positive) (d : Z) :
  2 ^ (d - 1) <= Z.pos p < 2 ^ d -> Z.pos (digits2_pos p) = d.
Proof.
  intros [Hlo Hhi]. pose proof (digits2_pos_bounds p) as [Blo Bhi].
  set (D := Z.pos (digits2_pos p)) in *.
  assert (HD : 0 < D) by (unfold D; lia).
  destruct (Z.lt_trichotomy D d) as [Hlt | [Heq | Hgt]]; [|exact Heq|].
  - exfalso.
    assert (2 ^ D <= 2 ^ (d - 1)) by (apply Z.pow_le_mono_r; lia). lia.
  - exfalso. destruct (Z.le_gt_cases 0 d) as [Hd|Hd].
    + assert (2 ^ d <= 2 ^ (D - 1)) by (apply Z.pow_le_mono_r; lia). lia.
    + rewrite (Z.pow_neg_r 2 d) in Hhi by lia. lia.
Qed.

(** Right shifts. *)

Lemma iter_pos_nat {A : Type} (f : A -> A) (n : positive) (x : A) :
  iter_pos f n x = Nat.iter (Pos.to_nat n) f x.
Proof.
  revert x. induction n as [n IH|n IH|]; intros x; cbn [iter_pos].
  - rewrite !IH, Pos2Nat.inj_xI.
    replace (S (2 * Pos.to_nat n)) with (S (Pos.to_nat n + Pos.to_nat n))%nat
      by lia.
    rewrite Nat.iter_succ_r, Nat.iter_add. reflexivity.
  - rewrite !IH, Pos2Nat.inj_xO.
    replace (2 * Pos.to_nat n)%nat with (Pos.to_nat n + Pos.to_nat n)%nat
      by lia.
    rewrite Nat.iter_add. reflexivity.
  - reflexivity.
Qed.

Lemma shr_1_m (mrs : shr_record) :
  0 <= shr_m mrs -> shr_m (shr_1 mrs) = shr_m mrs / 2.
Proof.
  destruct mrs as [m r s]. cbn [shr_m]. intros Hm.
  destruct m as [|[p|p|]|p]; cbn [shr_1 shr_m]; try lia.
  - reflexivity.
  - apply Z.div_unique with (r := 1); lia.
  - apply Z.div_unique with (r := 0); lia.
  - reflexivity.
Qed.

Lemma shr_iter_m (n : nat) (mrs : shr_record) :
  0 <= shr_m mrs ->
  shr_m (Nat.iter n shr_1 mrs) = shr_m mrs / 2 ^ Z.of_nat n.
Proof.
  intros Hm. induction n as [|n IH].
  - cbn. rewrite Z.div_1_r. reflexivity.
  - rewrite Nat.iter_succ. rewrite shr_1_m.
    + rewrite IH, Nat2Z.inj_succ, Z.pow_succ_r by lia.
      rewrite Z.div_div by lia. f_equal. lia.
    + rewrite IH. apply Z.div_pos; lia.
Qed.

Lemma shr_iter_exact (n : nat) (m0 : Z) :
  0 <= m0 ->
  Nat.iter n shr_1 (Build_shr_record (m0 * 2 ^ Z.of_nat n) false false) =
  Build_shr_record m0 false false.
Proof.
  intros Hm. induction n as [|n IH].
  - cbn. rewrite Z.mul_1_r. reflexivity.
  - rewrite Nat.iter_succ_r.
    replace (shr_1 (Build_shr_record (m0 * 2 ^ Z.of_nat (S n)) false false))
      with (Build_shr_record (m0 * 2 ^ Z.of_nat n) false false); [exact IH|].
    rewrite Nat2Z.inj_succ, Z.pow_succ_r by lia.
    assert (Hq : 0 <= m0 * 2 ^ Z.of_nat n) by lia.
    replace (m0 * (2 * 2 ^ Z.of_nat n)) with (2 * (m0 * 2 ^ Z.of_nat n))
      by lia.
    destruct (m0 * 2 ^ Z.of_nat n) as [|q|q]; [reflexivity|reflexivity|lia].
Qed.

Lemma shr_m_spec (mrs : shr_record) (e n : Z) :
  0 <= shr_m mrs ->
  snd (shr mrs e n) = e + Z.max 0 n /\
  shr_m (fst (shr mrs e n)) = shr_m mrs / 2 ^ Z.max 0 n.
Proof.
  intros Hm. destruct n as [|p|p]; cbn [shr fst snd].
  - rewrite Z.div_1_r. split; [lia | reflexivity].
  - rewrite iter_pos_nat, shr_iter_m by exact Hm.
    rewrite positive_nat_Z. split; [lia|]. f_equal.
  - rewrite Z.div_1_r. split; [lia | reflexivity].
Qed.

Lemma shr_exact (m0 e n : Z) :
  0 <= m0 -> 0 <= n ->
  shr (Build_shr_record (m0 * 2 ^ n) false false) e n =
  (Build_shr_record m0 false false, e + n).
Proof.
  intros Hm Hn. destruct n as [|p|p]; cbn [shr]; [| |lia].
  - rewrite Z.mul_1_r, Z.add_0_r. reflexivity.
  - rewrite iter_pos_nat. rewrite <- (positive_nat_Z p) at 1.
    rewrite shr_iter_exact by exact Hm. reflexivity.
Qed.

Lemma round_nearest_even_bounds (m : Z) (l : location) :
  m <= round_nearest_even m l <= m + 1.
Proof.
  destruct l as [|[| |]]; cbn [round_nearest_even];
    try destruct (Z.even m); lia.
Qed.

Lemma Zdigits2_unique (z d : Z) :
  2 ^ (d - 1) <= z < 2 ^ d -> 0 < z -> Zdigits2 z = d.
Proof.
  intros H Hz. destruct z as [|p|p]; [lia| |lia].
  cbn [Zdigits2]. apply digits2_pos_unique. exact H.
Qed.

Lemma pow2_split (a b : Z) : 0 <= a -> 0 <= b -> 2 ^ (a + b) = 2 ^ a * 2 ^ b.
Proof. intros. apply Z.pow_add_r; assumption. Qed.

Lemma pow2_sum (c a b : Z) :
  0 <= a -> 0 <= b -> c = a + b -> 2 ^ c = 2 ^ a * 2 ^ b.
Proof. intros Ha Hb ->. apply Z.pow_add_r; assumption. Qed.

Lemma pow2_pos (a : Z) : 0 <= a -> 0 < 2 ^ a.
Proof. intros. apply Z.pow_pos_nonneg; lia. Qed.

(** Rounding to 53 bits. *)

Lemma fexp_double (e : Z) : -1021 <= e -> fexp 53 1024 e = e - 53.
Proof. intros H. unfold fexp, emin. lia. Qed.

Lemma shr_record_of_loc_m (m : Z) (l : location) :
  shr_m (shr_record_of_loc m l) = m.
Proof. destruct l as [|[| |]]; reflexivity. Qed.

Lemma shr_fexp_m (m e : Z) (l : location) (D : Z) :
  0 < m -> Zdigits2 m = D -> 53 <= D -> -1021 <= D + e ->
  snd (shr_fexp 53 1024 m e l) = e + (D - 53) /\
  shr_m (fst (shr_fexp 53 1024 m e l)) = m / 2 ^ (D - 53).
Proof.
  intros Hm HD H53 He. unfold shr_fexp. rewrite HD, fexp_double by exact He.
  replace (D + e - 53 - e) with (D - 53) by lia.
  destruct (shr_m_spec (shr_record_of_loc m l) e (D - 53)) as [H1 H2].
  { rewrite shr_record_of_loc_m. lia. }
  rewrite H1, H2, shr_record_of_loc_m.
  replace (Z.max 0 (D - 53)) with (D - 53) by lia. split; reflexivity.
Qed.

Lemma shr_fexp_exact (m0 e n : Z) :
  2 ^ 52 <= m0 < 2 ^ 53 -> 0 <= n -> -1021 <= 53 + n + e ->
  shr_fexp 53 1024 (m0 * 2 ^ n) e loc_Exact =
  (Build_shr_record m0 false false, e + n).
Proof.
  intros Hm Hn He. unfold shr_fexp.
  pose proof (pow2_pos n Hn) as Hp.
  assert (HD : Zdigits2 (m0 * 2 ^ n) = 53 + n).
  { apply Zdigits2_unique; [|nia].
    replace (53 + n - 1) with (52 + n) by lia.
    rewrite !pow2_split by lia. nia. }
  rewrite HD, fexp_double by exact He.
  replace (53 + n + e - 53 - e) with n by lia.
  cbn [shr_record_of_loc]. apply shr_exact; lia.
Qed.

(** A mantissa of 53 bits times a power of two is a double as it is. *)
Lemma binary_round_aux_exact (m0 : positive) (ex n : Z) :
  2 ^ 52 <= Z.pos m0 < 2 ^ 53 -> 0 <= n -> -1021 <= 53 + n + ex ->
  binary_round_aux 53 1024 false (Z.pos m0 * 2 ^ n) ex loc_Exact =
  if ex + n <=? 971 then S754_finite false m0 (ex + n)
  else S754_infinity false.
Proof.
  intros Hm Hn He. unfold binary_round_aux.
  rewrite (shr_fexp_exact (Z.pos m0) ex n Hm Hn He).
  cbn [shr_m loc_of_shr_record round_nearest_even].
  pose proof (shr_fexp_exact (Z.pos m0) (ex + n) 0 Hm) as H0.
  rewrite Z.mul_1_r in H0. rewrite H0 by lia.
  cbn [shr_m]. rewrite Z.add_0_r. reflexivity.
Qed.

(** In general the mantissa is cut to its 53 leading bits, or to the next
    integer above them. *)
Lemma binary_round_aux_bounds (p : positive) (ex : Z) (l : location) (D : Z) :
  Z.pos (digits2_pos p) = D -> 53 <= D -> -1021 <= D + ex ->
  binary_round_aux 53 1024 false (Z.pos p) ex l = S754_infinity false \/
  exists m e,
    binary_round_aux 53 1024 false (Z.pos p) ex l = S754_finite false m e /\
    2 ^ 52 <= Z.pos m < 2 ^ 53 /\
    ((e = ex + D - 53 /\ Z.pos p / 2 ^ (D - 53) <= Z.pos m) \/
     e = ex + D - 52).
Proof.
  intros HD H53 He. unfold binary_round_aux.
  destruct (shr_fexp_m (Z.pos p) ex l D) as [H1 H2]; try lia;
    [exact HD|].
  destruct (shr_fexp 53 1024 (Z.pos p) ex l) as [mrs' e'].
  cbn [fst snd] in H1, H2.
  pose proof (round_nearest_even_bounds (shr_m mrs')
                (loc_of_shr_record mrs')) as Hq.
  set (q := round_nearest_even (shr_m mrs') (loc_of_shr_record mrs')) in *.
  pose proof (digits2_pos_bounds p) as [Blo Bhi]. rewrite HD in Blo, Bhi.
  pose proof (pow2_pos (D - 53)) as Hp.
  assert (Hq0 : 2 ^ 52 <= shr_m mrs' < 2 ^ 53).
  { rewrite H2. split.
    - apply Z.div_le_lower_bound; [lia|].
      rewrite <- pow2_split by lia.
      replace (D - 53 + 52) with (D - 1) by lia. exact Blo.
    - apply Z.div_lt_upper_bound; [lia|].
      rewrite <- pow2_split by lia.
      replace (D - 53 + 53) with D by lia. exact Bhi. }
  destruct (Z.eq_dec q (2 ^ 53)) as [E|E].
  - pose proof (shr_fexp_exact (2 ^ 52) e' 1) as Hs.
    replace (2 ^ 52 * 2 ^ 1) with q in Hs by (rewrite E; reflexivity).
    rewrite Hs by lia. cbn [shr_m].
    change (2 ^ 52) with (Z.pos 4503599627370496).
    cbv iota beta.
    destruct (e' + 1 <=? 1024 - 53); [right | left; reflexivity].
    eexists. eexists. split; [reflexivity|].
    split; [lia|]. right. lia.
  - pose proof (shr_fexp_exact q e' 0) as Hs.
    rewrite Z.mul_1_r in Hs. rewrite Hs by lia. cbn [shr_m].
    rewrite Z.add_0_r.
    destruct q as [|m|m]; [lia| |lia].
    destruct (e' <=? 1024 - 53); [right | left; reflexivity].
    exists m, e'. split; [reflexivity|].
    split; [lia|]. left. split; [lia|]. rewrite <- H2. lia.
Qed.

(** Conversion of an integer. *)

Lemma shift_pos_value (p d : positive) :
  Z.pos (Pos.iter xO p d) = Z.pos p * 2 ^ Z.pos d.
Proof.
  pose proof (shift_pos_correct d p) as H. unfold shift_pos in H.
  rewrite H, Z.pow_pos_fold. lia.
Qed.

(** An integer of at most 53 bits is converted exactly. *)
Lemma double_of_size_small (p : positive) (D : Z) :
  Z.pos (digits2_pos p) = D -> D <= 53 ->
  exists m,
    double_of_size (Z.pos p) = S754_finite false m (D - 53) /\
    Z.pos m = Z.pos p * 2 ^ (53 - D).
Proof.
  intros HD H53. pose proof (digits2_pos_bounds p) as [Blo Bhi].
  rewrite HD in Blo, Bhi. assert (H1 : 1 <= D) by lia.
  unfold double_of_size, DBL_MANT_DIG, DBL_MAX_EXP, binary_normalize,
    binary_round.
  rewrite HD, Z.add_0_r, fexp_double by lia. unfold shl_align.
  destruct (D - 53 - 0) as [|d|d] eqn:Ed; [|lia|].
  - assert (E53 : D = 53) by lia. rewrite E53 in *.
    change (2 ^ (53 - 1)) with (2 ^ 52) in Blo.
    pose proof (binary_round_aux_exact p 0 0 (conj Blo Bhi)) as H.
    rewrite Z.mul_1_r in H. rewrite H by lia.
    exists p. split; [reflexivity|]. change (2 ^ (53 - 53)) with 1. lia.
  - pose proof (shift_pos_value p d) as Hv.
    assert (Hd : Z.pos d = 53 - D) by lia. rewrite Hd in Hv.
    pose proof (pow2_pos (53 - D)) as Hp.
    assert (Hm : 2 ^ 52 <= Z.pos (Pos.iter xO p d) < 2 ^ 53).
    { rewrite Hv.
      rewrite (pow2_sum 52 (D - 1) (53 - D)) by lia.
      rewrite (pow2_sum 53 D (53 - D)) by lia. nia. }
    pose proof (binary_round_aux_exact (Pos.iter xO p d) (D - 53) 0 Hm) as H.
    rewrite Z.mul_1_r in H. rewrite H by lia. rewrite !Z.add_0_r.
    replace (D - 53 <=? 971) with true by (symmetry; apply Z.leb_le; lia).
    eexists. split; [reflexivity | exact Hv].
Qed.

(** A longer one is cut to 53 bits, rounded up or down. *)
Lemma double_of_size_large (p : positive) (D : Z) :
  Z.pos (digits2_pos p) = D -> 53 <= D ->
  double_of_size (Z.pos p) = S754_infinity false \/
  exists m e,
    double_of_size (Z.pos p) = S754_finite false m e /\
    2 ^ 52 <= Z.pos m < 2 ^ 53 /\
    ((e = D - 53 /\ Z.pos p / 2 ^ (D - 53) <= Z.pos m) \/ e = D - 52).
Proof.
  intros HD H53.
  unfold double_of_size, DBL_MANT_DIG, DBL_MAX_EXP, binary_normalize,
    binary_round.
  rewrite HD, Z.add_0_r, fexp_double by lia. unfold shl_align.
  destruct (D - 53 - 0) as [|d|d] eqn:Ed; [| |lia];
    apply (binary_round_aux_bounds p 0 loc_Exact D HD H53); lia.
Qed.

Lemma double_of_size_pow2 (k : Z) :
  0 <= k <= 60 ->
  double_of_size (2 ^ k) = S754_finite false 4503599627370496 (k - 52).
Proof.
  intros Hk. replace k with (Z.of_nat (Z.to_nat k)) by lia.
  assert (Hn : (Z.to_nat k <= 60)%nat) by lia.
  generalize dependent (Z.to_nat k). intros n Hn.
  do 61 (destruct n as [|n]; [vm_compute; reflexivity|]). lia.
Qed.

(** Division by a power of two, comparison with the threshold. *)

Lemma Z_div_eucl_eq (a b : Z) : Z.div_eucl a b = (a / b, a mod b).
Proof. unfold Z.div, Z.modulo. destruct (Z.div_eucl a b). reflexivity. Qed.

Lemma double_div_pow2 (m : positive) (e k : Z) :
  2 ^ 52 <= Z.pos m < 2 ^ 53 -> -1021 <= e - k + 52 ->
  double_div (S754_finite false m e)
    (S754_finite false 4503599627370496 (k - 52)) =
  if e - k <=? 971 then S754_finite false m (e - k)
  else S754_infinity false.
Proof.
  intros Hm He.
  unfold double_div, DBL_MANT_DIG, DBL_MAX_EXP, SFdiv, SFdiv_core_binary.
  rewrite (Zdigits2_unique (Z.pos m) 53) by (try exact Hm; lia).
  change (Zdigits2 (Z.pos 4503599627370496)) with 53.
  replace (53 + e - (53 + (k - 52))) with (e - k + 52) by lia.
  rewrite fexp_double by exact He.
  replace (Z.min (e - k + 52 - 53) (e - (k - 52))) with (e - k - 1) by lia.
  replace (e - (k - 52) - (e - k - 1)) with 53 by lia.
  cbv iota beta. rewrite Z.shiftl_mul_pow2 by lia.
  rewrite Z_div_eucl_eq.
  replace (Z.pos m * 2 ^ 53) with (2 * Z.pos m * Z.pos 4503599627370496)
    by (change (Z.pos 4503599627370496) with (2 ^ 52);
        change (2 ^ 53) with (2 * 2 ^ 52); lia).
  rewrite Z.div_mul, Z.mod_mul by lia.
  change (new_location (Z.pos 4503599627370496) 0) with loc_Exact.
  cbv iota beta. cbn [xorb].
  pose proof (binary_round_aux_exact m (e - k - 1) 1 Hm) as H.
  replace (Z.pos m * 2 ^ 1) with (2 * Z.pos m) in H by lia.
  rewrite H by lia.
  replace (e - k - 1 + 1) with (e - k) by lia. reflexivity.
Qed.

Lemma LOAD_THRESHOLD_value :
  LOAD_THRESHOLD = S754_finite false 6755399441055744 (-53).
Proof. vm_compute. reflexivity. Qed.

Lemma double_ge_threshold (m : positive) (e : Z) :
  double_ge (S754_finite false m e) LOAD_THRESHOLD =
  (-53 <? e) || ((e =? -53) && (3 * 2 ^ 51 <=? Z.pos m)).
Proof.
  rewrite LOAD_THRESHOLD_value. unfold double_ge, SFleb, SFcompare.
  destruct (Z.compare_spec (-53) e) as [E|E|E].
  - subst e. cbn [Z.ltb Z.compare Z.eqb orb andb Pos.eqb].
    change (3 * 2 ^ 51) with (Z.pos 6755399441055744).
    unfold Z.leb. cbn [Z.compare]. fold (Pos.compare 6755399441055744 m).
    destruct (6755399441055744 ?= m)%positive; reflexivity.
  - replace (-53 <? e) with true by (symmetry; apply Z.ltb_lt; lia).
    reflexivity.
  - replace (-53 <? e) with false by (symmetry; apply Z.ltb_ge; lia).
    replace (e =? -53) with false by (symmetry; apply Z.eqb_neq; lia).
    reflexivity.
Qed.

(** The load test on a power-of-two capacity. *)

Lemma double_ge_infinity :
  double_ge (S754_infinity false) LOAD_THRESHOLD = true.
Proof. rewrite LOAD_THRESHOLD_value. reflexivity. Qed.

Lemma load_test_pos (p : positive) (k : Z) :
  0 <= k <= 60 ->
  LOAD_THRESHOLD_NUM * 2 ^ k <= LOAD_THRESHOLD_DEN * Z.pos p ->
  double_ge (double_div (double_of_size (Z.pos p)) (double_of_size (2 ^ k)))
    LOAD_THRESHOLD = true.
Proof.
  unfold LOAD_THRESHOLD_NUM, LOAD_THRESHOLD_DEN. intros Hk Hload.
  pose proof (digits2_pos_bounds p) as [Blo Bhi].
  set (D := Z.pos (digits2_pos p)) in *.
  assert (HD1 : 1 <= D) by (unfold D; lia).
  pose proof (pow2_pos k) as Hpk.
  assert (HkD : k <= D).
  { destruct (Z.le_gt_cases k D) as [H|H]; [exact H|]. exfalso.
    assert (H2 : 2 ^ (D + 1) <= 2 ^ k) by (apply Z.pow_le_mono_r; lia).
    rewrite (pow2_sum (D + 1) D 1) in H2 by lia.
    change (2 ^ 1) with 2 in H2. lia. }
  rewrite double_of_size_pow2 by exact Hk.
  destruct (Z.le_gt_cases D 53) as [Hs|Hl].
  - destruct (double_of_size_small p D eq_refl Hs) as [m [-> Hm]].
    pose proof (pow2_pos (53 - D)) as Hp.
    assert (Hmb : 2 ^ 52 <= Z.pos m < 2 ^ 53).
    { rewrite Hm.
      rewrite (pow2_sum 52 (D - 1) (53 - D)) by lia.
      rewrite (pow2_sum 53 D (53 - D)) by lia. nia. }
    rewrite double_div_pow2 by (try exact Hmb; lia).
    replace (D - 53 - k <=? 971) with true by (symmetry; apply Z.leb_le; lia).
    rewrite double_ge_threshold. apply orb_true_iff.
    destruct (Z.eq_dec k D) as [E|E].
    + right. apply andb_true_iff. split; [apply Z.eqb_eq; lia|].
      apply Z.leb_le. rewrite Hm.
      rewrite E in Hload.
      assert (H53 : 2 ^ 53 = 2 ^ D * 2 ^ (53 - D))
        by (apply pow2_sum; lia).
      change (2 ^ 53) with (4 * 2 ^ 51) in H53. nia.
    + left. apply Z.ltb_lt. lia.
  - destruct (double_of_size_large p D eq_refl) as [-> | [m [e [-> [Hmb He]]]]];
      [lia | reflexivity |].
    rewrite double_div_pow2 by (try exact Hmb; lia).
    destruct (e - k <=? 971); [|apply double_ge_infinity].
    rewrite double_ge_threshold. apply orb_true_iff.
    destruct He as [[He Hq] | He]; [|left; apply Z.ltb_lt; lia].
    destruct (Z.eq_dec k D) as [E|E]; [|left; apply Z.ltb_lt; lia].
    right. apply andb_true_iff. split; [apply Z.eqb_eq; lia|].
    apply Z.leb_le. apply Z.le_trans with (2 := Hq).
    pose proof (pow2_pos (D - 53)) as Hp.
    apply Z.div_le_lower_bound; [lia|].
    rewrite E in Hload.
    assert (HD : 2 ^ D = 2 ^ (D - 53) * 2 ^ 53) by (apply pow2_sum; lia).
    change (2 ^ 53) with (4 * 2 ^ 51) in HD. nia.
Qed.

(** With the quotient at or above 3/4 and a power-of-two capacity, the test
    of the code succeeds. *)
Lemma load_test_true (occ k : Z) :
  0 <= k <= 60 ->
  LOAD_THRESHOLD_NUM * 2 ^ k <= LOAD_THRESHOLD_DEN * occ ->
  double_ge (double_div (double_of_size occ) (double_of_size (2 ^ k)))
    LOAD_THRESHOLD = true.
Proof.
  intros Hk Hload. pose proof (pow2_pos k) as Hp.
  destruct occ as [|p|p];
    [unfold LOAD_THRESHOLD_NUM, LOAD_THRESHOLD_DEN in Hload; lia
    | apply load_test_pos; assumption
    | unfold LOAD_THRESHOLD_NUM, LOAD_THRESHOLD_DEN in Hload; lia].
Qed.

(** Up to the capacity [2^53] all conversions are exact, and the test fails
    below 3/4. *)
Lemma load_test_false (occ k : Z) :
  0 <= k <= 53 -> 0 <= occ ->
  LOAD_THRESHOLD_DEN * occ < LOAD_THRESHOLD_NUM * 2 ^ k ->
  double_ge (double_div (double_of_size occ) (double_of_size (2 ^ k)))
    LOAD_THRESHOLD = false.
Proof.
  unfold LOAD_THRESHOLD_NUM, LOAD_THRESHOLD_DEN. intros Hk Hocc Hload.
  rewrite double_of_size_pow2 by lia.
  destruct occ as [|p|p]; [|clear Hocc|lia].
  - rewrite LOAD_THRESHOLD_value. reflexivity.
  - pose proof (digits2_pos_bounds p) as [Blo Bhi].
    set (D := Z.pos (digits2_pos p)) in *.
    assert (HD1 : 1 <= D) by (unfold D; lia).
    pose proof (pow2_pos k) as Hpk.
    assert (HDk : D <= k).
    { destruct (Z.le_gt_cases D k) as [H|H]; [exact H|]. exfalso.
      assert (H2 : 2 ^ k <= 2 ^ (D - 1)) by (apply Z.pow_le_mono_r; lia).
      lia. }
    destruct (double_of_size_small p D eq_refl) as [m [-> Hm]]; [lia|].
    pose proof (pow2_pos (53 - D)) as Hp.
    assert (Hmb : 2 ^ 52 <= Z.pos m < 2 ^ 53).
    { rewrite Hm.
      rewrite (pow2_sum 52 (D - 1) (53 - D)) by lia.
      rewrite (pow2_sum 53 D (53 - D)) by lia. nia. }
    rewrite double_div_pow2 by (try exact Hmb; lia).
    replace (D - 53 - k <=? 971) with true by (symmetry; apply Z.leb_le; lia).
    rewrite double_ge_threshold. apply orb_false_iff.
    split; [apply Z.ltb_ge; lia|].
    destruct (Z.eq_dec D k) as [E|E].
    + apply andb_false_iff. right. apply Z.leb_gt. rewrite Hm.
      rewrite <- E in Hload.
      assert (H53 : 2 ^ 53 = 2 ^ D * 2 ^ (53 - D))
        by (apply pow2_sum; lia).
      change (2 ^ 53) with (4 * 2 ^ 51) in H53. nia.
    + apply andb_false_iff. left. apply Z.eqb_neq. lia.
Qed.

Lemma WF_capacity_pow2 (t : hashtab_s) :
  WF t -> exists k, 0 <= k <= 60 /\ capacity t = 2 ^ k.
Proof.
  intros [[k [Hk E]] [Hm _]]. exists k. split; [|exact E].
  split; [exact Hk|].
  destruct (Z.le_gt_cases k 60) as [H|H]; [exact H|]. exfalso.
  assert (H2 : 2 ^ 61 <= 2 ^ k) by (apply Z.pow_le_mono_r; lia).
  rewrite E in Hm. unfold SIZE_MAX, SIZE_MODULUS, sizeof_KeyValuePair in Hm.
  change (2 ^ 61) with 2305843009213693952 in H2.
  change (2 ^ 64) with 18446744073709551616 in Hm. lia.
Qed.

Lemma load_exceeded_true (t : hashtab_s) :
  WF t ->
  LOAD_THRESHOLD_NUM * capacity t <= LOAD_THRESHOLD_DEN * occupancy t ->
  load_exceeded t = true.
Proof.
  intros Hwf H. destruct (WF_capacity_pow2 t Hwf) as [k [Hk E]].
  unfold load_exceeded. cbv zeta. rewrite E in *.
  apply load_test_true; assumption.
Qed.

Lemma load_exceeded_false (t : hashtab_s) :
  WF t -> load_exceeded t = false ->
  LOAD_THRESHOLD_DEN * occupancy t < LOAD_THRESHOLD_NUM * capacity t.
Proof.
  intros Hwf Hl.
  destruct (Z.lt_ge_cases (LOAD_THRESHOLD_DEN * occupancy t)
              (LOAD_THRESHOLD_NUM * capacity t)) as [H|H]; [exact H|].
  rewrite (load_exceeded_true t Hwf H) in Hl. discriminate.
Qed.

(** Up to the capacity [2^53] the test is the comparison of integers. *)
Lemma load_exceeded_below (t : hashtab_s) :
  WF t -> capacity t <= 2 ^ 53 -> 0 <= occupancy t ->
  LOAD_THRESHOLD_DEN * occupancy t < LOAD_THRESHOLD_NUM * capacity t ->
  load_exceeded t = false.
Proof.
  intros Hwf Hc Ho H. destruct (WF_capacity_pow2 t Hwf) as [k [Hk E]].
  unfold load_exceeded. cbv zeta. rewrite E in *.
  apply load_test_false; try assumption.
  split; [lia|]. destruct (Z.le_gt_cases k 53) as [L|L]; [exact L|]. exfalso.
  assert (H2 : 2 ^ 54 <= 2 ^ k) by (apply Z.pow_le_mono_r; lia).
  change (2 ^ 54) with (2 * 2 ^ 53) in H2.
  change (2 ^ 53) with 9007199254740992 in *. lia.
Qed.

(** Beyond it the rounding shows: at capacity [2^54] the occupancy
    [3 * 2^52 - 1] is converted to [3 * 2^52], and the test succeeds below
    3/4. *)
Lemma load_exceeded_rounds_up :
  let t := mkTable (2 ^ 54) (3 * 2 ^ 52 - 1) 0 0 [] in
  LOAD_THRESHOLD_DEN * occupancy t < LOAD_THRESHOLD_NUM * capacity t /\
  load_exceeded t = true /\
  load_exceeded (set_occupancy t (3 * 2 ^ 52 - 2)) = false.
Proof.
  split; [reflexivity|]. split; vm_compute; reflexivity.
Qed.

(** *** The growth block as a whole *)

Lemma ht_grow_inv (fuel : nat) (t t1 : hashtab_s) :
  WF t -> ht_grow fuel t = Ok t1 ->
  (load_exceeded t = false /\ t1 = t) \/
  (load_exceeded t = true /\ mem_available t /\
   exists c N',
     t1 = mkTable (capacity t * RESIZE_FACTOR) (occupancy t) c
            (int_incr (rehashes t)) N' /\
     rehashed (table t) (capacity t) (capacity t * RESIZE_FACTOR) N').
Proof.
  intros Hwf H. unfold ht_grow in H. destruct (load_exceeded t).
  - right. split; [reflexivity|]. apply ht_rehash_inv with (fuel := fuel);
      assumption.
  - left. injection H as <-. split; reflexivity.
Qed.

Lemma ht_grow_total (fuel : nat) (t : hashtab_s) :
  WF t -> mem_available t -> enough_fuel fuel t ->
  exists t1, ht_grow fuel t = Ok t1.
Proof using equals_fcn hash_fcn.
  intros Hwf Hm Hfuel. unfold ht_grow. destruct (load_exceeded t).
  - destruct (ht_rehash_total fuel t Hwf Hm Hfuel) as [c [N' [H _]]].
    eexists. exact H.
  - exists t. reflexivity.
Qed.

Lemma rehashed_WF (t : hashtab_s) (c r o : Z) (N : list KeyValuePair) (n' : Z) :
  rehashed (table t) (capacity t) n' N -> WF (mkTable n' o c r N).
Proof. intros [Hwf _]. exact Hwf. Qed.

Lemma ht_grow_WF (fuel : nat) (t t1 : hashtab_s) :
  WF t -> ht_grow fuel t = Ok t1 -> WF t1.
Proof using equals_fcn hash_fcn.
  intros Hwf H.
  destruct (ht_grow_inv _ _ _ Hwf H)
    as [[_ ->] | [_ [_ [c [N' [-> Hre]]]]]]; [exact Hwf|].
  destruct Hre as [Hwf' _]. exact Hwf'.
Qed.

Lemma ht_grow_capacity (fuel : nat) (t t1 : hashtab_s) :
  WF t -> ht_grow fuel t = Ok t1 ->
  capacity t <= capacity t1 <= capacity t * RESIZE_FACTOR.
Proof using equals_fcn hash_fcn.
  intros Hwf H. pose proof (WF_pos t Hwf) as Hn.
  destruct (ht_grow_inv _ _ _ Hwf H)
    as [[_ ->] | [_ [_ [c [N' [-> Hre]]]]]]; cbn [capacity];
    unfold RESIZE_FACTOR; lia.
Qed.

(** After the growth check the array has an empty slot. *)
Lemma ht_grow_room (fuel : nat) (t t1 : hashtab_s) :
  WF t -> occupancy t = count_occupied (table t) ->
  ht_grow fuel t = Ok t1 ->
  occupancy t1 = occupancy t /\
  occupancy t1 = count_occupied (table t1) /\
  LOAD_THRESHOLD_DEN * occupancy t1 < LOAD_THRESHOLD_NUM * capacity t1.
Proof using equals_fcn hash_fcn.
  intros Hwf Hocc H. pose proof (WF_pos t Hwf) as Hn.
  pose proof (WF_length t Hwf) as Hlen.
  destruct (ht_grow_inv _ _ _ Hwf H)
    as [[Hl ->] | [_ [_ [c [N' [-> Hre]]]]]].
  - split; [reflexivity|]. split; [exact Hocc|].
    apply load_exceeded_false; assumption.
  - cbn [occupancy table capacity]. rewrite <- Hlen in Hre.
    pose proof (rehashed_all_count _ _ _ Hre) as Hc.
    pose proof (count_occupied_bounds (table t)) as Hb.
    split; [reflexivity|]. split; [lia|].
    unfold LOAD_THRESHOLD_DEN, LOAD_THRESHOLD_NUM, RESIZE_FACTOR. lia.
Qed.

Lemma ht_grow_Inv (fuel : nat) (t t1 : hashtab_s) :
  Inv t -> ht_grow fuel t = Ok t1 -> Inv t1.
Proof.
  intros HI H. pose proof HI as [Hwf _].
  destruct (ht_grow_inv _ _ _ Hwf H)
    as [[_ ->] | [_ [_ [c [N' [-> Hre]]]]]]; [exact HI|].
  apply rehashed_Inv; assumption.
Qed.

(** The pairs of the table are the pairs of the grown table. *)
Lemma ht_grow_keeps (fuel : nat) (t t1 : hashtab_s) :
  WF t -> ht_grow fuel t = Ok t1 ->
  (forall i, 0 <= i < capacity t -> occupied (slot (table t) i) ->
     exists a, 0 <= a < capacity t1 /\ slot (table t1) a = slot (table t) i) /\
  (forall a, 0 <= a < capacity t1 -> occupied (slot (table t1) a) ->
     exists i, 0 <= i < capacity t /\ slot (table t1) a = slot (table t) i).
Proof using equals_fcn hash_fcn.
  intros Hwf H.
  destruct (ht_grow_inv _ _ _ Hwf H)
    as [[_ ->] | [_ [_ [c [N' [-> Hre]]]]]].
  - split; intros i Hi Ho; exists i; split; try assumption; reflexivity.
  - destruct Hre as [_ [_ [_ [Hfrom [Hto _]]]]]. cbn [capacity table].
    split; [exact Hto | exact Hfrom].
Qed.

(** *** The placement as a whole *)

Lemma no_full_cycle (T : list KeyValuePair) (n : Z) (k : ptr) (h : Z) :
  0 < n -> Z.of_nat (length T) = n -> count_occupied T < n ->
  ~ full_cycle T n k h.
Proof.
  intros Hn Hlen Hc [Hocc _].
  destruct (first_vacant_exists T n h Hn Hlen Hc) as [d [Hd [_ Hv]]].
  apply Hv. apply Hocc. exact Hd.
Qed.

Lemma ht_place_total (fuel : nat) (t : hashtab_s) (k v : ptr) :
  WF t -> count_occupied (table t) < capacity t ->
  (Z.to_nat (capacity t) <= fuel)%nat ->
  exists r t', ht_place fuel t k v = Ok (r, t').
Proof.
  intros Hwf Hc Hfuel. pose proof (WF_pos t Hwf) as Hn.
  pose proof (WF_length t Hwf) as Hlen.
  destruct (probe_outcome (table t) (capacity t) k (hash_of k) Hn)
    as [[d Hf] | [[d Hv] | Hfull]].
  - pose proof Hf as [Hd _]. do 2 eexists.
    apply ht_place_found; [exact Hwf | exact Hf | lia].
  - pose proof Hv as [Hd _]. do 2 eexists.
    apply ht_place_vacant; [exact Hwf | exact Hv | lia].
  - exfalso. exact (no_full_cycle _ _ _ _ Hn Hlen Hc Hfull).
Qed.

Lemma ht_put_unfold (fuel : nat) (t t1 : hashtab_s) (k v : ptr) :
  ht_grow fuel t = Ok t1 -> ht_put fuel t k v = ht_place fuel t1 k v.
Proof. intros H. unfold ht_put. rewrite H. reflexivity. Qed.

Lemma ht_put_inv (fuel : nat) (t : hashtab_s) (k v r : ptr) (t' : hashtab_s) :
  ht_put fuel t k v = Ok (r, t') ->
  exists t1, ht_grow fuel t = Ok t1 /\ ht_place fuel t1 k v = Ok (r, t').
Proof.
  unfold ht_put. intros H.
  destruct (ht_grow fuel t) as [t1|]; [|discriminate].
  exists t1. split; [reflexivity | exact H].
Qed.

(** [ht_put] returns whenever the doubled array can be allocated. *)
Lemma ht_put_total (fuel : nat) (t : hashtab_s) (k v : ptr) :
  WF t -> occupancy t = count_occupied (table t) ->
  mem_available t -> enough_fuel fuel t ->
  exists r t', ht_put fuel t k v = Ok (r, t').
Proof.
  intros Hwf Hocc Hm Hfuel.
  destruct (ht_grow_total fuel t Hwf Hm Hfuel) as [t1 Hg].
  rewrite (ht_put_unfold _ _ _ _ _ Hg).
  pose proof (ht_grow_WF _ _ _ Hwf Hg) as Hwf1.
  pose proof (WF_pos t1 Hwf1) as Hn1.
  destruct (ht_grow_room _ _ _ Hwf Hocc Hg) as [_ [Hc Hl]].
  pose proof (ht_grow_capacity _ _ _ Hwf Hg) as Hcap.
  apply ht_place_total; try assumption.
  - unfold LOAD_THRESHOLD_DEN, LOAD_THRESHOLD_NUM in Hl. lia.
  - unfold enough_fuel in Hfuel. lia.
Qed.

(** ** The operations of the interface *)

(** C7.  [ht_has] probes the slots [h mod capacity], [(h+1) mod capacity],
    ... for [h = hash_fcn(k)].  It passes [d] occupied slots whose keys do
    not match, adding one to [collisions] for each, and then returns false
    on the first empty slot, true on the first occupied slot whose key
    matches, or false when the probe is back at its start after
    [d = capacity] slots.  A fuel of [capacity] loop iterations is enough:
    the probe ends within one full cycle. *)
Theorem ht_has_probe_spec (t : hashtab_s) (k : ptr) :
  WF t ->
  exists (d : Z) (b : bool),
    0 <= d <= capacity t /\
    ht_has (Z.to_nat (capacity t)) t k =
      Ok (b, set_collisions t (int_incr_n (Z.to_nat d) (collisions t))) /\
    run_occupied (table t) (capacity t) (hash_of k) d /\
    run_nomatch (table t) (capacity t) k (hash_of k) d /\
    ((d < capacity t /\
      ~ occupied (slot (table t) (probe (capacity t) (hash_of k) d)) /\
      b = false) \/
     (d < capacity t /\
      occupied (slot (table t) (probe (capacity t) (hash_of k) d)) /\
      equals_fcn k (key (slot (table t) (probe (capacity t) (hash_of k) d)))
        = true /\
      b = true) \/
     (d = capacity t /\ b = false)).
Proof.
  intros Hwf. pose proof (WF_pos t Hwf) as Hn.
  destruct (probe_outcome (table t) (capacity t) k (hash_of k) Hn)
    as [[d Hf] | [[d Hv] | Hfull]].
  - pose proof Hf as [Hd [Hocc [Hnom Heq]]]. exists d, true.
    split; [lia|]. split; [apply ht_has_found; [exact Hwf | exact Hf | lia]|].
    split; [apply run_occupied_shorter with (d := d + 1); [exact Hocc | lia]|].
    split; [exact Hnom|]. right. left.
    split; [lia|]. split; [apply Hocc; lia|]. split; [exact Heq | reflexivity].
  - pose proof Hv as [Hd [Hocc [Hnom Hvac]]]. exists d, false.
    split; [lia|]. split; [apply ht_has_vacant; [exact Hwf | exact Hv | lia]|].
    split; [exact Hocc|]. split; [exact Hnom|]. left.
    split; [lia|]. split; [exact Hvac | reflexivity].
  - pose proof Hfull as [Hocc Hnom]. exists (capacity t), false.
    split; [lia|]. split; [apply ht_has_full; [exact Hwf | exact Hfull | lia]|].
    split; [exact Hocc|]. split; [exact Hnom|]. right. right.
    split; reflexivity.
Qed.

(** C2, as amended.  When [ht_has(t, k)] is true, [ht_get(t, k)] returns the
    value of the slot whose key matches [k].  Its own loop counts nothing,
    but the [ht_has] call of its assertion does: the table after [ht_get] is
    the table after [ht_has], that is, [collisions] has grown by the number
    [d] of non-matching occupied slots before the match and nothing else
    has changed. *)
Theorem ht_get_returns_match_and_counts (fuel fuel' : nat) (t : hashtab_s)
    (k : ptr) (t1 : hashtab_s) :
  WF t -> ht_has fuel t k = Ok (true, t1) ->
  (Z.to_nat (capacity t) <= fuel')%nat ->
  exists d,
    found_at (table t) (capacity t) k (hash_of k) d /\
    ht_get fuel' t k =
      Ok (value (slot (table t) (probe (capacity t) (hash_of k) d)), t1) /\
    t1 = set_collisions t (int_incr_n (Z.to_nat d) (collisions t)).
Proof.
  intros Hwf Hhas Hfuel.
  destruct (ht_has_inv _ _ _ _ _ Hwf Hhas)
    as [[d [Hf [_ Ht1]]] | [[d [_ [Hb _]]] | [_ [Hb _]]]]; try discriminate.
  exists d. split; [exact Hf|]. split; [|exact Ht1].
  rewrite Ht1. pose proof Hf as [Hd _].
  apply ht_get_found; [exact Hwf | exact Hf | lia].
Qed.

(** C3.  When [occupancy / capacity >= LOAD_THRESHOLD] holds on entry,
    [ht_put] first runs the growth block, which multiplies [capacity] by
    [RESIZE_FACTOR] and increments [rehashes] once, and only then places
    its own pair, in the grown table; the placement changes neither
    field.  The hypothesis compares the exact quotient with 3/4; the test
    the code makes in double precision then succeeds
    ([load_exceeded_true]). *)
Theorem ht_put_grows_first (fuel : nat) (t : hashtab_s) (k v : ptr) :
  WF t ->
  LOAD_THRESHOLD_NUM * capacity t <= LOAD_THRESHOLD_DEN * occupancy t ->
  mem_available t -> enough_fuel fuel t ->
  exists t1 r t',
    ht_grow fuel t = Ok t1 /\
    capacity t1 = capacity t * RESIZE_FACTOR /\
    rehashes t1 = int_incr (rehashes t) /\
    ht_put fuel t k v = Ok (r, t') /\
    ht_place fuel t1 k v = Ok (r, t') /\
    capacity t' = capacity t * RESIZE_FACTOR /\
    rehashes t' = int_incr (rehashes t) /\
    (INT_MIN <= rehashes t < INT_MAX -> rehashes t' = rehashes t + 1).
Proof.
  intros Hwf Hload Hm Hfuel. pose proof (WF_pos t Hwf) as Hn.
  pose proof (WF_length t Hwf) as Hlen.
  pose proof (load_exceeded_true t Hwf Hload) as Hl.
  destruct (ht_grow_total fuel t Hwf Hm Hfuel) as [t1 Hg].
  destruct (ht_grow_inv _ _ _ Hwf Hg)
    as [[Hl' _] | [_ [_ [c [N' [Ht1 Hre]]]]]]; [congruence|].
  pose proof (ht_grow_WF _ _ _ Hwf Hg) as Hwf1.
  assert (Hroom : count_occupied (table t1) < capacity t1).
  { rewrite Ht1. cbn [table capacity].
    pose proof (rehashed_count_bound _ _ _ _ Hre). unfold RESIZE_FACTOR. lia. }
  destruct (ht_place_total fuel t1 k v Hwf1 Hroom) as [r [t' Hp]].
  { rewrite Ht1. cbn [capacity]. exact Hfuel. }
  assert (Hsame : capacity t' = capacity t1 /\ rehashes t' = rehashes t1).
  { destruct (ht_place_inv _ _ _ _ _ _ Hwf1 Hp)
      as [[d [_ [_ ->]]] | [d [_ [_ ->]]]]; split; reflexivity. }
  destruct Hsame as [Hc Hr].
  exists t1, r, t'. rewrite Hc, Hr, Ht1. cbn [capacity rehashes].
  split; [rewrite <- Ht1; exact Hg|].
  split; [reflexivity|]. split; [reflexivity|].
  split; [rewrite (ht_put_unfold _ _ _ _ _ Hg); exact Hp|].
  split; [rewrite <- Ht1; exact Hp|].
  split; [reflexivity|]. split; [reflexivity|].
  apply int_incr_exact.
Qed.

(** C5.  Every returning [ht_put], through the growth block or not, leaves
    the probe sequences free of holes: for an occupied slot [i] whose key
    has hash [h], all slots from [h mod capacity] up to but excluding [i]
    on the probe sequence are occupied. *)
Theorem ht_put_keeps_probe_sequences (fuel : nat) (t : hashtab_s)
    (k v r : ptr) (t' : hashtab_s) :
  WF t -> probe_ok (capacity t) (table t) ->
  ht_put fuel t k v = Ok (r, t') ->
  WF t' /\ probe_ok (capacity t') (table t').
Proof.
  intros Hwf Hok H.
  destruct (ht_put_inv _ _ _ _ _ _ H) as [t1 [Hg Hp]].
  pose proof (ht_grow_WF _ _ _ Hwf Hg) as Hwf1.
  assert (Hok1 : probe_ok (capacity t1) (table t1)).
  { destruct (ht_grow_inv _ _ _ Hwf Hg)
      as [[_ ->] | [_ [_ [c [N' [-> Hre]]]]]]; [exact Hok|].
    destruct Hre as [_ [Hok' _]]. exact Hok'. }
  destruct (ht_place_inv _ _ _ _ _ _ Hwf1 Hp)
    as [[d [Hf [_ ->]]] | [d [Hv [_ ->]]]]; cbn [capacity table].
  - split; [apply wf_slots_upd; exact Hwf1|].
    apply probe_ok_ext with (T := table t1); [|exact Hok1].
    apply upd_value_keys_slot.
  - split; [apply wf_slots_upd; exact Hwf1|].
    apply place_probe_ok; assumption.
Qed.

(** *** Keys that are present, keys that are absent *)

(** A slot matching [k] makes every lookup of [k] end there. *)
Lemma found_at_slot (t : hashtab_s) (k : ptr) (i : Z) :
  client_contract -> Inv t ->
  0 <= i < capacity t -> occupied (slot (table t) i) ->
  equals_fcn k (key (slot (table t) i)) = true ->
  exists d, found_at (table t) (capacity t) k (hash_of k) d /\
            probe (capacity t) (hash_of k) d = i.
Proof.
  intros Hc [Hwf [_ [Hdist Hok]]] Hi Ho He.
  exists (displacement (table t) (capacity t) i).
  apply holds_found; try assumption. apply WF_pos. exact Hwf.
Qed.

Lemma found_at_matches (T : list KeyValuePair) (n : Z) (k : ptr) (h d : Z) :
  found_at T n k h d ->
  occupied (slot T (probe n h d)) /\
  equals_fcn k (key (slot T (probe n h d))) = true.
Proof.
  intros [Hd [Hocc [_ He]]]. split; [apply Hocc; lia | exact He].
Qed.

(** A probe that ends without a match means no slot matches. *)
Lemma not_found_absent (t : hashtab_s) (k : ptr) :
  client_contract -> Inv t ->
  (exists d, vacant_at (table t) (capacity t) k (hash_of k) d) \/
  full_cycle (table t) (capacity t) k (hash_of k) ->
  forall i, 0 <= i < capacity t -> occupied (slot (table t) i) ->
    equals_fcn k (key (slot (table t) i)) = false.
Proof.
  intros Hc HI Hcase i Hi Ho. pose proof HI as [Hwf [_ [Hdist Hok]]].
  pose proof (WF_pos t Hwf) as Hn.
  destruct Hcase as [[d Hv] | [_ Hnom]].
  - apply (vacant_fresh (table t) (capacity t) k d i); assumption.
  - rewrite <- (probe_reaches (capacity t) (hash_of k) i Hn Hi).
    apply Hnom. apply Z.mod_pos_bound. exact Hn.
Qed.

(** What [ht_put] leaves behind: the invariant, and [k] bound to [v]. *)
Lemma ht_put_Inv (fuel : nat) (t : hashtab_s) (k v r : ptr) (t' : hashtab_s) :
  client_contract -> Inv t -> k <> NULL ->
  ht_put fuel t k v = Ok (r, t') ->
  Inv t' /\
  exists d, found_at (table t') (capacity t') k (hash_of k) d /\
    value (slot (table t') (probe (capacity t') (hash_of k) d)) = v.
Proof.
  intros Hc HI Hk H.
  destruct (ht_put_inv _ _ _ _ _ _ H) as [t1 [Hg Hp]].
  pose proof (ht_grow_Inv _ _ _ HI Hg) as HI1. pose proof HI1 as [Hwf1 _].
  destruct (ht_place_inv _ _ _ _ _ _ Hwf1 Hp)
    as [[d [Hf [_ ->]]] | [d [Hv [_ ->]]]]; cbn [capacity table].
  - split; [apply update_Inv; exact HI1|].
    exists d. apply found_after_update; assumption.
  - split; [apply place_Inv; assumption|].
    exists d. apply found_after_place; try assumption. apply Hc.
Qed.

(** [ht_put] on a key that is present: the old value comes back and the
    occupancy stays. *)
Lemma ht_put_present (fuel : nat) (t : hashtab_s) (k v : ptr) (d : Z) :
  client_contract -> Inv t ->
  found_at (table t) (capacity t) k (hash_of k) d ->
  mem_available t -> enough_fuel fuel t ->
  exists t',
    ht_put fuel t k v =
      Ok (value (slot (table t) (probe (capacity t) (hash_of k) d)), t') /\
    occupancy t' = occupancy t /\ Inv t' /\
    exists d', found_at (table t') (capacity t') k (hash_of k) d' /\
      value (slot (table t') (probe (capacity t') (hash_of k) d')) = v.
Proof.
  intros Hc HI Hf Hm Hfuel. pose proof HI as [Hwf [Hocc _]].
  pose proof (WF_pos t Hwf) as Hn.
  destruct (ht_grow_total fuel t Hwf Hm Hfuel) as [t1 Hg].
  pose proof (ht_grow_Inv _ _ _ HI Hg) as HI1. pose proof HI1 as [Hwf1 _].
  destruct (ht_grow_keeps _ _ _ Hwf Hg) as [Hto _].
  destruct (ht_grow_room _ _ _ Hwf Hocc Hg) as [Ho1 _].
  pose proof (ht_grow_capacity _ _ _ Hwf Hg) as Hcap.
  destruct (found_at_matches _ _ _ _ _ Hf) as [Hop Hep].
  destruct (Hto (probe (capacity t) (hash_of k) d)) as [a [Ha Ea]];
    [apply probe_range; exact Hn | exact Hop |].
  destruct (found_at_slot t1 k a Hc HI1 Ha) as [d1 [Hf1 Hp1]];
    [rewrite Ea; exact Hop | rewrite Ea; exact Hep |].
  pose proof Hf1 as [Hd1 _].
  assert (Hfu : (Z.to_nat d1 < fuel)%nat)
    by (unfold enough_fuel in Hfuel; lia).
  pose proof (ht_place_found fuel t1 k v d1 Hwf1 Hf1 Hfu) as Hp.
  rewrite <- (ht_put_unfold _ _ _ _ _ Hg) in Hp.
  destruct (found_after_update t1 k v d1 Hwf1 Hf1) as [Hf' Hv'].
  rewrite Hp1 in Hp at 1. rewrite Ea in Hp at 1.
  eexists. split; [exact Hp|]. cbn [occupancy capacity table].
  split; [exact Ho1|]. split; [apply update_Inv; exact HI1|].
  exists d1. split; [exact Hf' | exact Hv'].
Qed.


(** C4.  The growth block keeps the content: it returns, the new array
    holds every occupied pair of the old one, [occupancy] is unchanged, and
    whatever [ht_get] returned for a key before it returns after. *)
Theorem ht_rehash_preserves_content (fuel : nat) (t : hashtab_s) :
  client_contract -> Inv t -> mem_available t -> enough_fuel fuel t ->
  exists t',
    ht_rehash fuel t = Ok t' /\
    occupancy t' = occupancy t /\
    (forall i, 0 <= i < capacity t -> occupied (slot (table t) i) ->
       exists a, 0 <= a < capacity t' /\
                 slot (table t') a = slot (table t) i) /\
    (forall k v t1, ht_get fuel t k = Ok (v, t1) ->
       exists t2, ht_get fuel t' k = Ok (v, t2)).
Proof.
  intros Hc HI Hm Hfuel. pose proof HI as [Hwf _].
  pose proof (WF_pos t Hwf) as Hn.
  destruct (ht_rehash_total fuel t Hwf Hm Hfuel) as [c [N' [Hrun Hre]]].
  pose proof (rehashed_Inv t c (int_incr (rehashes t)) N' _ HI Hre) as HI'.
  pose proof Hre as [_ [_ [_ [_ [Hto _]]]]].
  eexists. split; [exact Hrun|]. cbn [occupancy capacity table].
  split; [reflexivity|]. split; [exact Hto|].
  intros k v t1 Hget.
  destruct (ht_get_inv _ _ _ _ _ Hwf Hget) as [d [Hf [-> _]]].
  destruct (found_at_matches _ _ _ _ _ Hf) as [Hop Hep].
  destruct (Hto (probe (capacity t) (hash_of k) d)) as [a [Ha Ea]];
    [apply probe_range; exact Hn | exact Hop |].
  destruct (found_at_slot _ k a Hc HI' Ha) as [d1 [Hf1 Hp1]];
    cbn [capacity table]; [rewrite Ea; exact Hop | rewrite Ea; exact Hep |].
  cbn [capacity table] in Hf1, Hp1. pose proof Hf1 as [Hd1 _].
  eexists. rewrite <- Ea, <- Hp1.
  pose proof HI' as [Hwf' _].
  apply (ht_get_found fuel _ k d1 Hwf' Hf1).
  unfold enough_fuel in Hfuel. lia.
Qed.

(** C6.  For a key other than the sentinel NULL: after
    [ht_put(t, k, v1)], [ht_put(t, k, v2)] returns [v1] and leaves
    [occupancy] as it is, and [ht_get(t, k)] then returns [v2]. *)
Theorem ht_put_twice_updates (fuel fuel' : nat) (t : hashtab_s)
    (k v1 v2 r1 : ptr) (t1 : hashtab_s) :
  client_contract -> Inv t -> k <> NULL ->
  ht_put fuel t k v1 = Ok (r1, t1) ->
  mem_available t1 -> enough_fuel fuel' t1 ->
  exists t2,
    ht_put fuel' t1 k v2 = Ok (v1, t2) /\
    occupancy t2 = occupancy t1 /\
    exists t3, ht_get fuel' t2 k = Ok (v2, t3).
Proof.
  intros Hc HI Hk H1 Hm Hfuel.
  destruct (ht_put_Inv _ _ _ _ _ _ Hc HI Hk H1) as [HI1 [d [Hf Hv]]].
  destruct (ht_put_present fuel' t1 k v2 d Hc HI1 Hf Hm Hfuel)
    as [t2 [H2 [Ho [HI2 [d' [Hf' Hv']]]]]].
  rewrite Hv in H2. exists t2. split; [exact H2|]. split; [exact Ho|].
  pose proof HI1 as [Hwf1 _]. pose proof HI2 as [Hwf2 _].
  destruct (ht_put_inv _ _ _ _ _ _ H2) as [tg [Hg Hp]].
  pose proof (ht_grow_capacity _ _ _ Hwf1 Hg) as Hcap.
  pose proof (ht_grow_WF _ _ _ Hwf1 Hg) as Hwfg.
  assert (Hc2 : capacity t2 = capacity tg).
  { destruct (ht_place_inv _ _ _ _ _ _ Hwfg Hp)
      as [[e [_ [_ ->]]] | [e [_ [_ ->]]]]; reflexivity. }
  pose proof Hf' as [Hd' _].
  eexists. rewrite <- Hv'.
  apply (ht_get_found fuel' t2 k d' Hwf2 Hf').
  unfold enough_fuel in Hfuel. lia.
Qed.


(** *** Tables the interface can build *)

Lemma ht_create_inv (t : hashtab_s) :
  ht_create = Ok t ->
  INITIAL_CAPACITY * sizeof_KeyValuePair <= SIZE_MAX /\
  t = mkTable INITIAL_CAPACITY 0 0 0
        (repeat empty_pair (Z.to_nat INITIAL_CAPACITY)).
Proof.
  unfold ht_create, calloc_pairs.
  destruct (Z.leb_spec (INITIAL_CAPACITY * sizeof_KeyValuePair) SIZE_MAX)
    as [Hle|]; [|discriminate].
  intros H. injection H as <-. split; [exact Hle | reflexivity].
Qed.

Lemma ht_create_Inv (t : hashtab_s) :
  is_pow2 INITIAL_CAPACITY -> ht_create = Ok t -> Inv t.
Proof.
  intros Hp H. destruct (ht_create_inv t H) as [Hm ->].
  pose proof (rehashed_start [] INITIAL_CAPACITY Hp Hm)
    as [Hwf [Hok [Hc [_ [_ Hd]]]]].
  split; [exact Hwf|]. cbn [occupancy table capacity].
  split; [rewrite count_occupied_repeat_empty; reflexivity|].
  split; [|exact Hok].
  apply Hd. intros i j Hi. simpl in Hi. lia.
Qed.

Lemma ht_has_only_counts (fuel : nat) (t : hashtab_s) (k : ptr) (b : bool)
    (t' : hashtab_s) :
  WF t -> ht_has fuel t k = Ok (b, t') ->
  exists c, t' = set_collisions t c.
Proof.
  intros Hwf H.
  destruct (ht_has_inv _ _ _ _ _ Hwf H)
    as [[d [_ [_ ->]]] | [[d [_ [_ ->]]] | [_ [_ ->]]]]; eexists; reflexivity.
Qed.

Lemma ht_get_only_counts (fuel : nat) (t : hashtab_s) (k v : ptr)
    (t' : hashtab_s) :
  WF t -> ht_get fuel t k = Ok (v, t') ->
  exists c, t' = set_collisions t c.
Proof.
  intros Hwf H. destruct (ht_get_inv _ _ _ _ _ Hwf H) as [d [_ [_ ->]]].
  eexists. reflexivity.
Qed.

(** Every reachable table satisfies the invariant. *)
Lemma reachable_Inv (t : hashtab_s) :
  client_contract -> is_pow2 INITIAL_CAPACITY -> reachable t -> Inv t.
Proof.
  intros Hc Hp Hr. induction Hr as
      [t Hcr | fuel t k v r t' Hr IH Hk Hput | fuel t k b t' Hr IH Hhas
       | fuel t k v t' Hr IH Hget].
  - apply ht_create_Inv; assumption.
  - apply (ht_put_Inv _ _ _ _ _ _ Hc IH Hk Hput).
  - pose proof IH as [Hwf _].
    destruct (ht_has_only_counts _ _ _ _ _ Hwf Hhas) as [c ->]. exact IH.
  - pose proof IH as [Hwf _].
    destruct (ht_get_only_counts _ _ _ _ _ Hwf Hget) as [c ->]. exact IH.
Qed.

(** One [ht_put] keeps a table of capacity 4 or more from filling up. *)
Lemma ht_put_keeps_room (fuel : nat) (t : hashtab_s) (k v r : ptr)
    (t' : hashtab_s) :
  WF t -> occupancy t = count_occupied (table t) ->
  4 <= capacity t -> k <> NULL ->
  ht_put fuel t k v = Ok (r, t') ->
  WF t' /\ occupancy t' = count_occupied (table t') /\
  4 <= capacity t' /\ occupancy t' < capacity t'.
Proof.
  intros Hwf Hocc H4 Hk H.
  destruct (ht_put_inv _ _ _ _ _ _ H) as [t1 [Hg Hp]].
  pose proof (ht_grow_WF _ _ _ Hwf Hg) as Hwf1.
  pose proof (WF_pos t1 Hwf1) as Hn1. pose proof (WF_length t1 Hwf1) as Hlen1.
  destruct (ht_grow_room _ _ _ Hwf Hocc Hg) as [Ho1 [Hc1 Hl1]].
  pose proof (ht_grow_capacity _ _ _ Hwf Hg) as Hcap.
  unfold LOAD_THRESHOLD_DEN, LOAD_THRESHOLD_NUM in Hl1.
  destruct (ht_place_inv _ _ _ _ _ _ Hwf1 Hp)
    as [[d [Hf [_ ->]]] | [d [Hv [_ ->]]]]; cbn [capacity occupancy table].
  - split; [apply wf_slots_upd; exact Hwf1|].
    rewrite (count_occupied_ext _ _ (upd_value_keys_slot (table t1) _ v)).
    split; [exact Hc1|]. lia.
  - destruct Hv as [Hd [_ [_ Hvac]]].
    assert (Hw : size_wrap (occupancy t1 + 1) = occupancy t1 + 1).
    { destruct Hwf1 as [_ [Hm _]].
      pose proof (count_occupied_bounds (table t1)) as Hb.
      unfold size_wrap, SIZE_MAX, SIZE_MODULUS, sizeof_KeyValuePair in *.
      apply Z.mod_small. lia. }
    rewrite Hw. split; [apply wf_slots_upd; exact Hwf1|].
    rewrite count_occupied_place.
    + split; [lia|]. lia.
    + rewrite Hlen1. apply probe_range. exact Hn1.
    + exact Hvac.
    + exact Hk.
Qed.

(** C9.  A table built by [ht_create] and then used through [ht_put] (with
    keys other than NULL), [ht_has] and [ht_get] is never full: its
    capacity is positive, its occupancy is below its capacity, and it has
    an empty slot.  The initial capacity is taken to be a power of two, at
    least 4. *)
Theorem reachable_never_full (t : hashtab_s) :
  is_pow2 INITIAL_CAPACITY -> 4 <= INITIAL_CAPACITY -> reachable t ->
  0 < capacity t /\ occupancy t < capacity t /\
  exists i, 0 <= i < capacity t /\ ~ occupied (slot (table t) i).
Proof.
  intros Hp H4 Hr.
  assert (H : WF t /\ occupancy t = count_occupied (table t) /\
              4 <= capacity t /\ occupancy t < capacity t).
  { induction Hr as
      [t Hcr | fuel t k v r t' Hr IH Hk Hput | fuel t k b t' Hr IH Hhas
       | fuel t k v t' Hr IH Hget].
    - destruct (ht_create_Inv t Hp Hcr) as [Hwf [Hocc _]].
      destruct (ht_create_inv t Hcr) as [_ ->].
      split; [exact Hwf|]. split; [exact Hocc|]. cbn [capacity occupancy]. lia.
    - destruct IH as [Hwf [Hocc [Hc4 _]]].
      apply (ht_put_keeps_room _ _ _ _ _ _ Hwf Hocc Hc4 Hk Hput).
    - pose proof IH as [Hwf _].
      destruct (ht_has_only_counts _ _ _ _ _ Hwf Hhas) as [c ->]. exact IH.
    - pose proof IH as [Hwf _].
      destruct (ht_get_only_counts _ _ _ _ _ Hwf Hget) as [c ->]. exact IH. }
  destruct H as [Hwf [Hocc [Hc4 Hlt]]].
  split; [lia|]. split; [exact Hlt|].
  pose proof (WF_length t Hwf) as Hlen.
  destruct (exists_vacant (table t)) as [i [Hi Hv]]; [lia|].
  exists i. split; [lia | exact Hv].
Qed.

(** *** Enumerations depend on the keys only *)

Lemma in_bounds_ext (T T' : list KeyValuePair) (i : Z) :
  map key T' = map key T -> in_bounds T' i = in_bounds T i.
Proof.
  intros H. unfold in_bounds.
  rewrite <- (length_map key T'), <- (length_map key T), H. reflexivity.
Qed.

Lemma keys_loop_ext (t t' : hashtab_s) (n : nat) :
  map key (table t') = map key (table t) ->
  forall keys key_index i,
    keys_loop t' keys key_index i n = keys_loop t keys key_index i n.
Proof.
  intros H. induction n as [|n IH]; intros keys key_index i; [reflexivity|].
  cbn [keys_loop]. unfold slot_read. rewrite (in_bounds_ext _ _ i H).
  destruct (in_bounds (table t) i); [|reflexivity]. cbn [bind].
  rewrite (slot_key_ext _ _ i H).
  destruct (negb (is_null (key (slot (table t) i)))); [|apply IH].
  destruct (cell_write keys key_index (key (slot (table t) i)));
    [|reflexivity].
  cbn [bind]. apply IH.
Qed.

Lemma destroy_loop_ext (t t' : hashtab_s) (n : nat) :
  map key (table t') = map key (table t) ->
  forall i,
    bind (destroy_loop t' i n) (fun calls => Ok (map fst calls)) =
    bind (destroy_loop t i n) (fun calls => Ok (map fst calls)).
Proof.
  intros H. induction n as [|n IH]; intros i; [reflexivity|].
  cbn [destroy_loop]. unfold slot_read. rewrite (in_bounds_ext _ _ i H).
  destruct (in_bounds (table t) i); [|reflexivity]. cbn [bind].
  specialize (IH (i + 1)). rewrite (slot_key_ext _ _ i H).
  destruct (destroy_loop t' (i + 1) n) as [l'|f'];
    destruct (destroy_loop t (i + 1) n) as [l|f]; cbn [bind] in *;
    try discriminate; try exact IH.
  injection IH as IH.
  destruct (is_null (key (slot (table t) i))); cbn [map fst]; rewrite IH;
    reflexivity.
Qed.

(** C10.  When the placement of [ht_put] finds a slot whose key matches,
    it overwrites the value of that slot and nothing else: the slot keeps
    the key pointer it held, whatever pointer was passed, so [ht_keys] and
    the [delete_fcn] calls of [ht_destroy] see the same key pointers as
    before the placement.  [t1] is the table the placement starts from,
    [t] itself unless the growth block ran. *)
Theorem ht_put_update_keeps_key (fuel : nat) (t t1 : hashtab_s)
    (k v r : ptr) (t' : hashtab_s) (d : Z) :
  WF t -> ht_grow fuel t = Ok t1 ->
  found_at (table t1) (capacity t1) k (hash_of k) d ->
  ht_put fuel t k v = Ok (r, t') ->
  let p := probe (capacity t1) (hash_of k) d in
  (load_exceeded t = false -> t1 = t) /\
  r = value (slot (table t1) p) /\
  table t' = upd (table t1) (Z.to_nat p) (mkPair (key (slot (table t1) p)) v) /\
  key (slot (table t') p) = key (slot (table t1) p) /\
  value (slot (table t') p) = v /\
  (forall i, 0 <= i -> i <> p -> slot (table t') i = slot (table t1) i) /\
  stored_keys (table t') = stored_keys (table t1) /\
  ht_keys t' = ht_keys t1 /\
  ht_destroy_keys t' = ht_destroy_keys t1.
Proof.
  intros Hwf Hg Hf Hput p.
  pose proof (ht_grow_WF _ _ _ Hwf Hg) as Hwf1.
  pose proof (WF_pos t1 Hwf1) as Hn1. pose proof (WF_length t1 Hwf1) as Hlen1.
  assert (Hp : 0 <= p < capacity t1) by (apply probe_range; exact Hn1).
  rewrite (ht_put_unfold _ _ _ _ _ Hg) in Hput.
  pose proof Hf as [Hd _].
  apply ht_place_mono with (fuel' := (fuel + S (Z.to_nat d))%nat) in Hput;
    [|lia].
  rewrite (ht_place_found _ t1 k v d Hwf1 Hf) in Hput by lia.
  injection Hput as <- <-. fold p. cbn [table].
  pose proof (upd_value_keys_slot (table t1) p v) as Hk.
  split.
  { intros Hl. unfold ht_grow in Hg. rewrite Hl in Hg. congruence. }
  split; [reflexivity|]. split; [reflexivity|].
  split; [apply slot_key_ext; exact Hk|].
  split; [rewrite slot_upd_same by lia; reflexivity|].
  split; [intros i Hi Hne; apply slot_upd_other; lia|].
  split; [apply filter_occupied_keys; exact Hk|].
  split.
  - unfold ht_keys. cbn [occupancy capacity]. apply keys_loop_ext. exact Hk.
  - unfold ht_destroy_keys, ht_destroy. cbn [capacity].
    apply destroy_loop_ext. exact Hk.
Qed.

(** ** Further properties of the interface *)

(** *** The enumerations fill their arrays from the front *)

Lemma skipn_cons_nth {A : Type} (T : list A) (i : nat) (d : A) :
  (i < length T)%nat -> skipn i T = nth i T d :: skipn (S i) T.
Proof.
  revert i. induction T as [|x T IH]; intros [|i] H; simpl in H; try lia.
  - reflexivity.
  - change (skipn (S i) (x :: T)) with (skipn i T).
    change (skipn (S (S i)) (x :: T)) with (skipn (S i) T).
    simpl nth. apply IH. lia.
Qed.

Lemma upd_fill_next (done : list ptr) (m : nat) (p : ptr) :
  upd (map Some done ++ repeat None (S m)) (length done) (Some p) =
  map Some (done ++ [p]) ++ repeat None m.
Proof.
  induction done as [|x done IH]; simpl; [reflexivity|].
  f_equal. exact IH.
Qed.

Lemma cell_write_next (done : list ptr) (m : nat) (p : ptr) :
  cell_write (map Some done ++ repeat None (S m)) (Z.of_nat (length done)) p =
  Ok (map Some (done ++ [p]) ++ repeat None m).
Proof.
  unfold cell_write.
  assert (H : in_bounds (map Some done ++ repeat None (S m))
                (Z.of_nat (length done)) = true).
  { unfold in_bounds. rewrite length_app, length_map, repeat_length.
    apply andb_true_iff. split; [apply Z.leb_le | apply Z.ltb_lt]; lia. }
  rewrite H, Nat2Z.id, upd_fill_next. reflexivity.
Qed.

Lemma size_wrap_small (z : Z) : 0 <= z < SIZE_MODULUS -> size_wrap z = z.
Proof. intros H. unfold size_wrap. apply Z.mod_small. exact H. Qed.

(** The copy loop of [ht_keys] on an array with [m] free cells. *)
Lemma keys_loop_fill (t : hashtab_s) (n : nat) :
  forall (i : nat) (done : list ptr) (m : nat),
    (i + n = length (table t))%nat ->
    (length (stored_keys (skipn i (table t))) <= m)%nat ->
    Z.of_nat (length done + m) < SIZE_MODULUS ->
    keys_loop t (map Some done ++ repeat None m) (Z.of_nat (length done))
      (Z.of_nat i) n =
    Ok (map Some (done ++ stored_keys (skipn i (table t))) ++
        repeat None (m - length (stored_keys (skipn i (table t))))).
Proof.
  induction n as [|n IH]; intros i done m Hi Hm Hb.
  - cbn [keys_loop]. rewrite skipn_all2 by lia. cbn.
    rewrite app_nil_r, Nat.sub_0_r. reflexivity.
  - cbn [keys_loop]. rewrite slot_read_ok by lia. cbn [bind].
    rewrite (skipn_cons_nth (table t) i empty_pair) in * by lia.
    unfold slot. rewrite Nat2Z.id.
    unfold stored_keys in *. cbn [filter] in *.
    replace (Z.of_nat i + 1) with (Z.of_nat (S i)) by lia.
    change (negb (is_null (key (nth i (table t) empty_pair))))
      with (occupiedb (nth i (table t) empty_pair)).
    revert Hm. destruct (occupiedb (nth i (table t) empty_pair)); intros Hm.
    + cbn [map length] in *. destruct m as [|m]; [lia|].
      rewrite cell_write_next. cbn [bind].
      rewrite size_wrap_small by lia.
      replace (Z.of_nat (length done) + 1)
        with (Z.of_nat (length (done ++ [key (nth i (table t) empty_pair)])))
        by (rewrite length_app; simpl; lia).
      rewrite IH.
      * rewrite <- app_assoc. reflexivity.
      * lia.
      * lia.
      * rewrite length_app. simpl. lia.
    + apply IH; try assumption. lia.
Qed.

(** The copy loop of [ht_values]: the same, with the test on the value. *)
Lemma values_loop_fill (t : hashtab_s) (n : nat) :
  forall (i : nat) (done : list ptr) (m : nat),
    (i + n = length (table t))%nat ->
    (length (nonnull_values (skipn i (table t))) <= m)%nat ->
    Z.of_nat (length done + m) < SIZE_MODULUS ->
    values_loop t (map Some done ++ repeat None m) (Z.of_nat (length done))
      (Z.of_nat i) n =
    Ok (map Some (done ++ nonnull_values (skipn i (table t))) ++
        repeat None (m - length (nonnull_values (skipn i (table t))))).
Proof.
  induction n as [|n IH]; intros i done m Hi Hm Hb.
  - cbn [values_loop]. rewrite skipn_all2 by lia. cbn.
    rewrite app_nil_r, Nat.sub_0_r. reflexivity.
  - cbn [values_loop]. rewrite slot_read_ok by lia. cbn [bind].
    rewrite (skipn_cons_nth (table t) i empty_pair) in * by lia.
    unfold slot. rewrite Nat2Z.id.
    unfold nonnull_values in *. cbn [filter] in *.
    replace (Z.of_nat i + 1) with (Z.of_nat (S i)) by lia.
    destruct (negb (is_null (value (nth i (table t) empty_pair)))).
    + cbn [map length] in *. destruct m as [|m]; [lia|].
      rewrite cell_write_next. cbn [bind].
      rewrite size_wrap_small by lia.
      replace (Z.of_nat (length done) + 1)
        with (Z.of_nat (length (done ++ [value (nth i (table t) empty_pair)])))
        by (rewrite length_app; simpl; lia).
      rewrite IH.
      * rewrite <- app_assoc. reflexivity.
      * lia.
      * lia.
      * rewrite length_app. simpl. lia.
    + apply IH; try assumption. lia.
Qed.

Lemma stored_keys_length (T : list KeyValuePair) :
  Z.of_nat (length (stored_keys T)) = count_occupied T.
Proof. unfold stored_keys, count_occupied. rewrite length_map. reflexivity. Qed.

Lemma WF_occupancy_small (t : hashtab_s) :
  WF t -> occupancy t = count_occupied (table t) ->
  0 <= occupancy t /\ occupancy t * sizeof_KeyValuePair <= SIZE_MAX.
Proof.
  intros [_ [Hm Hlen]] Ho. pose proof (count_occupied_bounds (table t)) as Hb.
  unfold sizeof_KeyValuePair in *. lia.
Qed.

(** The calls of [ht_destroy] are the occupied pairs, in slot order. *)
Lemma destroy_loop_pairs (t : hashtab_s) (n : nat) :
  forall i : nat,
    (i + n = length (table t))%nat ->
    destroy_loop t (Z.of_nat i) n = Ok (stored_pairs (skipn i (table t))).
Proof.
  induction n as [|n IH]; intros i Hi.
  - cbn [destroy_loop]. rewrite skipn_all2 by lia. reflexivity.
  - cbn [destroy_loop]. rewrite slot_read_ok by lia. cbn [bind].
    replace (Z.of_nat i + 1) with (Z.of_nat (S i)) by lia.
    rewrite IH by lia. cbn [bind].
    rewrite (skipn_cons_nth (table t) i empty_pair) by lia.
    unfold slot. rewrite Nat2Z.id. unfold stored_pairs, occupiedb.
    cbn [filter].
    destruct (is_null (key (nth i (table t) empty_pair))); reflexivity.
Qed.

Lemma printed_pairs_app (a b : list output) :
  printed_pairs (a ++ b) = printed_pairs a ++ printed_pairs b.
Proof.
  induction a as [|x a IH]; [reflexivity|].
  destruct x; simpl; rewrite IH; reflexivity.
Qed.

Lemma count_lines_app (a b : list output) :
  count_lines (a ++ b) = count_lines a + count_lines b.
Proof.
  induction a as [|x a IH]; [reflexivity|].
  destruct x; simpl; rewrite IH; lia.
Qed.

(** The slot listing of [ht_dump]: one line per slot, one [print_fcn] call
    per occupied slot. *)
Lemma dump_loop_pairs (t : hashtab_s) (n : nat) :
  forall i : nat,
    (i + n = length (table t))%nat ->
    exists body,
      dump_loop t (Z.of_nat i) n = Ok body /\
      printed_pairs body = stored_pairs (skipn i (table t)) /\
      count_lines body = Z.of_nat n.
Proof.
  induction n as [|n IH]; intros i Hi.
  - exists []. cbn [dump_loop]. rewrite skipn_all2 by lia.
    split; [reflexivity|]. split; reflexivity.
  - cbn [dump_loop]. rewrite slot_read_ok by lia. cbn [bind].
    replace (Z.of_nat i + 1) with (Z.of_nat (S i)) by lia.
    destruct (IH (S i)) as [body [Hrun [Hp Hl]]]; [lia|].
    rewrite Hrun. cbn [bind]. eexists. split; [reflexivity|].
    rewrite printed_pairs_app, count_lines_app, Hp, Hl.
    rewrite (skipn_cons_nth (table t) i empty_pair) by lia.
    unfold slot. rewrite Nat2Z.id. unfold stored_pairs, occupiedb.
    cbn [filter].
    destruct (is_null (key (nth i (table t) empty_pair))).
    + split; [reflexivity|].
      match goal with |- ?a + _ = _ => replace a with 1 by reflexivity end.
      lia.
    + split; [reflexivity|].
      match goal with |- ?a + _ = _ => replace a with 1 by reflexivity end.
      lia.
Qed.

Lemma In_slot (T : list KeyValuePair) (p : KeyValuePair) :
  In p T -> exists i, 0 <= i < Z.of_nat (length T) /\ slot T i = p.
Proof.
  intros H. destruct (In_nth T p empty_pair H) as [n [Hn E]].
  exists (Z.of_nat n). split; [lia|]. unfold slot. rewrite Nat2Z.id. exact E.
Qed.

Lemma slot_In (T : list KeyValuePair) (i : Z) :
  0 <= i < Z.of_nat (length T) -> In (slot T i) T.
Proof. intros H. unfold slot. apply nth_In. lia. Qed.

Lemma null_valued_count (T : list KeyValuePair) :
  blank_when_empty T ->
  (length (nonnull_values T) + length (null_valued T)
   = length (filter occupiedb T))%nat.
Proof.
  intros Hb.
  assert (H : Forall (fun p => occupiedb p = false -> is_null (value p) = true)
                T).
  { apply Forall_forall. intros p Hp Ho.
    destruct (In_slot T p Hp) as [i [Hi <-]].
    apply is_null_true. apply Hb; [exact Hi|]. apply occupiedb_false. exact Ho. }
  clear Hb. unfold nonnull_values, null_valued.
  induction H as [|p T Hp _ IH]; [reflexivity|].
  cbn [filter]. rewrite length_map in *.
  destruct (occupiedb p) eqn:Ho.
  - destruct (is_null (value p)); cbn [negb andb length]; lia.
  - rewrite (Hp eq_refl). cbn [negb andb length]. exact IH.
Qed.

(** X1.  [ht_keys] returns an array of exactly [occupancy] written cells:
    the key pointers of the occupied slots, by increasing slot index. *)
Theorem ht_keys_lists_stored_keys (t : hashtab_s) :
  WF t -> occupancy t = count_occupied (table t) ->
  ht_keys t = Ok (map Some (stored_keys (table t))) /\
  Z.of_nat (length (stored_keys (table t))) = occupancy t.
Proof.
  intros Hwf Ho. pose proof (WF_length t Hwf) as Hlen.
  destruct (WF_occupancy_small t Hwf Ho) as [H0 Hs].
  pose proof (stored_keys_length (table t)) as Hk.
  split; [|lia].
  unfold ht_keys, malloc_ptrs.
  pose proof (keys_loop_fill t (Z.to_nat (capacity t)) 0 []
                (Z.to_nat (occupancy t))) as H.
  cbn [map app length skipn Nat.add Z.of_nat] in H. rewrite H.
  - replace (Z.to_nat (occupancy t) - length (stored_keys (table t)))%nat
      with 0%nat by lia.
    cbn [repeat]. rewrite app_nil_r. reflexivity.
  - lia.
  - lia.
  - unfold SIZE_MAX, sizeof_KeyValuePair in Hs. lia.
Qed.

(** X2.  [ht_values] copies the values other than NULL, by increasing slot
    index, into the front of an array of [occupancy] cells; one cell at
    the end stays unwritten for every occupied slot whose value is NULL.
    It never writes outside the array. *)
Theorem ht_values_layout (t : hashtab_s) :
  WF t -> occupancy t = count_occupied (table t) ->
  blank_when_empty (table t) ->
  ht_values t =
    Ok (map Some (nonnull_values (table t)) ++
        repeat None (length (null_valued (table t)))) /\
  Z.of_nat (length (nonnull_values (table t)) + length (null_valued (table t)))
    = occupancy t.
Proof.
  intros Hwf Ho Hb. pose proof (WF_length t Hwf) as Hlen.
  destruct (WF_occupancy_small t Hwf Ho) as [H0 Hs].
  pose proof (null_valued_count (table t) Hb) as Hc.
  assert (Hocc : Z.to_nat (occupancy t) = length (filter occupiedb (table t)))
    by (rewrite Ho; unfold count_occupied; lia).
  split; [|lia].
  unfold ht_values, malloc_ptrs.
  pose proof (values_loop_fill t (Z.to_nat (capacity t)) 0 []
                (Z.to_nat (occupancy t))) as H.
  cbn [map app length skipn Nat.add Z.of_nat] in H. rewrite H.
  - replace (Z.to_nat (occupancy t) - length (nonnull_values (table t)))%nat
      with (length (null_valued (table t))) by lia.
    reflexivity.
  - lia.
  - lia.
  - unfold SIZE_MAX, sizeof_KeyValuePair in Hs. lia.
Qed.

(** X3.  When no slot holds a NULL value under a key and no empty slot holds
    a value, [ht_keys] and [ht_values] enumerate the same slots in the same
    order: cell [i] of one and cell [i] of the other belong together. *)
Theorem ht_keys_values_pair_up (t : hashtab_s) :
  WF t -> occupancy t = count_occupied (table t) ->
  (forall i, 0 <= i < capacity t ->
     is_null (value (slot (table t) i)) = is_null (key (slot (table t) i))) ->
  ht_keys t = Ok (map (fun p => Some (key p)) (filter occupiedb (table t))) /\
  ht_values t =
    Ok (map (fun p => Some (value p)) (filter occupiedb (table t))).
Proof.
  intros Hwf Ho Hsame. pose proof (WF_length t Hwf) as Hlen.
  destruct (WF_occupancy_small t Hwf Ho) as [H0 Hs].
  assert (Hf : filter (fun p => negb (is_null (value p))) (table t) =
               filter occupiedb (table t)).
  { apply filter_ext_in. intros p Hp.
    destruct (In_slot _ _ Hp) as [i [Hi <-]]. unfold occupiedb.
    rewrite Hsame by lia. reflexivity. }
  assert (Hocc : Z.to_nat (occupancy t) = length (filter occupiedb (table t)))
    by (rewrite Ho; unfold count_occupied; lia).
  split.
  - unfold ht_keys, malloc_ptrs.
    pose proof (keys_loop_fill t (Z.to_nat (capacity t)) 0 []
                  (Z.to_nat (occupancy t))) as H.
    cbn [map app length skipn Nat.add Z.of_nat] in H. rewrite H.
    + unfold stored_keys. rewrite length_map, Hocc, Nat.sub_diag.
      cbn [repeat]. rewrite app_nil_r, map_map. reflexivity.
    + lia.
    + unfold stored_keys. rewrite length_map. lia.
    + unfold SIZE_MAX, sizeof_KeyValuePair in Hs. lia.
  - unfold ht_values, malloc_ptrs.
    pose proof (values_loop_fill t (Z.to_nat (capacity t)) 0 []
                  (Z.to_nat (occupancy t))) as H.
    cbn [map app length skipn Nat.add Z.of_nat] in H. rewrite H.
    + unfold nonnull_values. rewrite Hf, length_map, Hocc, Nat.sub_diag.
      cbn [repeat]. rewrite app_nil_r, map_map. reflexivity.
    + lia.
    + unfold nonnull_values. rewrite Hf, length_map. lia.
    + unfold SIZE_MAX, sizeof_KeyValuePair in Hs. lia.
Qed.

(** X4.  With a destructor, [ht_destroy] calls it once for every occupied
    slot, with that slot's key and value, by increasing slot index, and
    never for an empty slot. *)
Theorem ht_destroy_deletes_stored_pairs (t : hashtab_s) :
  Z.of_nat (length (table t)) = capacity t ->
  ht_destroy t = Ok (stored_pairs (table t)) /\
  ht_destroy_keys t = Ok (stored_keys (table t)) /\
  Z.of_nat (length (stored_pairs (table t))) = count_occupied (table t).
Proof.
  intros Hlen.
  assert (H : ht_destroy t = Ok (stored_pairs (table t))).
  { unfold ht_destroy. apply (destroy_loop_pairs t _ 0%nat). lia. }
  split; [exact H|]. split.
  - unfold ht_destroy_keys. rewrite H. cbn [bind].
    unfold stored_pairs, stored_keys. rewrite map_map. reflexivity.
  - unfold stored_pairs, count_occupied. rewrite length_map. reflexivity.
Qed.

(** X5.  [ht_dump] without contents prints the four counter lines only.
    With contents it adds one line per slot, and its [print_fcn] calls
    are, pair for pair and in the same order, the [delete_fcn] calls
    [ht_destroy] would make. *)
Theorem ht_dump_prints_stored_pairs (t : hashtab_s) :
  Z.of_nat (length (table t)) = capacity t ->
  ht_dump t false = Ok (dump_header t) /\
  printed_pairs (dump_header t) = [] /\
  count_lines (dump_header t) = 4 /\
  exists out,
    ht_dump t true = Ok out /\
    printed_pairs out = stored_pairs (table t) /\
    ht_destroy t = Ok (printed_pairs out) /\
    count_lines out = 4 + capacity t.
Proof.
  intros Hlen. split; [reflexivity|]. split; [reflexivity|].
  split; [reflexivity|].
  destruct (dump_loop_pairs t (Z.to_nat (capacity t)) 0%nat)
    as [body [Hrun [Hp Hl]]]; [lia|].
  cbn [skipn Z.of_nat] in Hrun, Hp.
  exists (dump_header t ++ body). unfold ht_dump. rewrite Hrun. cbn [bind].
  split; [reflexivity|].
  rewrite printed_pairs_app, count_lines_app, Hp, Hl.
  split; [reflexivity|]. split.
  - unfold ht_destroy. cbn [printed_pairs dump_header app].
    apply (destroy_loop_pairs t _ 0%nat). lia.
  - replace (count_lines (dump_header t)) with 4 by reflexivity. lia.
Qed.

(** *** Lookups, read against the slots *)

Lemma found_at_index (T : list KeyValuePair) (n : Z) (k : ptr) (h d : Z) :
  0 < n -> found_at T n k h d ->
  exists i, 0 <= i < n /\ occupied (slot T i) /\
            equals_fcn k (key (slot T i)) = true /\ i = probe n h d.
Proof.
  intros Hn Hf. destruct (found_at_matches _ _ _ _ _ Hf) as [Ho He].
  exists (probe n h d). split; [apply probe_range; exact Hn|].
  split; [exact Ho|]. split; [exact He | reflexivity].
Qed.

(** With no matching slot the probe ends on an empty slot or comes back. *)
Lemma no_match_not_found (t : hashtab_s) (k : ptr) :
  WF t ->
  (forall i, 0 <= i < capacity t -> occupied (slot (table t) i) ->
     equals_fcn k (key (slot (table t) i)) = false) ->
  (exists d, vacant_at (table t) (capacity t) k (hash_of k) d) \/
  full_cycle (table t) (capacity t) k (hash_of k).
Proof.
  intros Hwf Habs. pose proof (WF_pos t Hwf) as Hn.
  destruct (probe_outcome (table t) (capacity t) k (hash_of k) Hn)
    as [[d Hf] | Hnot]; [|exact Hnot].
  exfalso. destruct (found_at_index _ _ _ _ _ Hn Hf) as [i [Hi [Ho [He _]]]].
  rewrite (Habs i Hi Ho) in He. discriminate.
Qed.

Lemma ht_has_no_match (fuel : nat) (t : hashtab_s) (k : ptr) :
  WF t ->
  (forall i, 0 <= i < capacity t -> occupied (slot (table t) i) ->
     equals_fcn k (key (slot (table t) i)) = false) ->
  (Z.to_nat (capacity t) <= fuel)%nat ->
  exists t', ht_has fuel t k = Ok (false, t').
Proof.
  intros Hwf Habs Hfuel.
  destruct (no_match_not_found t k Hwf Habs) as [[d Hv] | Hfull].
  - pose proof Hv as [Hd _]. eexists.
    apply (ht_has_vacant fuel t k d Hwf Hv). lia.
  - eexists. apply (ht_has_full fuel t k Hwf Hfull). exact Hfuel.
Qed.

(** X6.  Under the invariant [ht_has] decides membership: it returns, and
    it returns true exactly when some occupied slot holds a key that
    [equals_fcn] matches with the key asked for. *)
Theorem ht_has_decides_membership (fuel : nat) (t : hashtab_s) (k : ptr) :
  client_contract -> Inv t -> (Z.to_nat (capacity t) <= fuel)%nat ->
  exists (b : bool) (t' : hashtab_s),
    ht_has fuel t k = Ok (b, t') /\
    (b = true <->
     exists i, 0 <= i < capacity t /\ occupied (slot (table t) i) /\
               equals_fcn k (key (slot (table t) i)) = true).
Proof.
  intros Hc HI Hfuel. pose proof HI as [Hwf _].
  pose proof (WF_pos t Hwf) as Hn.
  destruct (probe_outcome (table t) (capacity t) k (hash_of k) Hn)
    as [[d Hf] | Hnot].
  - pose proof Hf as [Hd _]. exists true. eexists.
    split; [apply (ht_has_found fuel t k d Hwf Hf); lia|].
    split; [intros _|reflexivity].
    destruct (found_at_index _ _ _ _ _ Hn Hf) as [i [Hi [Ho [He _]]]].
    exists i. split; [exact Hi|]. split; assumption.
  - pose proof (not_found_absent t k Hc HI Hnot) as Habs.
    destruct (ht_has_no_match fuel t k Hwf Habs Hfuel) as [t' Hrun].
    exists false, t'. split; [exact Hrun|].
    split; [discriminate|]. intros [i [Hi [Ho He]]].
    rewrite (Habs i Hi Ho) in He. discriminate.
Qed.

(** X7.  A value that [ht_get] returns is stored: some occupied slot holds a
    key matching the key asked for, with that value; and under the
    invariant every slot whose key matches holds that value. *)
Theorem ht_get_returns_stored_value (fuel : nat) (t : hashtab_s) (k v : ptr)
    (t' : hashtab_s) :
  client_contract -> Inv t -> ht_get fuel t k = Ok (v, t') ->
  (exists i, 0 <= i < capacity t /\ occupied (slot (table t) i) /\
             equals_fcn k (key (slot (table t) i)) = true /\
             value (slot (table t) i) = v) /\
  (forall j, 0 <= j < capacity t -> occupied (slot (table t) j) ->
     equals_fcn k (key (slot (table t) j)) = true ->
     value (slot (table t) j) = v).
Proof.
  intros Hc HI Hget. pose proof HI as [Hwf _].
  pose proof (WF_pos t Hwf) as Hn.
  destruct (ht_get_inv _ _ _ _ _ Hwf Hget) as [d [Hf [Hv _]]].
  split.
  - destruct (found_at_index _ _ _ _ _ Hn Hf) as [i [Hi [Ho [He Ei]]]].
    exists i. split; [exact Hi|]. split; [exact Ho|]. split; [exact He|].
    rewrite Ei. symmetry. exact Hv.
  - intros j Hj Ho He.
    destruct (found_at_slot t k j Hc HI Hj Ho He) as [d' [Hf' Hp']].
    rewrite (found_at_unique _ _ _ _ _ _ Hf' Hf) in Hp'.
    rewrite <- Hp'. symmetry. exact Hv.
Qed.

(** X8.  [ht_get] for a key that no occupied slot matches fails its
    assertion: it aborts instead of returning or looping, on a full table
    too. *)
Theorem ht_get_missing_key_aborts (fuel : nat) (t : hashtab_s) (k : ptr) :
  WF t ->
  (forall i, 0 <= i < capacity t -> occupied (slot (table t) i) ->
     equals_fcn k (key (slot (table t) i)) = false) ->
  (Z.to_nat (capacity t) <= fuel)%nat ->
  ht_get fuel t k = Err AssertionFailed.
Proof.
  intros Hwf Habs Hfuel.
  destruct (ht_has_no_match fuel t k Hwf Habs Hfuel) as [t' Hrun].
  unfold ht_get. rewrite Hrun. reflexivity.
Qed.

(** X9.  What [ht_put] stores, [ht_get] returns. *)
Theorem ht_put_then_get (fuel fuel' : nat) (t : hashtab_s) (k v r : ptr)
    (t' : hashtab_s) :
  client_contract -> Inv t -> k <> NULL ->
  ht_put fuel t k v = Ok (r, t') ->
  (Z.to_nat (capacity t') <= fuel')%nat ->
  exists t'', ht_get fuel' t' k = Ok (v, t'').
Proof.
  intros Hc HI Hk Hput Hfuel.
  destruct (ht_put_Inv _ _ _ _ _ _ Hc HI Hk Hput) as [[Hwf' _] [d [Hf Hv]]].
  pose proof Hf as [Hd _]. eexists. rewrite <- Hv.
  apply (ht_get_found fuel' t' k d Hwf' Hf). lia.
Qed.

(** *** What one ht_put changes *)

(** The placement writes one slot, with a key that matches [k]. *)
Lemma ht_place_slots (fuel : nat) (t : hashtab_s) (k v r : ptr)
    (t' : hashtab_s) :
  WF t -> ht_place fuel t k v = Ok (r, t') ->
  exists p q,
    0 <= p < capacity t /\
    table t' = upd (table t) (Z.to_nat p) q /\
    capacity t' = capacity t /\ rehashes t' = rehashes t /\
    ((occupied (slot (table t) p) /\ key q = key (slot (table t) p) /\
      equals_fcn k (key q) = true /\ value q = v /\
      r = value (slot (table t) p) /\ occupancy t' = occupancy t) \/
     (~ occupied (slot (table t) p) /\ q = mkPair k v /\ r = NULL /\
      occupancy t' = size_wrap (occupancy t + 1))).
Proof.
  intros Hwf Hp. pose proof (WF_pos t Hwf) as Hn.
  destruct (ht_place_inv _ _ _ _ _ _ Hwf Hp)
    as [[d [Hf [-> ->]]] | [d [Hv [-> ->]]]]; cbn [capacity table rehashes occupancy].
  - destruct (found_at_matches _ _ _ _ _ Hf) as [Ho He].
    eexists. eexists. split; [apply probe_range; exact Hn|].
    split; [reflexivity|]. split; [reflexivity|]. split; [reflexivity|].
    left. cbn [key value]. repeat split; assumption.
  - destruct Hv as [_ [_ [_ Hvac]]].
    eexists. eexists. split; [apply probe_range; exact Hn|].
    split; [reflexivity|]. split; [reflexivity|]. split; [reflexivity|].
    right. repeat split. exact Hvac.
Qed.

Lemma ht_put_WF (fuel : nat) (t : hashtab_s) (k v r : ptr) (t' : hashtab_s) :
  WF t -> ht_put fuel t k v = Ok (r, t') -> WF t'.
Proof using equals_fcn hash_fcn.
  intros Hwf Hput.
  destruct (ht_put_inv _ _ _ _ _ _ Hput) as [t1 [Hg Hp]].
  pose proof (ht_grow_WF _ _ _ Hwf Hg) as Hwf1.
  destruct (ht_place_slots _ _ _ _ _ _ Hwf1 Hp) as [p [q [_ [HT [Hc _]]]]].
  unfold WF. rewrite HT, Hc. apply wf_slots_upd. exact Hwf1.
Qed.

(** X10.  When the growth test of [ht_put] is false, that is when the
    quotient of [occupancy] by [capacity] computed in double precision is
    below 0.75, the call does not grow the table: the capacity, the rehash
    counter and the array length stay, and all slots but one are as
    before. *)
Theorem ht_put_below_threshold_writes_one_slot (fuel : nat) (t : hashtab_s)
    (k v r : ptr) (t' : hashtab_s) :
  WF t ->
  load_exceeded t = false ->
  ht_put fuel t k v = Ok (r, t') ->
  capacity t' = capacity t /\ rehashes t' = rehashes t /\
  length (table t') = length (table t) /\
  exists p, 0 <= p < capacity t /\
    forall i, 0 <= i -> i <> p -> slot (table t') i = slot (table t) i.
Proof.
  intros Hwf Hl Hput. pose proof (WF_pos t Hwf) as Hn.
  unfold ht_put, ht_grow in Hput. rewrite Hl in Hput. cbn [bind] in Hput.
  destruct (ht_place_slots _ _ _ _ _ _ Hwf Hput)
    as [p [q [Hp [HT [Hc [Hr _]]]]]].
  split; [exact Hc|]. split; [exact Hr|]. rewrite HT.
  split; [apply length_upd|].
  exists p. split; [exact Hp|]. intros i Hi Hne.
  apply slot_upd_other; lia.
Qed.

(** The key written by the placement does not match a key apart from [k]. *)
Lemma placed_key_apart (t : hashtab_s) (k k' : ptr) (p : Z) (q : KeyValuePair)
    (v r : ptr) (o : Z) :
  client_contract -> equals_fcn k k' = false ->
  (occupied (slot (table t) p) /\ key q = key (slot (table t) p) /\
   equals_fcn k (key q) = true /\ value q = v /\
   r = value (slot (table t) p) /\ o = occupancy t) \/
  (~ occupied (slot (table t) p) /\ q = mkPair k v /\ r = NULL /\
   o = size_wrap (occupancy t + 1)) ->
  equals_fcn k' (key q) = false.
Proof.
  intros [Hrefl [Hsym [Htrans _]]] Hne Hcase.
  destruct (equals_fcn k' (key q)) eqn:E; [|reflexivity]. exfalso.
  assert (Hkq : equals_fcn k (key q) = true).
  { destruct Hcase as [[_ [_ [He _]]] | [_ [-> _]]]; [exact He | apply Hrefl]. }
  rewrite (Htrans k (key q) k' Hkq (Hsym _ _ E)) in Hne. discriminate.
Qed.

(** X11.  [ht_put] of one key leaves the other keys alone: a key that does
    not match it keeps the value [ht_get] returns for it, and stays absent
    if [ht_has] was false for it, whether or not the table grows. *)
Theorem ht_put_leaves_other_keys (fuel fuel' : nat) (t : hashtab_s)
    (k v r : ptr) (t' : hashtab_s) (k' : ptr) :
  client_contract -> Inv t -> k <> NULL ->
  ht_put fuel t k v = Ok (r, t') ->
  equals_fcn k k' = false ->
  (Z.to_nat (capacity t') <= fuel')%nat ->
  (forall v' t1, ht_get fuel' t k' = Ok (v', t1) ->
     exists t2, ht_get fuel' t' k' = Ok (v', t2)) /\
  (forall t1, ht_has fuel' t k' = Ok (false, t1) ->
     exists t2, ht_has fuel' t' k' = Ok (false, t2)).
Proof.
  intros Hc HI Hk Hput Hne Hfuel. pose proof HI as [Hwf _].
  pose proof (WF_pos t Hwf) as Hn.
  destruct (ht_put_Inv _ _ _ _ _ _ Hc HI Hk Hput) as [HI' _].
  pose proof HI' as [Hwf' _].
  destruct (ht_put_inv _ _ _ _ _ _ Hput) as [tg [Hg Hp]].
  pose proof (ht_grow_WF _ _ _ Hwf Hg) as Hwfg.
  pose proof (WF_length tg Hwfg) as Hleng.
  destruct (ht_grow_keeps _ _ _ Hwf Hg) as [Hto Hfrom].
  destruct (ht_place_slots _ _ _ _ _ _ Hwfg Hp)
    as [p [q [Hpr [HT [Hcap [_ Hcase]]]]]].
  pose proof (placed_key_apart tg k k' p q v r (occupancy t') Hc Hne Hcase)
    as Hapart.
  split.
  - intros v' t1 Hget.
    destruct (ht_get_inv _ _ _ _ _ Hwf Hget) as [d [Hf [-> _]]].
    destruct (found_at_index _ _ _ _ _ Hn Hf) as [i [Hi [Ho [He Ei]]]].
    rewrite <- Ei.
    destruct (Hto i Hi Ho) as [a [Ha Ea]].
    assert (Hap : a <> p).
    { intros ->. destruct Hcase as [[_ [Hkq _]] | [Hvac _]].
      - rewrite Hkq, Ea, He in Hapart. discriminate.
      - apply Hvac. rewrite Ea. exact Ho. }
    assert (Es : slot (table t') a = slot (table t) i).
    { rewrite HT, slot_upd_other by lia. exact Ea. }
    destruct (found_at_slot t' k' a Hc HI') as [d' [Hf' Hp']];
      try (rewrite Es; assumption); [lia|].
    pose proof Hf' as [Hd' _]. eexists. rewrite <- Es, <- Hp'.
    apply (ht_get_found fuel' t' k' d' Hwf' Hf'). lia.
  - intros t1 Hhas.
    assert (Habs : forall i, 0 <= i < capacity t ->
              occupied (slot (table t) i) ->
              equals_fcn k' (key (slot (table t) i)) = false).
    { apply (not_found_absent t k' Hc HI).
      destruct (ht_has_inv _ _ _ _ _ Hwf Hhas)
        as [[d [_ [Hb _]]] | [[d [Hv _]] | [Hfull _]]]; [discriminate| |].
      - left. exists d. exact Hv.
      - right. exact Hfull. }
    apply (ht_has_no_match fuel' t' k' Hwf'); [|exact Hfuel].
    intros j Hj Ho. rewrite Hcap in Hj.
    destruct (Z.eq_dec j p) as [->|Hjp].
    + rewrite HT, slot_upd_same by lia. exact Hapart.
    + rewrite HT, slot_upd_other in * by lia.
      destruct (Hfrom j Hj Ho) as [i [Hi Ei]]. rewrite Ei in *.
      apply Habs; assumption.
Qed.

Lemma In_stored_keys (T : list KeyValuePair) (x : ptr) :
  In x (stored_keys T) <->
  exists i, 0 <= i < Z.of_nat (length T) /\ occupied (slot T i) /\
            key (slot T i) = x.
Proof.
  unfold stored_keys. rewrite in_map_iff. split.
  - intros [p [E Hp]]. apply filter_In in Hp. destruct Hp as [Hp Ho].
    destruct (In_slot T p Hp) as [i [Hi Es]]. exists i.
    split; [exact Hi|]. rewrite Es. split; [|exact E].
    apply occupiedb_true. exact Ho.
  - intros [i [Hi [Ho E]]]. exists (slot T i). split; [exact E|].
    apply filter_In. split; [apply slot_In; exact Hi|].
    apply occupiedb_true. exact Ho.
Qed.

(** X12.  [ht_put] never drops or replaces a stored key pointer: every key
    pointer held by an occupied slot before the call is held by one
    after it, through an update and through a growth of the table too. *)
Theorem ht_put_keeps_key_pointers (fuel : nat) (t : hashtab_s) (k v r : ptr)
    (t' : hashtab_s) :
  WF t -> ht_put fuel t k v = Ok (r, t') ->
  forall x, In x (stored_keys (table t)) -> In x (stored_keys (table t')).
Proof using equals_fcn hash_fcn.
  intros Hwf Hput x Hx. pose proof (WF_length t Hwf) as Hlen.
  destruct (ht_put_inv _ _ _ _ _ _ Hput) as [tg [Hg Hp]].
  pose proof (ht_grow_WF _ _ _ Hwf Hg) as Hwfg.
  pose proof (WF_length tg Hwfg) as Hleng.
  destruct (ht_grow_keeps _ _ _ Hwf Hg) as [Hto _].
  destruct (ht_place_slots _ _ _ _ _ _ Hwfg Hp)
    as [p [q [Hpr [HT [Hcap [_ Hcase]]]]]].
  apply In_stored_keys in Hx. destruct Hx as [i [Hi [Ho Ex]]].
  destruct (Hto i) as [a [Ha Ea]]; [lia | exact Ho |].
  apply In_stored_keys. exists a. rewrite HT, length_upd.
  split; [lia|].
  destruct (Z.eq_dec a p) as [->|Hap].
  - rewrite slot_upd_same by lia.
    destruct Hcase as [[_ [Hkq _]] | [Hvac _]].
    + unfold occupied. rewrite Hkq, Ea. split; [exact Ho | exact Ex].
    + exfalso. apply Hvac. rewrite Ea. exact Ho.
  - rewrite slot_upd_other by lia. rewrite Ea. split; [exact Ho | exact Ex].
Qed.

(** X13.  The sentinel as a key miscounts.  In a call that does not grow
    the table (the growth test of [ht_put] is false) and whose probe for
    NULL ends on an empty slot, [ht_put(t, NULL, v)] returns NULL and
    increments [occupancy], but the slot it writes stays empty: the
    occupied slots and stored keys are those of before, and
    [ht_has(t, NULL)] is still false. *)
Theorem ht_put_null_key_miscounts (fuel : nat) (t : hashtab_s) (v r : ptr)
    (t' : hashtab_s) (d : Z) :
  WF t -> occupancy t = count_occupied (table t) ->
  load_exceeded t = false ->
  vacant_at (table t) (capacity t) NULL (hash_of NULL) d ->
  ht_put fuel t NULL v = Ok (r, t') ->
  r = NULL /\
  occupancy t' = occupancy t + 1 /\
  count_occupied (table t') = count_occupied (table t) /\
  stored_keys (table t') = stored_keys (table t) /\
  forall fuel', (Z.to_nat d < fuel')%nat ->
    ht_has fuel' t' NULL =
    Ok (false, set_collisions t' (int_incr_n (Z.to_nat d) (collisions t'))).
Proof.
  intros Hwf Ho Hl Hv Hput. pose proof (WF_pos t Hwf) as Hn.
  unfold ht_put, ht_grow in Hput. rewrite Hl in Hput. cbn [bind] in Hput.
  apply ht_place_mono with (fuel' := (fuel + S (Z.to_nat d))%nat) in Hput;
    [|lia].
  rewrite (ht_place_vacant _ t NULL v d Hwf Hv) in Hput by lia.
  injection Hput as <- <-. cbn [occupancy table capacity collisions].
  pose proof Hv as [Hd [Hocc [Hnom Hvac]]].
  set (p := probe (capacity t) (hash_of NULL) d) in *.
  assert (Hk : map key (upd (table t) (Z.to_nat p) (mkPair NULL v)) =
               map key (table t)).
  { apply upd_vacant_keys.
    destruct (Z.eq_dec (key (nth (Z.to_nat p) (table t) empty_pair)) NULL)
      as [E|E]; [exact E|].
    exfalso. apply Hvac. exact E. }
  destruct (WF_occupancy_small t Hwf Ho) as [H0 Hs].
  split; [reflexivity|].
  split.
  { apply size_wrap_small.
    unfold SIZE_MAX, SIZE_MODULUS, sizeof_KeyValuePair in *. lia. }
  split; [apply count_occupied_ext; exact Hk|].
  split; [apply filter_occupied_keys; exact Hk|].
  intros fuel' Hfuel'.
  match goal with
  | |- ht_has _ ?tt _ = _ =>
      apply (ht_has_vacant fuel' tt NULL d)
  end.
  - unfold WF. cbn [capacity table]. apply wf_slots_upd. exact Hwf.
  - cbn [capacity table]. split; [exact Hd|]. split; [|split].
    + apply (run_occupied_ext _ _ _ _ _ Hk). exact Hocc.
    + apply (run_nomatch_ext _ _ _ _ _ _ Hk). exact Hnom.
    + fold p. intros Hq. apply Hvac.
      apply (occupied_ext _ _ p Hk). exact Hq.
  - exact Hfuel'.
Qed.

(** *** Tables built through the interface *)

Lemma reachable_WF (t : hashtab_s) :
  is_pow2 INITIAL_CAPACITY -> reachable t -> WF t.
Proof.
  intros Hp Hr. induction Hr as
      [t Hcr | fuel t k v r t' Hr IH Hk Hput | fuel t k b t' Hr IH Hhas
       | fuel t k v t' Hr IH Hget].
  - apply ht_create_Inv; assumption.
  - apply (ht_put_WF _ _ _ _ _ _ IH Hput).
  - destruct (ht_has_only_counts _ _ _ _ _ IH Hhas) as [c ->]. exact IH.
  - destruct (ht_get_only_counts _ _ _ _ _ IH Hget) as [c ->]. exact IH.
Qed.

(** X14.  The capacity of a table built through the interface is the initial
    capacity doubled once per counted rehash:
    [capacity = INITIAL_CAPACITY * 2 ^ rehashes], and the rehash counter
    stays below 60. *)
Theorem reachable_capacity_tracks_rehashes (t : hashtab_s) :
  is_pow2 INITIAL_CAPACITY -> reachable t ->
  0 <= rehashes t < 60 /\
  capacity t = INITIAL_CAPACITY * 2 ^ rehashes t.
Proof.
  intros Hp Hr. pose proof (is_pow2_pos _ Hp) as Hic.
  assert (H : 0 <= rehashes t /\
              capacity t = INITIAL_CAPACITY * 2 ^ rehashes t).
  { induction Hr as
      [t Hcr | fuel t k v r t' Hr IH Hk Hput | fuel t k b t' Hr IH Hhas
       | fuel t k v t' Hr IH Hget].
    - destruct (ht_create_inv t Hcr) as [_ ->]. cbn [rehashes capacity].
      split; [lia|]. simpl. lia.
    - pose proof (reachable_WF t Hp Hr) as Hwf.
      destruct IH as [Hr0 Hcap].
      destruct (ht_put_inv _ _ _ _ _ _ Hput) as [tg [Hg Hpl]].
      pose proof (ht_grow_WF _ _ _ Hwf Hg) as Hwfg.
      destruct (ht_place_slots _ _ _ _ _ _ Hwfg Hpl)
        as [p [q [_ [_ [Hc [Hre _]]]]]].
      rewrite Hc, Hre.
      destruct (ht_grow_inv _ _ _ Hwf Hg)
        as [[_ ->] | [_ [Hm [c [N' [-> _]]]]]]; [split; assumption|].
      cbn [capacity rehashes].
      assert (Hlt : rehashes t < 60).
      { destruct Hwf as [_ [Hb _]].
        apply (Z.pow_lt_mono_r_iff 2); [lia | lia |].
        unfold SIZE_MAX, SIZE_MODULUS, sizeof_KeyValuePair in Hb.
        assert (0 < 2 ^ rehashes t) by (apply Z.pow_pos_nonneg; lia).
        change (2 ^ 60) with 1152921504606846976.
        change (2 ^ 64) with 18446744073709551616 in Hb. nia. }
      rewrite int_incr_exact by (unfold INT_MIN, INT_MAX; simpl; lia).
      split; [lia|]. rewrite Z.pow_add_r by lia. rewrite Hcap.
      unfold RESIZE_FACTOR. simpl (2 ^ 1). lia.
    - pose proof (reachable_WF t Hp Hr) as Hwf.
      destruct (ht_has_only_counts _ _ _ _ _ Hwf Hhas) as [c ->]. exact IH.
    - pose proof (reachable_WF t Hp Hr) as Hwf.
      destruct (ht_get_only_counts _ _ _ _ _ Hwf Hget) as [c ->]. exact IH. }
  destruct H as [Hr0 Hcap]. split; [|exact Hcap]. split; [exact Hr0|].
  pose proof (reachable_WF t Hp Hr) as [_ [Hb _]].
  apply (Z.pow_lt_mono_r_iff 2); [lia | lia |].
  unfold SIZE_MAX, SIZE_MODULUS, sizeof_KeyValuePair in Hb.
  assert (0 < 2 ^ rehashes t) by (apply Z.pow_pos_nonneg; lia).
  change (2 ^ 60) with 1152921504606846976.
  change (2 ^ 64) with 18446744073709551616 in Hb. nia.
Qed.

Lemma blank_repeat_empty (n : nat) : blank_when_empty (repeat empty_pair n).
Proof. intros i _ _. rewrite slot_repeat_empty. reflexivity. Qed.

Lemma blank_upd_occupied (T : list KeyValuePair) (e : Z) (q : KeyValuePair) :
  blank_when_empty T -> occupied q -> 0 <= e ->
  blank_when_empty (upd T (Z.to_nat e) q).
Proof.
  intros Hb Hq He i Hi Hv. rewrite length_upd in Hi.
  destruct (Z.eq_dec i e) as [->|Hne].
  - exfalso. apply Hv. rewrite slot_upd_same by lia. exact Hq.
  - rewrite slot_upd_other in * by lia. apply Hb; assumption.
Qed.

Lemma slot_write_inv (T T' : list KeyValuePair) (i : Z) (q : KeyValuePair) :
  slot_write T i q = Ok T' -> 0 <= i /\ T' = upd T (Z.to_nat i) q.
Proof.
  unfold slot_write. destruct (in_bounds T i) eqn:E; [|discriminate].
  apply in_bounds_true in E. intros H. injection H as <-.
  split; [lia | reflexivity].
Qed.

Lemma rehash_slot_blank (fuel : nat) (old : list KeyValuePair)
    (t t' : hashtab_s) (N N' : list KeyValuePair) (i : Z) :
  blank_when_empty N -> rehash_slot fuel old (t, N) i = Ok (t', N') ->
  blank_when_empty N'.
Proof.
  intros Hb H. unfold rehash_slot in H.
  destruct (slot_read old i) as [pair|]; [|discriminate]. cbn [bind] in H.
  destruct (is_null (key pair)) eqn:Hk.
  - injection H as _ <-. exact Hb.
  - apply is_null_false in Hk.
    destruct (size_mod (hash_of (key pair)) (capacity t)) as [idx|];
      [|discriminate].
    cbn [bind] in H.
    destruct (slot_read N idx) as [s|]; [|discriminate]. cbn [bind] in H.
    destruct (negb (is_null (key s))).
    + destruct (rehash_probe fuel t N (hash_of (key pair))) as [[idx' t1]|];
        [|discriminate].
      cbn [bind] in H.
      destruct (slot_write N idx' pair) as [N1|] eqn:Hw; [|discriminate].
      cbn [bind] in H. injection H as _ <-.
      destruct (slot_write_inv _ _ _ _ Hw) as [H0 ->].
      apply blank_upd_occupied; assumption.
    + destruct (slot_write N idx pair) as [N1|] eqn:Hw; [|discriminate].
      cbn [bind] in H. injection H as _ <-.
      destruct (slot_write_inv _ _ _ _ Hw) as [H0 ->].
      apply blank_upd_occupied; assumption.
Qed.

Lemma rehash_loop_blank (fuel : nat) (old : list KeyValuePair) (n : nat) :
  forall t N i t' N',
    blank_when_empty N -> rehash_loop fuel old (t, N) i n = Ok (t', N') ->
    blank_when_empty N'.
Proof.
  induction n as [|n IH]; intros t N i t' N' Hb H.
  - cbn [rehash_loop] in H. injection H as _ <-. exact Hb.
  - cbn [rehash_loop] in H.
    destruct (rehash_slot fuel old (t, N) i) as [[t1 N1]|] eqn:Hs;
      [|discriminate].
    cbn [bind] in H.
    apply (IH t1 N1 (i + 1) t' N'); [|exact H].
    apply (rehash_slot_blank _ _ _ _ _ _ _ Hb Hs).
Qed.

Lemma ht_grow_blank (fuel : nat) (t t1 : hashtab_s) :
  blank_when_empty (table t) -> ht_grow fuel t = Ok t1 ->
  blank_when_empty (table t1).
Proof.
  intros Hb H. unfold ht_grow in H.
  destruct (load_exceeded t); [|injection H as <-; exact Hb].
  unfold ht_rehash in H.
  destruct (calloc_pairs (size_wrap (capacity t * RESIZE_FACTOR))) as [N|]
    eqn:Hc; [|discriminate].
  cbn [bind] in H.
  match type of H with
  | bind ?c _ = _ => destruct c as [[t2 N2]|] eqn:Hl; [|discriminate]
  end.
  cbn [bind] in H. injection H as <-. cbn [table].
  apply (rehash_loop_blank _ _ _ _ _ _ _ _ ) with (2 := Hl).
  unfold calloc_pairs in Hc.
  destruct (size_wrap (capacity t * RESIZE_FACTOR) * sizeof_KeyValuePair
            <=? SIZE_MAX); [|discriminate].
  injection Hc as <-. apply blank_repeat_empty.
Qed.

(** X15.  In a table built through the interface with keys other than NULL,
    an empty slot holds no value: it is as [calloc] left it. *)
Theorem reachable_blank_when_empty (t : hashtab_s) :
  is_pow2 INITIAL_CAPACITY -> reachable t ->
  forall i, 0 <= i < capacity t ->
    ~ occupied (slot (table t) i) -> slot (table t) i = empty_pair.
Proof.
  intros Hp Hr.
  assert (H : blank_when_empty (table t)).
  { induction Hr as
      [t Hcr | fuel t k v r t' Hr IH Hk Hput | fuel t k b t' Hr IH Hhas
       | fuel t k v t' Hr IH Hget].
    - destruct (ht_create_inv t Hcr) as [_ ->]. apply blank_repeat_empty.
    - pose proof (reachable_WF t Hp Hr) as Hwf.
      destruct (ht_put_inv _ _ _ _ _ _ Hput) as [tg [Hg Hpl]].
      pose proof (ht_grow_WF _ _ _ Hwf Hg) as Hwfg.
      pose proof (ht_grow_blank _ _ _ IH Hg) as Hbg.
      destruct (ht_place_slots _ _ _ _ _ _ Hwfg Hpl)
        as [p [q [Hpr [-> [_ [_ Hcase]]]]]].
      apply blank_upd_occupied; [exact Hbg | | lia].
      destruct Hcase as [[Ho [Hkq _]] | [_ [-> _]]].
      + unfold occupied. rewrite Hkq. exact Ho.
      + exact Hk.
    - pose proof (reachable_WF t Hp Hr) as Hwf.
      destruct (ht_has_only_counts _ _ _ _ _ Hwf Hhas) as [c ->]. exact IH.
    - pose proof (reachable_WF t Hp Hr) as Hwf.
      destruct (ht_get_only_counts _ _ _ _ _ Hwf Hget) as [c ->]. exact IH. }
  intros i Hi Hv. pose proof (reachable_WF t Hp Hr) as Hwf.
  pose proof (WF_length t Hwf) as Hlen.
  assert (Hval : value (slot (table t) i) = NULL) by (apply H; [lia|exact Hv]).
  assert (Hkey : key (slot (table t) i) = NULL).
  { destruct (Z.eq_dec (key (slot (table t) i)) NULL) as [E|E]; [exact E|].
    exfalso. apply Hv. exact E. }
  destruct (slot (table t) i) as [kk vv]. cbn [key value] in *.
  subst. reflexivity.
Qed.

Lemma filter_repeat_empty (f : KeyValuePair -> bool) (n : nat) :
  f empty_pair = false -> filter f (repeat empty_pair n) = [].
Proof.
  intros H. induction n as [|n IH]; [reflexivity|].
  cbn [repeat filter]. rewrite H. exact IH.
Qed.

(** X16.  [ht_create] returns an empty table: all counters zero, every slot
    empty, [ht_has] false for every key without counting a collision,
    [ht_get] aborting on its assertion, and empty enumerations. *)
Theorem ht_create_gives_empty_table (fuel : nat) (t : hashtab_s) (k : ptr) :
  0 < INITIAL_CAPACITY -> ht_create = Ok t -> (0 < fuel)%nat ->
  capacity t = INITIAL_CAPACITY /\ occupancy t = 0 /\
  collisions t = 0 /\ rehashes t = 0 /\
  Z.of_nat (length (table t)) = INITIAL_CAPACITY /\
  (forall i, slot (table t) i = empty_pair) /\
  ht_has fuel t k = Ok (false, t) /\
  ht_get fuel t k = Err AssertionFailed /\
  ht_keys t = Ok [] /\ ht_values t = Ok [] /\ ht_destroy t = Ok [].
Proof.
  intros Hic Hcr Hfuel. destruct (ht_create_inv t Hcr) as [Hm ->].
  cbn [capacity occupancy collisions rehashes table].
  set (T := repeat empty_pair (Z.to_nat INITIAL_CAPACITY)).
  set (t := mkTable INITIAL_CAPACITY 0 0 0 T).
  assert (Hlen : Z.of_nat (length T) = INITIAL_CAPACITY)
    by (unfold T; rewrite repeat_length; lia).
  assert (Hhas : ht_has fuel t k = Ok (false, t)).
  { unfold t, ht_has. cbn [capacity]. rewrite size_mod_ok by exact Hic.
    cbn [bind]. destruct fuel as [|fuel]; [lia|]. cbn [ht_has_loop table].
    rewrite slot_read_ok
      by (rewrite Hlen; apply Z.mod_pos_bound; exact Hic).
    cbn [bind]. unfold T. rewrite slot_repeat_empty. reflexivity. }
  split; [reflexivity|]. split; [reflexivity|]. split; [reflexivity|].
  split; [reflexivity|]. split; [exact Hlen|].
  split; [intros i; apply slot_repeat_empty|].
  split; [exact Hhas|].
  split; [unfold ht_get; rewrite Hhas; reflexivity|].
  split; [|split].
  - pose proof (keys_loop_fill t (Z.to_nat INITIAL_CAPACITY) 0 [] 0) as H.
    cbn [map app length skipn Nat.add Z.of_nat table repeat] in H.
    unfold ht_keys, malloc_ptrs. change (occupancy t) with 0.
    change (capacity t) with INITIAL_CAPACITY. cbn [Z.to_nat repeat].
    rewrite H.
    + unfold stored_keys, t, T. cbn [table].
      rewrite filter_repeat_empty by reflexivity. reflexivity.
    + unfold t. cbn [table]. lia.
    + unfold stored_keys, t, T. cbn [table].
      rewrite filter_repeat_empty by reflexivity. simpl. lia.
    + reflexivity.
  - pose proof (values_loop_fill t (Z.to_nat INITIAL_CAPACITY) 0 [] 0) as H.
    cbn [map app length skipn Nat.add Z.of_nat table repeat] in H.
    unfold ht_values, malloc_ptrs. change (occupancy t) with 0.
    change (capacity t) with INITIAL_CAPACITY. cbn [Z.to_nat repeat].
    rewrite H.
    + unfold nonnull_values, t, T. cbn [table].
      rewrite filter_repeat_empty by reflexivity. reflexivity.
    + unfold t. cbn [table]. lia.
    + unfold nonnull_values, t, T. cbn [table].
      rewrite filter_repeat_empty by reflexivity. simpl. lia.
    + reflexivity.
  - unfold ht_destroy. change (capacity t) with INITIAL_CAPACITY.
    rewrite (destroy_loop_pairs t _ 0%nat) by (unfold t; cbn [table]; lia).
    cbn [skipn]. unfold stored_pairs, t, T. cbn [table].
    rewrite filter_repeat_empty by reflexivity. reflexivity.
Qed.

(** *** Lookups count and do nothing else *)

Lemma ht_has_loop_frame (fuel : nat) :
  forall t k orig hv idx b t',
    ht_has_loop fuel t k orig hv idx = Ok (b, t') ->
    exists c, t' = set_collisions t c.
Proof.
  induction fuel as [|fuel IH]; intros t k orig hv idx b t' H;
    [discriminate|].
  cbn [ht_has_loop] in H. crunch H.
  - injection H as _ <-. exists (collisions t). symmetry.
    apply set_collisions_same.
  - injection H as _ <-. exists (collisions t). symmetry.
    apply set_collisions_same.
  - injection H as _ <-. eexists. reflexivity.
  - destruct (IH _ _ _ _ _ _ _ H) as [c ->]. exists c. reflexivity.
Qed.

(** X17.  [ht_has] and [ht_get] change nothing but [collisions]: capacity,
    occupancy, rehash counter and every slot are as before, on any table. *)
Theorem lookups_change_collisions_only (fuel : nat) (t : hashtab_s) (k : ptr) :
  (forall b t', ht_has fuel t k = Ok (b, t') ->
     capacity t' = capacity t /\ occupancy t' = occupancy t /\
     rehashes t' = rehashes t /\ table t' = table t) /\
  (forall v t', ht_get fuel t k = Ok (v, t') ->
     capacity t' = capacity t /\ occupancy t' = occupancy t /\
     rehashes t' = rehashes t /\ table t' = table t).
Proof.
  assert (Hhas : forall b t', ht_has fuel t k = Ok (b, t') ->
            exists c, t' = set_collisions t c).
  { intros b t' H. unfold ht_has in H.
    destruct (size_mod (hash_of k) (capacity t)) as [o|]; [|discriminate].
    cbn [bind] in H. apply (ht_has_loop_frame _ _ _ _ _ _ _ _ H). }
  split.
  - intros b t' H. destruct (Hhas b t' H) as [c ->].
    repeat split; reflexivity.
  - intros v t' H. unfold ht_get in H.
    destruct (ht_has fuel t k) as [[b t1]|] eqn:E; [|discriminate].
    cbn [bind] in H. destruct (Hhas b t1 eq_refl) as [c ->].
    destruct (negb b); [discriminate|].
    crunch H. injection H as _ <-. repeat split; reflexivity.
Qed.

(** X18.  [ht_put] never removes a key: a key for which [ht_has] was true
    before an [ht_put] of any key is one for which it is true after. *)
Theorem ht_put_never_removes_a_key (fuel fuel' : nat) (t : hashtab_s)
    (k v r : ptr) (t' : hashtab_s) (k' : ptr) (t1 : hashtab_s) :
  client_contract -> Inv t -> k <> NULL ->
  ht_put fuel t k v = Ok (r, t') ->
  ht_has fuel' t k' = Ok (true, t1) ->
  (Z.to_nat (capacity t') <= fuel')%nat ->
  exists t2, ht_has fuel' t' k' = Ok (true, t2).
Proof.
  intros Hc HI Hk Hput Hhas Hfuel. pose proof HI as [Hwf _].
  pose proof (WF_pos t Hwf) as Hn.
  destruct (ht_put_Inv _ _ _ _ _ _ Hc HI Hk Hput) as [HI' _].
  pose proof HI' as [Hwf' _].
  destruct (ht_put_inv _ _ _ _ _ _ Hput) as [tg [Hg Hp]].
  pose proof (ht_grow_WF _ _ _ Hwf Hg) as Hwfg.
  pose proof (WF_length tg Hwfg) as Hleng.
  destruct (ht_grow_keeps _ _ _ Hwf Hg) as [Hto _].
  destruct (ht_place_slots _ _ _ _ _ _ Hwfg Hp)
    as [p [q [Hpr [HT [Hcap [_ Hcase]]]]]].
  destruct (ht_has_inv _ _ _ _ _ Hwf Hhas)
    as [[d [Hf _]] | [[d [_ [Hb _]]] | [_ [Hb _]]]]; try discriminate.
  destruct (found_at_index _ _ _ _ _ Hn Hf) as [i [Hi [Ho [He _]]]].
  destruct (Hto i Hi Ho) as [a [Ha Ea]].
  assert (Hslot : occupied (slot (table t') a) /\
                  equals_fcn k' (key (slot (table t') a)) = true).
  { rewrite HT. destruct (Z.eq_dec a p) as [->|Hap].
    - rewrite slot_upd_same by lia.
      destruct Hcase as [[_ [Hkq _]] | [Hvac _]].
      + unfold occupied. rewrite Hkq, Ea. split; assumption.
      + exfalso. apply Hvac. rewrite Ea. exact Ho.
    - rewrite slot_upd_other by lia. rewrite Ea. split; assumption. }
  destruct Hslot as [Ho' He'].
  destruct (found_at_slot t' k' a Hc HI') as [d' [Hf' _]];
    [lia | exact Ho' | exact He' |].
  pose proof Hf' as [Hd' _]. eexists.
  apply (ht_has_found fuel' t' k' d' Hwf' Hf'). lia.
Qed.

(** X19.  [ht_put] only ever adds: the capacity stays or doubles, the
    occupancy stays or grows by one, it still counts the occupied slots,
    and the array is as long as the capacity says. *)
Theorem ht_put_only_adds (fuel : nat) (t : hashtab_s) (k v r : ptr)
    (t' : hashtab_s) :
  WF t -> occupancy t = count_occupied (table t) -> k <> NULL ->
  ht_put fuel t k v = Ok (r, t') ->
  (capacity t' = capacity t \/ capacity t' = capacity t * RESIZE_FACTOR) /\
  (occupancy t' = occupancy t \/ occupancy t' = occupancy t + 1) /\
  occupancy t' = count_occupied (table t') /\
  Z.of_nat (length (table t')) = capacity t'.
Proof using equals_fcn hash_fcn.
  intros Hwf Ho Hk Hput.
  destruct (ht_put_inv _ _ _ _ _ _ Hput) as [tg [Hg Hp]].
  pose proof (ht_grow_WF _ _ _ Hwf Hg) as Hwfg.
  pose proof (WF_length tg Hwfg) as Hleng.
  destruct (ht_grow_room _ _ _ Hwf Ho Hg) as [Hog [Hcg _]].
  destruct (WF_occupancy_small tg Hwfg Hcg) as [H0 Hs].
  destruct (ht_place_slots _ _ _ _ _ _ Hwfg Hp)
    as [p [q [Hpr [HT [Hcap [_ Hcase]]]]]].
  split.
  { rewrite Hcap.
    destruct (ht_grow_inv _ _ _ Hwf Hg)
      as [[_ ->] | [_ [_ [c [N' [-> _]]]]]]; [left | right]; reflexivity. }
  rewrite HT, length_upd, Hcap.
  destruct Hcase as [[Hop [Hkq [_ [_ [_ Hocc]]]]] | [Hvac [-> [_ Hocc]]]].
  - rewrite Hocc, Hog. split; [left; reflexivity|]. split; [|exact Hleng].
    rewrite <- Hog, Hcg. symmetry. apply count_occupied_ext.
    destruct q as [kq vq]. cbn [key] in Hkq. subst kq.
    apply upd_value_keys_slot.
  - rewrite Hocc, size_wrap_small
      by (unfold SIZE_MAX, SIZE_MODULUS, sizeof_KeyValuePair in *; lia).
    rewrite Hog. split; [right; reflexivity|]. split; [|exact Hleng].
    rewrite count_occupied_place; try assumption; lia.
Qed.

End HashADT.

(** ** The sample client at work *)

Lemma sample_contract : client_contract sample_hash sample_equals.
Proof.
  unfold client_contract, equals_reflexive, equals_symmetric,
    equals_transitive, hash_respects_equals, sample_equals, sample_hash.
  split; [|split; [|split]].
  - intros a. apply Z.eqb_refl.
  - intros a b H. apply Z.eqb_eq in H. apply Z.eqb_eq. congruence.
  - intros a b c H1 H2. apply Z.eqb_eq in H1, H2. apply Z.eqb_eq. congruence.
  - intros a b H. apply Z.eqb_eq in H.
    rewrite <- (Z.mod_mod_divide a 16 4), <- (Z.mod_mod_divide b 16 4);
      try (exists 4; reflexivity).
    rewrite H. reflexivity.
Qed.

Lemma is_pow2_4 : is_pow2 4.
Proof. exists 2. split; [lia | reflexivity]. Qed.

Lemma sample_empty_created : ht_create 4 = Ok sample_empty.
Proof. reflexivity. Qed.

Lemma sample_table_reachable :
  reachable sample_hash sample_equals 4 sample_table.
Proof.
  apply reach_put with (fuel := 4%nat) (t := sample_two) (k := 13) (v := 300)
                       (r := NULL); [|discriminate|reflexivity].
  apply reach_put with (fuel := 4%nat) (t := sample_one) (k := 9) (v := 200)
                       (r := NULL); [|discriminate|reflexivity].
  apply reach_put with (fuel := 4%nat) (t := sample_empty) (k := 5) (v := 100)
                       (r := NULL); [|discriminate|reflexivity].
  apply reach_create. reflexivity.
Qed.

Lemma sample_table_Inv : Inv sample_hash sample_equals sample_table.
Proof.
  apply reachable_Inv with (INITIAL_CAPACITY := 4).
  - exact sample_contract.
  - exact is_pow2_4.
  - exact sample_table_reachable.
Qed.

Lemma sample_table_WF : WF sample_table.
Proof. exact (proj1 sample_table_Inv). Qed.

Lemma sample_table_mem : mem_available sample_table.
Proof. unfold mem_available. vm_compute. discriminate. Qed.

Lemma sample_after_insert_put :
  ht_put sample_hash sample_equals 8 sample_table 17 400 =
  Ok (NULL, sample_after_insert).
Proof. reflexivity. Qed.

(** C1.  [ht_values] tests [pair.value] where [ht_keys] tests [pair.key]:
    after [ht_put(t, 5, NULL)] on a fresh table the key is enumerated but
    the stored NULL value is not, and the one cell of the returned array is
    never written. *)
Theorem ht_values_omits_null_value :
  ht_put sample_hash sample_equals 4 sample_empty 5 NULL =
    Ok (NULL, sample_null_value) /\
  occupancy sample_null_value = 1 /\
  occupied (slot (table sample_null_value) 1) /\
  value (slot (table sample_null_value) 1) = NULL /\
  ht_keys sample_null_value = Ok [Some 5] /\
  ht_values sample_null_value = Ok [None].
Proof.
  split; [reflexivity|]. split; [reflexivity|]. split; [discriminate|].
  split; [reflexivity|]. split; reflexivity.
Qed.

(** C2, as stated, fails: the lookup of 13 passes the slots of 5 and 9, and
    [ht_get] leaves [collisions] at 5 where it was 3. *)
Lemma ht_get_counts_collisions_example :
  ht_has sample_hash sample_equals 4 sample_table 13 =
    Ok (true, set_collisions sample_table 5) /\
  ht_get sample_hash sample_equals 4 sample_table 13 =
    Ok (300, set_collisions sample_table 5) /\
  collisions sample_table = 3 /\
  collisions (set_collisions sample_table 5) = 5 /\
  set_collisions sample_table 5 <> sample_table.
Proof.
  split; [reflexivity|]. split; [reflexivity|]. split; [reflexivity|].
  split; [reflexivity|]. discriminate.
Qed.

Lemma ht_get_returns_match_and_counts_witness :
  WF sample_table /\
  ht_has sample_hash sample_equals 4 sample_table 13 =
    Ok (true, set_collisions sample_table 5) /\
  (Z.to_nat (capacity sample_table) <= 4)%nat /\
  exists d,
    found_at sample_equals (table sample_table) (capacity sample_table) 13
      (hash_of sample_hash 13) d /\
    ht_get sample_hash sample_equals 4 sample_table 13 =
      Ok (value (slot (table sample_table)
                   (probe (capacity sample_table) (hash_of sample_hash 13) d)),
          set_collisions sample_table 5) /\
    set_collisions sample_table 5 =
      set_collisions sample_table
        (int_incr_n (Z.to_nat d) (collisions sample_table)).
Proof.
  split; [exact sample_table_WF|]. split; [reflexivity|].
  split; [simpl; lia|].
  apply (ht_get_returns_match_and_counts sample_hash sample_equals 4 4
           sample_table 13 (set_collisions sample_table 5)).
  - exact sample_table_WF.
  - reflexivity.
  - simpl. lia.
Defined.

Lemma ht_put_grows_first_witness :
  WF sample_table /\
  LOAD_THRESHOLD_NUM * capacity sample_table
    <= LOAD_THRESHOLD_DEN * occupancy sample_table /\
  mem_available sample_table /\
  enough_fuel 8 sample_table /\
  exists t1 r t',
    ht_grow sample_hash 8 sample_table = Ok t1 /\
    capacity t1 = capacity sample_table * RESIZE_FACTOR /\
    rehashes t1 = int_incr (rehashes sample_table) /\
    ht_put sample_hash sample_equals 8 sample_table 17 400 = Ok (r, t') /\
    ht_place sample_hash sample_equals 8 t1 17 400 = Ok (r, t') /\
    capacity t' = capacity sample_table * RESIZE_FACTOR /\
    rehashes t' = int_incr (rehashes sample_table) /\
    (INT_MIN <= rehashes sample_table < INT_MAX ->
     rehashes t' = rehashes sample_table + 1).
Proof.
  split; [exact sample_table_WF|]. split; [simpl; lia|].
  split; [exact sample_table_mem|]. split; [unfold enough_fuel; simpl; lia|].
  apply (ht_put_grows_first sample_hash sample_equals 8 sample_table 17 400).
  - exact sample_table_WF.
  - simpl. lia.
  - exact sample_table_mem.
  - unfold enough_fuel. simpl. lia.
Defined.

Lemma ht_has_probe_spec_witness :
  WF sample_table /\
  exists (d : Z) (b : bool),
    0 <= d <= capacity sample_table /\
    ht_has sample_hash sample_equals (Z.to_nat (capacity sample_table))
      sample_table 13 =
      Ok (b, set_collisions sample_table
               (int_incr_n (Z.to_nat d) (collisions sample_table))) /\
    run_occupied (table sample_table) (capacity sample_table)
      (hash_of sample_hash 13) d /\
    run_nomatch sample_equals (table sample_table) (capacity sample_table) 13
      (hash_of sample_hash 13) d /\
    ((d < capacity sample_table /\
      ~ occupied (slot (table sample_table)
                    (probe (capacity sample_table) (hash_of sample_hash 13) d)) /\
      b = false) \/
     (d < capacity sample_table /\
      occupied (slot (table sample_table)
                  (probe (capacity sample_table) (hash_of sample_hash 13) d)) /\
      sample_equals 13
        (key (slot (table sample_table)
                (probe (capacity sample_table) (hash_of sample_hash 13) d)))
        = true /\
      b = true) \/
     (d = capacity sample_table /\ b = false)).
Proof.
  split; [exact sample_table_WF|].
  apply (ht_has_probe_spec sample_hash sample_equals sample_table 13).
  exact sample_table_WF.
Defined.

Lemma ht_put_keeps_probe_sequences_witness :
  WF sample_table /\
  probe_ok sample_hash (capacity sample_table) (table sample_table) /\
  ht_put sample_hash sample_equals 8 sample_table 17 400 =
    Ok (NULL, sample_after_insert) /\
  WF sample_after_insert /\
  probe_ok sample_hash (capacity sample_after_insert)
    (table sample_after_insert).
Proof.
  split; [exact sample_table_WF|].
  split; [exact (proj2 (proj2 (proj2 sample_table_Inv)))|].
  split; [reflexivity|].
  apply (ht_put_keeps_probe_sequences sample_hash sample_equals 8 sample_table
           17 400 NULL sample_after_insert).
  - exact sample_table_WF.
  - exact (proj2 (proj2 (proj2 sample_table_Inv))).
  - reflexivity.
Defined.

Lemma ht_rehash_preserves_content_witness :
  client_contract sample_hash sample_equals /\
  Inv sample_hash sample_equals sample_table /\
  mem_available sample_table /\
  enough_fuel 8 sample_table /\
  exists t',
    ht_rehash sample_hash 8 sample_table = Ok t' /\
    occupancy t' = occupancy sample_table /\
    (forall i, 0 <= i < capacity sample_table ->
       occupied (slot (table sample_table) i) ->
       exists a, 0 <= a < capacity t' /\
                 slot (table t') a = slot (table sample_table) i) /\
    (forall k v t1,
       ht_get sample_hash sample_equals 8 sample_table k = Ok (v, t1) ->
       exists t2, ht_get sample_hash sample_equals 8 t' k = Ok (v, t2)).
Proof.
  split; [exact sample_contract|]. split; [exact sample_table_Inv|].
  split; [exact sample_table_mem|]. split; [unfold enough_fuel; simpl; lia|].
  apply (ht_rehash_preserves_content sample_hash sample_equals 8 sample_table).
  - exact sample_contract.
  - exact sample_table_Inv.
  - exact sample_table_mem.
  - unfold enough_fuel. simpl. lia.
Defined.

Lemma sample_two_reachable :
  reachable sample_hash sample_equals 4 sample_two.
Proof.
  apply reach_put with (fuel := 4%nat) (t := sample_one) (k := 9) (v := 200)
                       (r := NULL); [|discriminate|reflexivity].
  apply reach_put with (fuel := 4%nat) (t := sample_empty) (k := 5) (v := 100)
                       (r := NULL); [|discriminate|reflexivity].
  apply reach_create. reflexivity.
Qed.

(** C6, as stated for every key, fails at the sentinel.  On the table that
    holds 5 and 9, [ht_put(t, NULL, 7)] is followed by [ht_put(t, NULL, 8)]:
    the second call returns NULL where the first value was 7 and raises
    [occupancy] from 3 to 4, growing the table on the way, and
    [ht_get(t, NULL)] then fails its assertion, whatever the fuel. *)
Lemma ht_put_twice_null_key_example :
  reachable sample_hash sample_equals 4 sample_two /\
  ht_put sample_hash sample_equals 8 sample_two NULL 7 =
    Ok (NULL, sample_null_key) /\
  ht_put sample_hash sample_equals 8 sample_null_key NULL 8 =
    Ok (NULL, sample_null_twice) /\
  NULL <> 7 /\
  occupancy sample_null_key = 3 /\
  occupancy sample_null_twice = 4 /\
  ht_get sample_hash sample_equals 8 sample_null_twice NULL =
    Err AssertionFailed /\
  forall fuel v t3,
    ht_get sample_hash sample_equals fuel sample_null_twice NULL <>
    Ok (v, t3).
Proof.
  split; [exact sample_two_reachable|]. split; [reflexivity|].
  split; [reflexivity|]. split; [discriminate|]. split; [reflexivity|].
  split; [reflexivity|]. split; [reflexivity|].
  intros [|fuel] v t3; discriminate.
Qed.

Lemma ht_put_twice_updates_witness :
  client_contract sample_hash sample_equals /\
  Inv sample_hash sample_equals sample_table /\
  17 <> NULL /\
  ht_put sample_hash sample_equals 8 sample_table 17 400 =
    Ok (NULL, sample_after_insert) /\
  mem_available sample_after_insert /\
  enough_fuel 16 sample_after_insert /\
  exists t2,
    ht_put sample_hash sample_equals 16 sample_after_insert 17 401 =
      Ok (400, t2) /\
    occupancy t2 = occupancy sample_after_insert /\
    exists t3, ht_get sample_hash sample_equals 16 t2 17 = Ok (401, t3).
Proof.
  split; [exact sample_contract|]. split; [exact sample_table_Inv|].
  split; [discriminate|]. split; [reflexivity|].
  split; [unfold mem_available; vm_compute; discriminate|].
  split; [unfold enough_fuel; simpl; lia|].
  apply (ht_put_twice_updates sample_hash sample_equals 8 16 sample_table
           17 400 401 NULL sample_after_insert).
  - exact sample_contract.
  - exact sample_table_Inv.
  - discriminate.
  - reflexivity.
  - unfold mem_available. vm_compute. discriminate.
  - unfold enough_fuel. simpl. lia.
Defined.



Lemma reachable_never_full_witness :
  is_pow2 4 /\ 4 <= 4 /\
  reachable sample_hash sample_equals 4 sample_table /\
  0 < capacity sample_table /\
  occupancy sample_table < capacity sample_table /\
  exists i, 0 <= i < capacity sample_table /\
            ~ occupied (slot (table sample_table) i).
Proof.
  split; [exact is_pow2_4|]. split; [lia|].
  split; [exact sample_table_reachable|].
  apply (reachable_never_full sample_hash sample_equals 4 sample_table).
  - exact is_pow2_4.
  - lia.
  - exact sample_table_reachable.
Defined.

Lemma sample_grown_found :
  found_at sample_equals (table sample_grown) (capacity sample_grown) 21
    (hash_of sample_hash 21) 0.
Proof.
  split; [simpl; lia|]. split; [|split].
  - intros j Hj. assert (j = 0) by lia. subst j. vm_compute. discriminate.
  - intros j Hj. lia.
  - reflexivity.
Qed.

Lemma ht_put_update_keeps_key_witness :
  WF sample_table /\
  ht_grow sample_hash 8 sample_table = Ok sample_grown /\
  found_at sample_equals (table sample_grown) (capacity sample_grown) 21
    (hash_of sample_hash 21) 0 /\
  ht_put sample_hash sample_equals 8 sample_table 21 500 =
    Ok (100, sample_after_update) /\
  let p := probe (capacity sample_grown) (hash_of sample_hash 21) 0 in
  (load_exceeded sample_table = false -> sample_grown = sample_table) /\
  100 = value (slot (table sample_grown) p) /\
  table sample_after_update =
    upd (table sample_grown) (Z.to_nat p)
      (mkPair (key (slot (table sample_grown) p)) 500) /\
  key (slot (table sample_after_update) p) = key (slot (table sample_grown) p) /\
  value (slot (table sample_after_update) p) = 500 /\
  (forall i, 0 <= i -> i <> p ->
     slot (table sample_after_update) i = slot (table sample_grown) i) /\
  stored_keys (table sample_after_update) = stored_keys (table sample_grown) /\
  ht_keys sample_after_update = ht_keys sample_grown /\
  ht_destroy_keys sample_after_update = ht_destroy_keys sample_grown.
Proof.
  split; [exact sample_table_WF|]. split; [reflexivity|].
  split; [exact sample_grown_found|]. split; [reflexivity|].
  apply (ht_put_update_keeps_key sample_hash sample_equals 8 sample_table
           sample_grown 21 500 100 sample_after_update 0).
  - exact sample_table_WF.
  - reflexivity.
  - exact sample_grown_found.
  - reflexivity.
Defined.

(** ** The further properties on the sample tables *)

Ltac slot_cases i Hi :=
  let C := fresh "C" in
  assert (C : i = 0 \/ i = 1 \/ i = 2 \/ i = 3) by (simpl in Hi; lia);
  destruct C as [-> | [-> | [-> | ->]]].

Lemma sample_table_counted :
  occupancy sample_table = count_occupied (table sample_table).
Proof. reflexivity. Qed.

Lemma sample_two_WF : WF sample_two.
Proof.
  split; [exact is_pow2_4|]. split; [vm_compute; discriminate | reflexivity].
Qed.

Lemma sample_null_value_WF : WF sample_null_value.
Proof.
  split; [exact is_pow2_4|]. split; [vm_compute; discriminate | reflexivity].
Qed.

Lemma sample_table_no_17 :
  forall i, 0 <= i < capacity sample_table ->
    occupied (slot (table sample_table) i) ->
    sample_equals 17 (key (slot (table sample_table) i)) = false.
Proof. intros i Hi _. slot_cases i Hi; reflexivity. Qed.

Lemma sample_after_insert_reachable :
  reachable sample_hash sample_equals 4 sample_after_insert.
Proof.
  apply reach_put with (fuel := 8%nat) (t := sample_table) (k := 17) (v := 400)
                       (r := NULL); [|discriminate|reflexivity].
  exact sample_table_reachable.
Qed.

Lemma sample_two_null_vacant :
  vacant_at sample_equals (table sample_two) (capacity sample_two) NULL
    (hash_of sample_hash NULL) 0.
Proof.
  split; [simpl; lia|]. split; [|split].
  - intros j Hj. lia.
  - intros j Hj. lia.
  - intros H. apply H. reflexivity.
Qed.

Lemma ht_create_gives_empty_table_witness :
  0 < 4 /\ ht_create 4 = Ok sample_empty /\ (0 < 1)%nat /\
  capacity sample_empty = 4 /\ occupancy sample_empty = 0 /\
  collisions sample_empty = 0 /\ rehashes sample_empty = 0 /\
  Z.of_nat (length (table sample_empty)) = 4 /\
  (forall i, slot (table sample_empty) i = empty_pair) /\
  ht_has sample_hash sample_equals 1 sample_empty 7 = Ok (false, sample_empty) /\
  ht_get sample_hash sample_equals 1 sample_empty 7 = Err AssertionFailed /\
  ht_keys sample_empty = Ok [] /\ ht_values sample_empty = Ok [] /\
  ht_destroy sample_empty = Ok [].
Proof.
  split; [lia|]. split; [reflexivity|]. split; [lia|].
  apply (ht_create_gives_empty_table sample_hash sample_equals 4 1
           sample_empty 7); [lia | reflexivity | lia].
Defined.

Lemma ht_has_decides_membership_witness :
  client_contract sample_hash sample_equals /\
  Inv sample_hash sample_equals sample_table /\
  (Z.to_nat (capacity sample_table) <= 4)%nat /\
  exists (b : bool) (t' : hashtab_s),
    ht_has sample_hash sample_equals 4 sample_table 13 = Ok (b, t') /\
    (b = true <->
     exists i, 0 <= i < capacity sample_table /\
               occupied (slot (table sample_table) i) /\
               sample_equals 13 (key (slot (table sample_table) i)) = true).
Proof.
  split; [exact sample_contract|]. split; [exact sample_table_Inv|].
  split; [simpl; lia|].
  apply (ht_has_decides_membership sample_hash sample_equals 4 sample_table 13).
  - exact sample_contract.
  - exact sample_table_Inv.
  - simpl. lia.
Defined.

Lemma ht_get_returns_stored_value_witness :
  client_contract sample_hash sample_equals /\
  Inv sample_hash sample_equals sample_table /\
  ht_get sample_hash sample_equals 4 sample_table 13 =
    Ok (300, set_collisions sample_table 5) /\
  (exists i, 0 <= i < capacity sample_table /\
             occupied (slot (table sample_table) i) /\
             sample_equals 13 (key (slot (table sample_table) i)) = true /\
             value (slot (table sample_table) i) = 300) /\
  (forall j, 0 <= j < capacity sample_table ->
     occupied (slot (table sample_table) j) ->
     sample_equals 13 (key (slot (table sample_table) j)) = true ->
     value (slot (table sample_table) j) = 300).
Proof.
  split; [exact sample_contract|]. split; [exact sample_table_Inv|].
  split; [reflexivity|].
  apply (ht_get_returns_stored_value sample_hash sample_equals 4 sample_table
           13 300 (set_collisions sample_table 5)).
  - exact sample_contract.
  - exact sample_table_Inv.
  - reflexivity.
Defined.

Lemma ht_get_missing_key_aborts_witness :
  WF sample_table /\
  (forall i, 0 <= i < capacity sample_table ->
     occupied (slot (table sample_table) i) ->
     sample_equals 17 (key (slot (table sample_table) i)) = false) /\
  (Z.to_nat (capacity sample_table) <= 4)%nat /\
  ht_get sample_hash sample_equals 4 sample_table 17 = Err AssertionFailed.
Proof.
  split; [exact sample_table_WF|]. split; [exact sample_table_no_17|].
  split; [simpl; lia|].
  apply (ht_get_missing_key_aborts sample_hash sample_equals 4 sample_table 17).
  - exact sample_table_WF.
  - exact sample_table_no_17.
  - simpl. lia.
Defined.

Lemma ht_put_then_get_witness :
  client_contract sample_hash sample_equals /\
  Inv sample_hash sample_equals sample_table /\ 17 <> NULL /\
  ht_put sample_hash sample_equals 8 sample_table 17 400 =
    Ok (NULL, sample_after_insert) /\
  (Z.to_nat (capacity sample_after_insert) <= 8)%nat /\
  exists t'',
    ht_get sample_hash sample_equals 8 sample_after_insert 17 = Ok (400, t'').
Proof.
  split; [exact sample_contract|]. split; [exact sample_table_Inv|].
  split; [discriminate|]. split; [reflexivity|]. split; [simpl; lia|].
  apply (ht_put_then_get sample_hash sample_equals 8 8 sample_table 17 400
           NULL sample_after_insert).
  - exact sample_contract.
  - exact sample_table_Inv.
  - discriminate.
  - reflexivity.
  - simpl. lia.
Defined.

Lemma ht_put_leaves_other_keys_witness :
  client_contract sample_hash sample_equals /\
  Inv sample_hash sample_equals sample_table /\ 17 <> NULL /\
  ht_put sample_hash sample_equals 8 sample_table 17 400 =
    Ok (NULL, sample_after_insert) /\
  sample_equals 17 13 = false /\
  (Z.to_nat (capacity sample_after_insert) <= 8)%nat /\
  (forall v' t1,
     ht_get sample_hash sample_equals 8 sample_table 13 = Ok (v', t1) ->
     exists t2,
       ht_get sample_hash sample_equals 8 sample_after_insert 13 = Ok (v', t2)) /\
  (forall t1,
     ht_has sample_hash sample_equals 8 sample_table 13 = Ok (false, t1) ->
     exists t2,
       ht_has sample_hash sample_equals 8 sample_after_insert 13 =
       Ok (false, t2)).
Proof.
  split; [exact sample_contract|]. split; [exact sample_table_Inv|].
  split; [discriminate|]. split; [reflexivity|]. split; [reflexivity|].
  split; [simpl; lia|].
  apply (ht_put_leaves_other_keys sample_hash sample_equals 8 8 sample_table
           17 400 NULL sample_after_insert 13).
  - exact sample_contract.
  - exact sample_table_Inv.
  - discriminate.
  - reflexivity.
  - reflexivity.
  - simpl. lia.
Defined.

Lemma ht_put_below_threshold_writes_one_slot_witness :
  WF sample_two /\
  load_exceeded sample_two = false /\
  ht_put sample_hash sample_equals 4 sample_two 13 300 =
    Ok (NULL, sample_table) /\
  capacity sample_table = capacity sample_two /\
  rehashes sample_table = rehashes sample_two /\
  length (table sample_table) = length (table sample_two) /\
  exists p, 0 <= p < capacity sample_two /\
    forall i, 0 <= i -> i <> p ->
      slot (table sample_table) i = slot (table sample_two) i.
Proof.
  split; [exact sample_two_WF|]. split; [reflexivity|]. split; [reflexivity|].
  apply (ht_put_below_threshold_writes_one_slot sample_hash sample_equals 4
           sample_two 13 300 NULL sample_table).
  - exact sample_two_WF.
  - reflexivity.
  - reflexivity.
Defined.

Lemma ht_keys_lists_stored_keys_witness :
  WF sample_table /\
  occupancy sample_table = count_occupied (table sample_table) /\
  ht_keys sample_table = Ok (map Some (stored_keys (table sample_table))) /\
  Z.of_nat (length (stored_keys (table sample_table))) = occupancy sample_table.
Proof.
  split; [exact sample_table_WF|]. split; [reflexivity|].
  apply (ht_keys_lists_stored_keys sample_table).
  - exact sample_table_WF.
  - reflexivity.
Defined.

Lemma sample_null_value_blank : blank_when_empty (table sample_null_value).
Proof. intros i Hi _. slot_cases i Hi; reflexivity. Qed.

Lemma ht_values_layout_witness :
  WF sample_null_value /\
  occupancy sample_null_value = count_occupied (table sample_null_value) /\
  blank_when_empty (table sample_null_value) /\
  ht_values sample_null_value =
    Ok (map Some (nonnull_values (table sample_null_value)) ++
        repeat None (length (null_valued (table sample_null_value)))) /\
  Z.of_nat (length (nonnull_values (table sample_null_value)) +
            length (null_valued (table sample_null_value)))
    = occupancy sample_null_value.
Proof.
  split; [exact sample_null_value_WF|]. split; [reflexivity|].
  split; [exact sample_null_value_blank|].
  apply (ht_values_layout sample_null_value).
  - exact sample_null_value_WF.
  - reflexivity.
  - exact sample_null_value_blank.
Defined.

Lemma sample_table_values_set :
  forall i, 0 <= i < capacity sample_table ->
    is_null (value (slot (table sample_table) i)) =
    is_null (key (slot (table sample_table) i)).
Proof. intros i Hi. slot_cases i Hi; reflexivity. Qed.

Lemma ht_keys_values_pair_up_witness :
  WF sample_table /\
  occupancy sample_table = count_occupied (table sample_table) /\
  (forall i, 0 <= i < capacity sample_table ->
     is_null (value (slot (table sample_table) i)) =
     is_null (key (slot (table sample_table) i))) /\
  ht_keys sample_table =
    Ok (map (fun p => Some (key p)) (filter occupiedb (table sample_table))) /\
  ht_values sample_table =
    Ok (map (fun p => Some (value p)) (filter occupiedb (table sample_table))).
Proof.
  split; [exact sample_table_WF|]. split; [reflexivity|].
  split; [exact sample_table_values_set|].
  apply (ht_keys_values_pair_up sample_table).
  - exact sample_table_WF.
  - reflexivity.
  - exact sample_table_values_set.
Defined.

Lemma ht_destroy_deletes_stored_pairs_witness :
  Z.of_nat (length (table sample_table)) = capacity sample_table /\
  ht_destroy sample_table = Ok (stored_pairs (table sample_table)) /\
  ht_destroy_keys sample_table = Ok (stored_keys (table sample_table)) /\
  Z.of_nat (length (stored_pairs (table sample_table)))
    = count_occupied (table sample_table).
Proof.
  split; [reflexivity|].
  apply (ht_destroy_deletes_stored_pairs sample_table). reflexivity.
Defined.

Lemma ht_dump_prints_stored_pairs_witness :
  Z.of_nat (length (table sample_table)) = capacity sample_table /\
  ht_dump sample_table false = Ok (dump_header sample_table) /\
  printed_pairs (dump_header sample_table) = [] /\
  count_lines (dump_header sample_table) = 4 /\
  exists out,
    ht_dump sample_table true = Ok out /\
    printed_pairs out = stored_pairs (table sample_table) /\
    ht_destroy sample_table = Ok (printed_pairs out) /\
    count_lines out = 4 + capacity sample_table.
Proof.
  split; [reflexivity|].
  apply (ht_dump_prints_stored_pairs sample_table). reflexivity.
Defined.

Lemma reachable_capacity_tracks_rehashes_witness :
  is_pow2 4 /\
  reachable sample_hash sample_equals 4 sample_after_insert /\
  0 <= rehashes sample_after_insert < 60 /\
  capacity sample_after_insert = 4 * 2 ^ rehashes sample_after_insert.
Proof.
  split; [exact is_pow2_4|]. split; [exact sample_after_insert_reachable|].
  apply (reachable_capacity_tracks_rehashes sample_hash sample_equals 4
           sample_after_insert).
  - exact is_pow2_4.
  - exact sample_after_insert_reachable.
Defined.

Lemma ht_put_null_key_miscounts_witness :
  WF sample_two /\
  occupancy sample_two = count_occupied (table sample_two) /\
  load_exceeded sample_two = false /\
  vacant_at sample_equals (table sample_two) (capacity sample_two) NULL
    (hash_of sample_hash NULL) 0 /\
  ht_put sample_hash sample_equals 4 sample_two NULL 7 =
    Ok (NULL, sample_null_key) /\
  NULL = NULL /\
  occupancy sample_null_key = occupancy sample_two + 1 /\
  count_occupied (table sample_null_key) = count_occupied (table sample_two) /\
  stored_keys (table sample_null_key) = stored_keys (table sample_two) /\
  forall fuel', (Z.to_nat 0 < fuel')%nat ->
    ht_has sample_hash sample_equals fuel' sample_null_key NULL =
    Ok (false,
        set_collisions sample_null_key
          (int_incr_n (Z.to_nat 0) (collisions sample_null_key))).
Proof.
  split; [exact sample_two_WF|]. split; [reflexivity|]. split; [reflexivity|].
  split; [exact sample_two_null_vacant|]. split; [reflexivity|].
  apply (ht_put_null_key_miscounts sample_hash sample_equals 4 sample_two 7
           NULL sample_null_key 0).
  - exact sample_two_WF.
  - reflexivity.
  - reflexivity.
  - exact sample_two_null_vacant.
  - reflexivity.
Defined.

Lemma ht_put_keeps_key_pointers_witness :
  WF sample_table /\
  ht_put sample_hash sample_equals 8 sample_table 21 500 =
    Ok (100, sample_after_update) /\
  In 5 (stored_keys (table sample_table)) /\
  In 5 (stored_keys (table sample_after_update)).
Proof.
  split; [exact sample_table_WF|]. split; [reflexivity|].
  split; [simpl; tauto|].
  apply (ht_put_keeps_key_pointers sample_hash sample_equals 8 sample_table
           21 500 100 sample_after_update).
  - exact sample_table_WF.
  - reflexivity.
  - simpl. tauto.
Defined.

Lemma reachable_blank_when_empty_witness :
  is_pow2 4 /\
  reachable sample_hash sample_equals 4 sample_after_insert /\
  0 <= 5 < capacity sample_after_insert /\
  ~ occupied (slot (table sample_after_insert) 5) /\
  slot (table sample_after_insert) 5 = empty_pair.
Proof.
  assert (Hv : ~ occupied (slot (table sample_after_insert) 5))
    by (intros H; apply H; reflexivity).
  split; [exact is_pow2_4|]. split; [exact sample_after_insert_reachable|].
  split; [simpl; lia|]. split; [exact Hv|].
  apply (reachable_blank_when_empty sample_hash sample_equals 4
           sample_after_insert).
  - exact is_pow2_4.
  - exact sample_after_insert_reachable.
  - simpl. lia.
  - exact Hv.
Defined.

Lemma lookups_change_collisions_only_witness :
  ht_has sample_hash sample_equals 4 sample_table 13 =
    Ok (true, set_collisions sample_table 5) /\
  ht_get sample_hash sample_equals 4 sample_table 13 =
    Ok (300, set_collisions sample_table 5) /\
  table (set_collisions sample_table 5) = table sample_table /\
  occupancy (set_collisions sample_table 5) = occupancy sample_table.
Proof.
  split; [reflexivity|]. split; [reflexivity|].
  destruct (lookups_change_collisions_only sample_hash sample_equals 4
              sample_table 13) as [Hhas Hget].
  destruct (Hhas true (set_collisions sample_table 5) eq_refl)
    as [_ [_ [_ HT]]].
  destruct (Hget 300 (set_collisions sample_table 5) eq_refl)
    as [_ [Ho _]].
  split; [exact HT | exact Ho].
Defined.

Lemma ht_put_never_removes_a_key_witness :
  client_contract sample_hash sample_equals /\
  Inv sample_hash sample_equals sample_table /\ 17 <> NULL /\
  ht_put sample_hash sample_equals 8 sample_table 17 400 =
    Ok (NULL, sample_after_insert) /\
  ht_has sample_hash sample_equals 8 sample_table 13 =
    Ok (true, set_collisions sample_table 5) /\
  (Z.to_nat (capacity sample_after_insert) <= 8)%nat /\
  exists t2,
    ht_has sample_hash sample_equals 8 sample_after_insert 13 = Ok (true, t2).
Proof.
  split; [exact sample_contract|]. split; [exact sample_table_Inv|].
  split; [discriminate|]. split; [reflexivity|]. split; [reflexivity|].
  split; [simpl; lia|].
  apply (ht_put_never_removes_a_key sample_hash sample_equals 8 8 sample_table
           17 400 NULL sample_after_insert 13 (set_collisions sample_table 5)).
  - exact sample_contract.
  - exact sample_table_Inv.
  - discriminate.
  - reflexivity.
  - reflexivity.
  - simpl. lia.
Defined.

Lemma ht_put_only_adds_witness :
  WF sample_table /\
  occupancy sample_table = count_occupied (table sample_table) /\
  17 <> NULL /\
  ht_put sample_hash sample_equals 8 sample_table 17 400 =
    Ok (NULL, sample_after_insert) /\
  (capacity sample_after_insert = capacity sample_table \/
   capacity sample_after_insert = capacity sample_table * RESIZE_FACTOR) /\
  (occupancy sample_after_insert = occupancy sample_table \/
   occupancy sample_after_insert = occupancy sample_table + 1) /\
  occupancy sample_after_insert = count_occupied (table sample_after_insert) /\
  Z.of_nat (length (table sample_after_insert)) = capacity sample_after_insert.
Proof.
  split; [exact sample_table_WF|]. split; [reflexivity|].
  split; [discriminate|]. split; [reflexivity|].
  apply (ht_put_only_adds sample_hash sample_equals 8 sample_table 17 400
           NULL sample_after_insert).
  - exact sample_table_WF.
  - reflexivity.
  - discriminate.
  - reflexivity.
Defined.
